(** * ffsim.fci: matrix-free operator application on FCI vectors

    A shallow embedding of [src/ffsim/fci.py] and of the properties its
    specification states about it.

    Python integers are [Z]; array indices and lengths are [nat]; float64 and
    complex128 scalars are idealised as real and complex numbers (rounding is
    not modelled); a numpy array is a dtype tag together with its flat
    C-ordered data; a Python call either returns a value or raises. *)

From Stdlib Require Import Reals Lra ZArith Lia.
From stdpp Require Import base option list numbers gmap.

Local Open Scope Z_scope.

(** ** Python calls: a value or an exception *)

Inductive exn : Type :=
  | ValueError      (* reshape of an array of the wrong size, bad unpacking *)
  | IndexError      (* index out of bounds *)
  | TypeError       (* in-place operation that would cast complex to float *)
  | AssertionError.

Inductive result (A : Type) : Type :=
  | Ok (a : A)
  | Raise (e : exn).
Arguments Ok {A} a.
Arguments Raise {A} e.

#[global] Instance result_ret : MRet result := λ A a, Ok a.
#[global] Instance result_bind : MBind result := λ A B f m,
  match m with
  | Ok a => f a
  | Raise e => Raise e
  end.

Definition raises {A} (m : result A) : Prop := ∃ e, m = Raise e.

(** ** Binomial coefficients *)

(** Reference binomial coefficient C(n, k), by Pascal's rule. *)
Fixpoint binom (n k : nat) : nat :=
  match k, n with
  | O, _ => 1
  | S _, O => 0
  | S k', S n' => binom n' k' + binom n' k
  end%nat.

(** [scipy.special.comb(N, k, exact=True)] on Python integers (an external
    library routine, not part of the repository): 0 when [k > N], [N < 0] or
    [k < 0]; otherwise the product [(N) (N-1) ... (N-nterms+1)] divided, with
    integer division, by [nterms!], where [nterms = min(k, N-k)].  All
    arithmetic is on unbounded integers and the call never raises. *)
Definition comb_loop (M nterms : Z) : Z * Z :=
  fold_left (λ '(numerator, denominator) j, (numerator * (M - j), denominator * j))
            (seqZ 1 nterms) (1, 1).

Definition comb (N k : Z) : result Z :=
  if bool_decide (k > N ∨ N < 0 ∨ k < 0) then Ok 0
  else
    let M := N + 1 in
    let nterms := Z.min k (N - k) in
    let '(numerator, denominator) := comb_loop M nterms in
    Ok (numerator `div` denominator).

(** fci.py, [get_dimension]. *)
Definition get_dimension (norb : Z) (nelec : Z * Z) : result Z :=
  let '(n_alpha, n_beta) := nelec in
  dim_a ← comb norb n_alpha;
  dim_b ← comb norb n_beta;
  Ok (dim_a * dim_b).

(** ** Scalars: complex numbers over the reals *)

Record C : Type := mkC { Re : R; Im : R }.

Declare Scope C_scope.
Delimit Scope C_scope with C.
Bind Scope C_scope with C.

Definition RtoC (x : R) : C := mkC x 0.
Definition ZtoC (z : Z) : C := RtoC (IZR z).
Definition C0 : C := RtoC 0.
Definition C1 : C := RtoC 1.
(** Python's [1j]. *)
Definition Ci : C := mkC 0 1.
Definition Cadd (x y : C) : C := mkC (Re x + Re y) (Im x + Im y).
Definition Copp (x : C) : C := mkC (- Re x) (- Im x).
Definition Csub (x y : C) : C := mkC (Re x - Re y) (Im x - Im y).
Definition Cmul (x y : C) : C :=
  mkC (Re x * Re y - Im x * Im y) (Re x * Im y + Im x * Re y).
Definition Cconj (x : C) : C := mkC (Re x) (- Im x).
(** Python's float literal [0.5]. *)
Definition Chalf : C := RtoC (/ 2).

Infix "+" := Cadd : C_scope.
Infix "-" := Csub : C_scope.
Infix "*" := Cmul : C_scope.
Notation "- x" := (Copp x) : C_scope.

#[global] Instance C_inhabited : Inhabited C := populate C0.

Definition Csum (l : list C) : C := foldr Cadd C0 l.

(** ** numpy arrays *)

Inductive dtype : Type := float64 | complex128.

#[global] Instance dtype_eq_dec : EqDecision dtype.
Proof. solve_decision. Defined.

(** numpy's type promotion on the two floating kinds. *)
Definition result_type (d1 d2 : dtype) : dtype :=
  match d1, d2 with
  | float64, float64 => float64
  | _, _ => complex128
  end.

(** Casting rule ['same_kind'] of in-place ufuncs ([+=], [-=], [*=]): a
    complex operand cannot be accumulated into a float64 array. *)
Definition can_cast (from to : dtype) : bool :=
  match from, to with
  | complex128, float64 => false
  | _, _ => true
  end.

(** An array value: dtype, shape, and the elements in C order. *)
Record ndarray : Type := mk_ndarray {
  dtype_of : dtype;
  shape : list nat;
  data : list C
}.

Definition all_zeros (a : ndarray) : Prop := Forall (λ x, x = C0) (data a).

(** A two-dimensional array seen as its list of rows. *)
Abbreviation matrix := (list (list C)).

Definition vadd (u v : list C) : list C := zip_with Cadd u v.
Definition vsub (u v : list C) : list C := zip_with Csub u v.
Definition vscale (c : C) (v : list C) : list C := Cmul c <$> v.
Definition madd (m n : matrix) : matrix := zip_with vadd m n.
Definition mscale (c : C) (m : matrix) : matrix := vscale c <$> m.
Definition mzeros (r c : nat) : matrix := replicate r (replicate c C0).

(** [reshape(r, c)] of flat C-ordered data, and the way back. *)
Definition to_rows (r c : nat) (l : list C) : matrix :=
  (λ i, take c (drop (i * c) l)) <$> seq 0 r.
Definition flatten (m : matrix) : list C := concat m.

(** [m.T] for an [r] by [c] matrix. *)
Definition transpose (r c : nat) (m : matrix) : matrix :=
  (λ j, (λ i, (m !!! i) !!! j) <$> seq 0 r) <$> seq 0 c.

Definition well_shaped (r c : nat) (m : matrix) : Prop :=
  length m = r ∧ Forall (λ row, length row = c) m.

(** [arr.reshape(r, c)]: fails unless the sizes agree. *)
Definition reshape2 (l : list C) (r c : nat) : result matrix :=
  if decide (length l = (r * c)%nat) then Ok (to_rows r c l) else Raise ValueError.

(** Python loops over a list, threading the updated state and stopping at
    the first exception. *)
Fixpoint for_each {A S : Type} (l : list A) (body : S → A → result S) (s : S) : result S :=
  match l with
  | [] => Ok s
  | x :: l' => s' ← body s x; for_each l' body s'
  end.

Definition enumerate {A : Type} (l : list A) : list (nat * A) := imap pair l.

(** Conversion of a Python integer used as an array extent. *)
Definition extent (z : Z) : result nat :=
  if decide (0 ≤ z) then Ok (Z.to_nat z) else Raise ValueError.

(** ** Excitation (link) tables and particle numbers *)

(** One row of a link table: [(a, i, str1, sign)], the excitation that
    creates orbital [a] and annihilates orbital [i], its destination address
    and its sign. *)
Definition link_entry : Type := nat * nat * nat * Z.
Definition link_table : Type := list (list link_entry).

(** [nelec] is either one Python integer or a pair. *)
Inductive nelec_arg : Type :=
  | NelecInt (n : Z)
  | NelecPair (neleca nelecb : Z).

(** [pyscf.fci.cistring.num_strings(n, m)] (external): 0 out of range,
    otherwise [n! // ((n-m)! m!)]. *)
Definition factorial (z : Z) : Z := Z.of_nat (fact (Z.to_nat z)).
Definition num_strings (n m : Z) : Z :=
  if bool_decide (m < 0 ∨ m > n) then 0
  else factorial n `div` (factorial (n - m) * factorial m).

(** *** Indexed in-place updates of the four-index intermediate *)

(** [m[i]], a row of a two-dimensional array. *)
Definition get_row (m : matrix) (i : nat) : result (list C) :=
  match m !! i with
  | Some row => Ok row
  | None => Raise IndexError
  end.

(** [m[:, j]], a column of an array with [nb] columns. *)
Definition get_col (nb : nat) (m : matrix) (j : nat) : result (list C) :=
  if decide (j < nb)%nat then Ok ((λ row, row !!! j) <$> m) else Raise IndexError.

(** [t[a, i]] of a four-index array held as [t[a][i]] matrices. *)
Definition get_block (t : list (list matrix)) (a i : nat) : result matrix :=
  match t !! a with
  | Some ta =>
      match ta !! i with
      | Some m => Ok m
      | None => Raise IndexError
      end
  | None => Raise IndexError
  end.

Definition set_block (t : list (list matrix)) (a i : nat) (m : matrix)
  : list (list matrix) :=
  alter (λ ta, <[i := m]> ta) a t.

(** [m[str1] += row], into an array of dtype [dst] from one of dtype [src]. *)
Definition iadd_row (dst src : dtype) (m : matrix) (str1 : nat) (row : list C)
  : result matrix :=
  old ← get_row m str1;
  if can_cast src dst then Ok (<[str1 := vadd old row]> m) else Raise TypeError.

(** [m[:, str1] += col]. *)
Definition iadd_col (dst src : dtype) (nb : nat) (m : matrix) (str1 : nat)
    (col : list C) : result matrix :=
  if decide (str1 < nb)%nat then
    if can_cast src dst
    then Ok (zip_with (λ row x, alter (λ y, Cadd y x) str1 row) m col)
    else Raise TypeError
  else Raise IndexError.

(** [lib.einsum("bjai,aiAB->bjAB", eri, t1)]:
    [out[b][j] = sum over a, i of eri[b,j,a,i] * t1[a][i]]. *)
Definition eri_at (norb : nat) (eri : list C) (b j a i : nat) : C :=
  eri !!! (((b * norb + j) * norb + a) * norb + i)%nat.

Definition einsum_bjai (norb na nb : nat) (eri : list C) (t1 : list (list matrix))
  : list (list matrix) :=
  (λ b, (λ j,
     foldr (λ a acc,
       foldr (λ i acc,
         madd acc (mscale (eri_at norb eri b j a i) ((t1 !!! a) !!! i)))
         acc (seq 0 norb))
       (mzeros na nb) (seq 0 norb))
     <$> seq 0 norb) <$> seq 0 norb.

(** *** Whole-array operations *)

(** [a.real], [a.imag], [a.astype(complex)], [a.conj()], [z * a]. *)
Definition array_real (a : ndarray) : ndarray :=
  mk_ndarray float64 (shape a) ((λ x, RtoC (Re x)) <$> data a).
Definition array_imag (a : ndarray) : ndarray :=
  mk_ndarray float64 (shape a) ((λ x, RtoC (Im x)) <$> data a).
Definition astype (dt : dtype) (a : ndarray) : ndarray :=
  mk_ndarray dt (shape a) (data a).
Definition array_conj (a : ndarray) : ndarray :=
  mk_ndarray (dtype_of a) (shape a) (Cconj <$> data a).
Definition scalar_mul (dtz : dtype) (z : C) (a : ndarray) : ndarray :=
  mk_ndarray (result_type dtz (dtype_of a)) (shape a) (vscale z (data a)).

(** [a.T] of a two-dimensional array (a one-dimensional array is its own
    transpose; a one-body tensor has no higher rank). *)
Definition array_T (a : ndarray) : ndarray :=
  match shape a with
  | [r; c] => mk_ndarray (dtype_of a) [c; r] (flatten (transpose r c (to_rows r c (data a))))
  | _ => a
  end.

(** [r += x] and [r -= x] for arrays of one shape. *)
Definition iadd (r x : ndarray) : result ndarray :=
  if can_cast (dtype_of x) (dtype_of r)
  then Ok (mk_ndarray (dtype_of r) (shape r) (vadd (data r) (data x)))
  else Raise TypeError.
Definition isub (r x : ndarray) : result ndarray :=
  if can_cast (dtype_of x) (dtype_of r)
  then Ok (mk_ndarray (dtype_of r) (shape r) (vsub (data r) (data x)))
  else Raise TypeError.

(** *** The single-excitation primitive *)

(** The two loops of the one-body contraction over the link tables:
    [ci1[str1, :] += sign * h1e[a, i] * ci0[str0, :]] for the alpha table,
    [ci1[:, str1] += sign * h1e[a, i] * ci0[:, str0]] for the beta table.
    The primitive runs over raw buffers and gives no meaning to an entry that
    points outside them; such an entry is skipped here. *)
Definition h1e_at (norb : nat) (h1e : list C) (a i : nat) : C :=
  h1e !!! (a * norb + i)%nat.

Definition one_body_pass_a (norb : nat) (h1e : list C) (ci0 : matrix)
    (link_indexa : link_table) (ci1 : matrix) : matrix :=
  foldl (λ ci1 '(str0, tab),
    foldl (λ ci1 '(a, i, str1, sign),
      match ci0 !! str0 with
      | Some row =>
          alter (λ old, vadd old (vscale (ZtoC sign * h1e_at norb h1e a i) row)) str1 ci1
      | None => ci1
      end) ci1 tab) ci1 (enumerate link_indexa).

Definition one_body_pass_b (norb : nat) (h1e : list C) (ci0 : matrix)
    (link_indexb : link_table) (ci1 : matrix) : matrix :=
  foldl (λ ci1 '(str0, tab),
    foldl (λ ci1 '(a, i, str1, sign),
      zip_with (λ row1 row0,
        match row0 !! str0 with
        | Some x => alter (λ y, y + ZtoC sign * h1e_at norb h1e a i * x)%C str1 row1
        | None => row1
        end) ci1 ci0) ci1 tab) ci1 (enumerate link_indexb).

(** The one-body operator [sum over a, i of h1e[a, i] E_{ai}] applied to a
    CI vector, on complex data: the reference the real primitive is compared
    with. *)
Definition apply_one_body (h1e fcivec : ndarray) (norb : Z)
    (link_index : link_table * link_table) : result ndarray :=
  let '(link_indexa, link_indexb) := link_index in
  let na := length link_indexa in
  let nb := length link_indexb in
  if decide (length (data fcivec) = (na * nb)%nat) then
    let ci0 := to_rows na nb (data fcivec) in
    let ci1 := mzeros na nb in
    let ci1 := one_body_pass_a (Z.to_nat norb) (data h1e) ci0 link_indexa ci1 in
    let ci1 := one_body_pass_b (Z.to_nat norb) (data h1e) ci0 link_indexb ci1 in
    Ok (mk_ndarray complex128 (shape fcivec) (flatten ci1))
  else Raise AssertionError.

(** [pyscf.fci.direct_nosym.contract_1e(h1e, fcivec, norb, nelec, link_index)]
    (external): the same contraction, for float64 operands only. *)
Definition contract_1e (h1e fcivec : ndarray) (norb : Z)
    (link_index : link_table * link_table) : result ndarray :=
  let '(link_indexa, link_indexb) := link_index in
  let na := length link_indexa in
  let nb := length link_indexb in
  if decide (length (data fcivec) = (na * nb)%nat) then
    if decide (dtype_of fcivec = float64 ∧ dtype_of h1e = float64) then
      let ci0 := to_rows na nb (data fcivec) in
      let ci1 := mzeros na nb in
      let ci1 := one_body_pass_a (Z.to_nat norb) (data h1e) ci0 link_indexa ci1 in
      let ci1 := one_body_pass_b (Z.to_nat norb) (data h1e) ci0 link_indexb ci1 in
      Ok (mk_ndarray float64 (shape fcivec) (flatten ci1))
    else Raise AssertionError
  else Raise AssertionError.

(** *** Linear operators *)

(** [scipy.sparse.linalg.LinearOperator(shape, matvec, rmatvec, dtype)]. *)
Record LinearOperator (V : Type) : Type := mk_LinearOperator {
  lo_shape : Z * Z;
  lo_matvec : V;
  lo_rmatvec : V;
  lo_dtype : dtype
}.
Arguments mk_LinearOperator {V} _ _ _ _.
Arguments lo_shape {V} _.
Arguments lo_matvec {V} _.
Arguments lo_rmatvec {V} _.
Arguments lo_dtype {V} _.

(** [LinearOperator.matvec(x)] (scipy, external), for [x] of shape [(N,)] or
    [(N, 1)]: the wrapped function is called on [x] and its outcome is
    reshaped to [(M,)] or [(M, 1)]; any other shape is a [ValueError]
    (dimension mismatch). *)
Definition linop_matvec (A : LinearOperator (ndarray → result ndarray)) (x : ndarray)
  : result ndarray :=
  let '(M, N) := lo_shape A in
  if decide (shape x = [Z.to_nat N] ∨ shape x = [Z.to_nat N; 1%nat]) then
    y ← lo_matvec A x;
    let new_shape := match shape x with
                     | [_] => [Z.to_nat M]
                     | _ => [Z.to_nat M; 1%nat]
                     end in
    if decide (length (data y) = Z.to_nat M)
    then Ok (mk_ndarray (dtype_of y) new_shape (data y))
    else Raise ValueError
  else Raise ValueError.

(** [np.hstack] of columns of shape [(M, 1)]: an [(M, k)] array of the
    promoted dtype; an empty list of columns is a [ValueError]. *)
Definition hstack_columns (M : nat) (cols : list ndarray) : result ndarray :=
  match cols with
  | [] => Raise ValueError
  | _ =>
      Ok (mk_ndarray (foldr result_type float64 (dtype_of <$> cols)) [M; length cols]
            (flatten ((λ i, (λ y, data y !!! i) <$> cols) <$> seq 0 M)))
  end.

(** [LinearOperator.matmat(X)] for an operator that wraps a matvec only:
    [np.hstack([self.matvec(col.reshape(-1, 1)) for col in X.T])]. *)
Definition linop_matmat (A : LinearOperator (ndarray → result ndarray)) (X : ndarray)
  : result ndarray :=
  let '(M, N) := lo_shape A in
  match shape X with
  | [r; c] =>
      if decide (r = Z.to_nat N) then
        cols ← mapM (λ j,
                  linop_matvec A
                    (mk_ndarray (dtype_of X) [r; 1%nat]
                       ((λ i, data X !!! (i * c + j)%nat) <$> seq 0 r)))
                  (seq 0 c);
        hstack_columns (Z.to_nat M) cols
      else Raise ValueError
  | _ => Raise ValueError
  end.

(** [linop @ x]: a one-dimensional [x] and a single column go to [matvec],
    any other two-dimensional [x] to [matmat]; other ranks are a
    [ValueError]. *)
Definition linop_apply (A : LinearOperator (ndarray → result ndarray)) (x : ndarray)
  : result ndarray :=
  match shape x with
  | [_] | [_; 1%nat] => linop_matvec A x
  | [_; _] => linop_matmat A x
  | _ => Raise ValueError
  end.

(** ** Arrays as objects: buffers, views and in-place kernels *)

(** The routines that hand an output buffer to a compiled kernel are
    modelled over a store of buffers, so that aliasing ([mat_alpha_beta = mat],
    [out.T]) and mutation are explicit.  A buffer holds a dtype and flat data;
    a view names a buffer and says how it is indexed. *)
Definition loc : Type := nat.

Record buffer : Type := mk_buffer {
  buf_dtype : dtype;
  buf_data : list C
}.

#[global] Instance buffer_inhabited : Inhabited buffer := populate (mk_buffer float64 []).

Abbreviation store := (gmap loc buffer).

(** One-dimensional, or two-dimensional of shape [(r, c)]; a transposed
    two-dimensional view indexes a buffer laid out as [(c, r)]. *)
Inductive layout : Type :=
  | Flat (n : nat)
  | Mat (r c : nat) (transposed : bool).

#[global] Instance layout_eq_dec : EqDecision layout.
Proof. solve_decision. Defined.

Record view : Type := mk_view {
  base : loc;
  lay : layout
}.

Definition layout_size (l : layout) : nat :=
  match l with
  | Flat n => n
  | Mat r c _ => (r * c)%nat
  end.

(** State and exceptions: a call returns or raises, and leaves a store
    behind either way. *)
Definition M (A : Type) : Type := store → result A * store.

#[global] Instance M_ret : MRet M := λ A a σ, (Ok a, σ).
#[global] Instance M_bind : MBind M := λ A B f m σ,
  match m σ with
  | (Ok a, σ') => f a σ'
  | (Raise e, σ') => (Raise e, σ')
  end.

Definition lift {A} (r : result A) : M A := λ σ, (r, σ).
Definition raise {A} (e : exn) : M A := λ σ, (Raise e, σ).

Definition load (l : loc) : M buffer := λ σ, (Ok (σ !!! l), σ).
Definition alloc (b : buffer) : M loc := λ σ,
  let l := fresh (dom σ) in (Ok l, <[l := b]> σ).
Definition write_data (l : loc) (d : list C) : M unit := λ σ,
  (Ok (), <[l := mk_buffer (buf_dtype (σ !!! l)) d]> σ).

(** The elements of a view in C order. *)
Definition view_data (lay : layout) (d : list C) : list C :=
  match lay with
  | Mat r c true => flatten (transpose c r (to_rows c r d))
  | _ => d
  end.

(** A two-dimensional view as rows, and the buffer that holds given rows. *)
Definition view_rows (lay : layout) (d : list C) : result matrix :=
  match lay with
  | Flat _ => Raise TypeError
  | Mat r c false => Ok (to_rows r c d)
  | Mat r c true => Ok (transpose c r (to_rows c r d))
  end.
Definition rows_data (lay : layout) (m : matrix) : list C :=
  match lay with
  | Mat r c true => flatten (transpose r c m)
  | _ => flatten m
  end.

Definition read_matrix (v : view) : M matrix :=
  b ← load (base v); lift (view_rows (lay v) (buf_data b)).
Definition write_matrix (v : view) (m : matrix) : M unit :=
  write_data (base v) (rows_data (lay v) m).
Definition read_flat (v : view) : M (list C) :=
  b ← load (base v); mret (view_data (lay v) (buf_data b)).
Definition dtype_of_view (v : view) : M dtype :=
  b ← load (base v); mret (buf_dtype b).

(** [v.reshape(shape)]: a view of the same buffer when [v] is C-contiguous,
    a copy otherwise; [ValueError] when the sizes differ. *)
Definition reshape (v : view) (new : layout) : M view :=
  if decide (layout_size (lay v) = layout_size new) then
    match lay v with
    | Mat _ _ true =>
        b ← load (base v);
        l ← alloc (mk_buffer (buf_dtype b) (view_data (lay v) (buf_data b)));
        mret (mk_view l new)
    | _ => mret (mk_view (base v) new)
    end
  else raise ValueError.

(** [v.T]. *)
Definition view_T (v : view) : view :=
  match lay v with
  | Flat n => v
  | Mat r c t => mk_view (base v) (Mat c r (negb t))
  end.

(** [np.zeros_like(v)]: a new buffer of the dtype and layout of [v]. *)
Definition zeros_like (v : view) : M view :=
  b ← load (base v);
  l ← alloc (mk_buffer (buf_dtype b) (replicate (layout_size (lay v)) C0));
  mret (mk_view l (lay v)).

(** [v.copy()]: a new C-ordered buffer with the elements of [v]. *)
Definition copy (v : view) : M view :=
  b ← load (base v);
  l ← alloc (mk_buffer (buf_dtype b) (view_data (lay v) (buf_data b)));
  mret (mk_view l (match lay v with Mat r c _ => Mat r c false | Flat n => Flat n end)).

(** [m[np.diag_indices(norb)] *= 0.5]. *)
Definition halve_diag (n : nat) (m : matrix) : matrix :=
  imap (λ i row, if decide (i < n)%nat then alter (Cmul Chalf) i row else row) m.

Definition imul_diag_half (v : view) (norb : Z) : M unit :=
  match lay v with
  | Flat _ => raise IndexError
  | Mat r c _ =>
      if decide (norb ≤ Z.of_nat r ∧ norb ≤ Z.of_nat c) then
        m ← read_matrix v;
        write_matrix v (halve_diag (Z.to_nat norb) m)
      else raise IndexError
  end.

(** *** The compiled kernels *)

Definition mat_at (m : matrix) (i j : nat) : C := (m !!! i) !!! j.

(** Modelled from the spec: the kernel
    [ffsim._ffsim.contract_num_op_sum_spin_into_buffer], whose source is not
    among the files.  A diagonal scaling that uses the occupation list only:
    row [i] of [out] receives row [i] of [vec] times the sum of the
    coefficients of the orbitals occupied at address [i]. *)
Definition num_op_coeff (coeffs : list C) (orbs : list nat) : C :=
  Csum ((λ orb, coeffs !!! orb) <$> orbs).

Definition num_op_sum_spin (vec : matrix) (coeffs : list C)
    (occupations : list (list nat)) (out : matrix) : matrix :=
  imap (λ i orow,
    imap (λ j o, o + num_op_coeff coeffs (occupations !!! i) * mat_at vec i j)%C orow)
    out.

Definition contract_num_op_sum_spin_into_buffer (vec coeffs : view)
    (occupations : list (list nat)) (out : view) : M unit :=
  v ← read_matrix vec;
  c ← read_flat coeffs;
  o ← read_matrix out;
  write_matrix out (num_op_sum_spin v c occupations o).

(** Modelled from the spec: the kernel
    [ffsim._ffsim.contract_diag_coulomb_into_buffer], whose source is not
    among the files.  Each amplitude is scaled on its own by the eigenvalue
    of its determinant: the same-spin sum counts every unordered pair of
    occupied orbitals once, the diagonal pair [(p, p)] included (this is why
    the caller halves the diagonal first), and the cross-spin sum runs over
    alpha-beta pairs. *)
Fixpoint pair_sum (mat : matrix) (orbs : list nat) : C :=
  match orbs with
  | [] => C0
  | p :: rest =>
      (mat_at mat p p + Csum ((λ q, mat_at mat p q) <$> rest) + pair_sum mat rest)%C
  end.

Definition cross_sum (mat : matrix) (orbs_a orbs_b : list nat) : C :=
  Csum ((λ p, Csum ((λ q, mat_at mat p q) <$> orbs_b)) <$> orbs_a).

Definition diag_coulomb_coeff (mat mat_alpha_beta : matrix) (orbs_a orbs_b : list nat) : C :=
  (pair_sum mat orbs_a + pair_sum mat orbs_b + cross_sum mat_alpha_beta orbs_a orbs_b)%C.

Definition diag_coulomb (vec mat mat_alpha_beta : matrix)
    (occupations_a occupations_b : list (list nat)) (out : matrix) : matrix :=
  imap (λ ia orow,
    imap (λ ib o,
      o + diag_coulomb_coeff mat mat_alpha_beta (occupations_a !!! ia) (occupations_b !!! ib)
          * mat_at vec ia ib)%C orow)
    out.

Definition contract_diag_coulomb_into_buffer (vec mat : view) (norb : Z)
    (mat_alpha_beta : view) (occupations_a occupations_b : list (list nat))
    (out : view) : M unit :=
  v ← read_matrix vec;
  m ← read_matrix mat;
  mab ← read_matrix mat_alpha_beta;
  o ← read_matrix out;
  write_matrix out (diag_coulomb v m mab occupations_a occupations_b o).

(** [linop @ x] for an operator over views. *)
Definition linop_apply_view (A : LinearOperator (view → M view)) (x : view) : M view :=
  let '(Mr, N) := lo_shape A in
  if decide (lay x = Flat (Z.to_nat N)) then
    y ← lo_matvec A x;
    reshape y (Flat (Z.to_nat Mr))
  else raise ValueError.

Section fci.

(** External collaborators (pyscf), taken as given:
    [cistring.gen_linkstr_index(range(norb), nocc)],
    [cistring._gen_occslst(range(norb), nocc)] and
    [direct_nosym.absorb_h1e(h1e, eri, norb, nelec, 0.5)]. *)
Variable gen_linkstr_index : Z → Z → result link_table.
Variable gen_occslst : Z → Z → result (list (list nat)).
Variable absorb_h1e : ndarray → ndarray → Z → Z * Z → result ndarray.

(** fci.py, [contract_2e], lines 33-37: the two particle numbers. *)
Definition split_nelec (nelec : nelec_arg) : Z * Z :=
  match nelec with
  | NelecInt n =>
      let nelecb := n `div` 2 in
      let neleca := n - nelecb in
      (neleca, nelecb)
  | NelecPair neleca nelecb => (neleca, nelecb)
  end.

(** First pass, alpha strings: [t1[a, i, str1] += sign * ci0[str0]]. *)
Definition t1_pass_a (dt : dtype) (ci0 : matrix) (link_indexa : link_table)
    (t1 : list (list matrix)) : result (list (list matrix)) :=
  for_each (enumerate link_indexa) (λ t1 '(str0, tab),
    for_each tab (λ t1 '(a, i, str1, sign),
      row ← get_row ci0 str0;
      blk ← get_block t1 a i;
      blk' ← iadd_row dt dt blk str1 (vscale (ZtoC sign) row);
      Ok (set_block t1 a i blk')) t1) t1.

(** First pass, beta strings: [t1[a, i, :, str1] += sign * ci0[:, str0]]. *)
Definition t1_pass_b (dt : dtype) (nb : nat) (ci0 : matrix) (link_indexb : link_table)
    (t1 : list (list matrix)) : result (list (list matrix)) :=
  for_each (enumerate link_indexb) (λ t1 '(str0, tab),
    for_each tab (λ t1 '(a, i, str1, sign),
      col ← get_col nb ci0 str0;
      blk ← get_block t1 a i;
      blk' ← iadd_col dt dt nb blk str1 (vscale (ZtoC sign) col);
      Ok (set_block t1 a i blk')) t1) t1.

(** Second pass, alpha strings: [fcinew[str1] += sign * t1[a, i, str0]]. *)
Definition fcinew_pass_a (dt dt1 : dtype) (t1 : list (list matrix))
    (link_indexa : link_table) (fcinew : matrix) : result matrix :=
  for_each (enumerate link_indexa) (λ fcinew '(str0, tab),
    for_each tab (λ fcinew '(a, i, str1, sign),
      blk ← get_block t1 a i;
      row ← get_row blk str0;
      iadd_row dt dt1 fcinew str1 (vscale (ZtoC sign) row)) fcinew) fcinew.

(** Second pass, beta strings: [fcinew[:, str1] += sign * t1[a, i, :, str0]]. *)
Definition fcinew_pass_b (dt dt1 : dtype) (nb : nat) (t1 : list (list matrix))
    (link_indexb : link_table) (fcinew : matrix) : result matrix :=
  for_each (enumerate link_indexb) (λ fcinew '(str0, tab),
    for_each tab (λ fcinew '(a, i, str1, sign),
      blk ← get_block t1 a i;
      col ← get_col nb blk str0;
      iadd_col dt dt1 nb fcinew str1 (vscale (ZtoC sign) col)) fcinew) fcinew.

(** fci.py, [contract_2e], lines 38-42: the cached tables, or fresh ones. *)
Definition unpack_link_index (norb neleca nelecb : Z)
    (link_index : option (link_table * link_table))
  : result (link_table * link_table) :=
  match link_index with
  | None =>
      link_indexa ← gen_linkstr_index norb neleca;
      link_indexb ← gen_linkstr_index norb nelecb;
      Ok (link_indexa, link_indexb)
  | Some li => Ok li
  end.

(** fci.py, [contract_2e]: [E_{pq} E_{rs} |CI>]. *)
Definition contract_2e (eri fcivec : ndarray) (norb : Z) (nelec : nelec_arg)
    (link_index : option (link_table * link_table)) : result ndarray :=
  let '(neleca, nelecb) := split_nelec nelec in
  '(link_indexa, link_indexb) ← unpack_link_index norb neleca nelecb link_index;
  let na := Z.to_nat (num_strings norb neleca) in
  let nb := Z.to_nat (num_strings norb nelecb) in
  let dt := dtype_of fcivec in
  ci0 ← reshape2 (data fcivec) na nb;
  n ← extent norb;
  let t1 := replicate n (replicate n (mzeros na nb)) in
  t1 ← t1_pass_a dt ci0 link_indexa t1;
  t1 ← t1_pass_b dt nb ci0 link_indexb t1;
  eri4 ← (if decide (length (data eri) = (n * n * n * n)%nat)
          then Ok (data eri) else Raise ValueError);
  let dt1 := result_type (dtype_of eri) dt in
  let t1 := einsum_bjai n na nb eri4 t1 in
  let fcinew := mzeros na nb in
  fcinew ← fcinew_pass_a dt dt1 t1 link_indexa fcinew;
  fcinew ← fcinew_pass_b dt dt1 nb t1 link_indexb fcinew;
  Ok (mk_ndarray dt (shape fcivec) (flatten fcinew)).

(** fci.py, [get_hamiltonian_linop]. *)
Definition get_hamiltonian_linop (one_body_tensor two_body_tensor : ndarray)
    (norb : Z) (nelec : Z * Z)
  : result (LinearOperator (ndarray → result ndarray)) :=
  let '(n_alpha, n_beta) := nelec in
  linkstr_index_a ← gen_linkstr_index norb n_alpha;
  linkstr_index_b ← gen_linkstr_index norb n_beta;
  let link_index := (linkstr_index_a, linkstr_index_b) in
  two_body ← absorb_h1e one_body_tensor two_body_tensor norb nelec;
  dim ← get_dimension norb nelec;
  let matvec := λ vec,
    contract_2e two_body vec norb (NelecPair n_alpha n_beta) (Some link_index) in
  Ok (mk_LinearOperator (dim, dim) matvec matvec (dtype_of one_body_tensor)).

(** fci.py, [one_body_tensor_to_linop], the body shared by [matvec] and
    [rmatvec]: four real contractions recombined. *)
Definition one_body_matvec (one_body_tensor : ndarray) (norb : Z)
    (link_index : link_table * link_table) (vec : ndarray) : result ndarray :=
  r ← contract_1e (array_real one_body_tensor) (array_real vec) norb link_index;
  let result := astype complex128 r in
  r ← contract_1e (array_imag one_body_tensor) (array_real vec) norb link_index;
  result ← iadd result (scalar_mul complex128 Ci r);
  r ← contract_1e (array_real one_body_tensor) (array_imag vec) norb link_index;
  result ← iadd result (scalar_mul complex128 Ci r);
  r ← contract_1e (array_imag one_body_tensor) (array_imag vec) norb link_index;
  result ← isub result r;
  Ok result.

Definition one_body_tensor_to_linop (one_body_tensor : ndarray) (norb : Z)
    (nelec : Z * Z) : result (LinearOperator (ndarray → result ndarray)) :=
  dim ← get_dimension norb nelec;
  let '(n_alpha, n_beta) := nelec in
  linkstr_index_a ← gen_linkstr_index norb n_alpha;
  linkstr_index_b ← gen_linkstr_index norb n_beta;
  let link_index := (linkstr_index_a, linkstr_index_b) in
  let matvec := λ vec, one_body_matvec one_body_tensor norb link_index vec in
  let rmatvec := λ vec,
    let one_body_tensor_H := array_conj (array_T one_body_tensor) in
    one_body_matvec one_body_tensor_H norb link_index vec in
  Ok (mk_LinearOperator (dim, dim) matvec rmatvec complex128).

Definition occupations_or (given : option (list (list nat))) (norb nocc : Z)
  : M (list (list nat)) :=
  match given with
  | None => lift (gen_occslst norb nocc)
  | Some occ => mret occ
  end.

(** fci.py, [contract_num_op_sum]. *)
Definition contract_num_op_sum (vec coeffs : view) (norb : Z) (nelec : Z * Z)
    (occupations_a occupations_b : option (list (list nat))) : M view :=
  let '(n_alpha, n_beta) := nelec in
  occupations_a ← occupations_or occupations_a norb n_alpha;
  occupations_b ← occupations_or occupations_b norb n_beta;
  dim_a ← lift (comb norb n_alpha);
  dim_b ← lift (comb norb n_beta);
  vec ← reshape vec (Mat (Z.to_nat dim_a) (Z.to_nat dim_b) false);
  out ← zeros_like vec;
  (* apply alpha *)
  _ ← contract_num_op_sum_spin_into_buffer vec coeffs occupations_a out;
  (* apply beta *)
  let vec := view_T vec in
  let out := view_T out in
  _ ← contract_num_op_sum_spin_into_buffer vec coeffs occupations_b out;
  let out_T := view_T out in
  reshape out_T (Flat (layout_size (lay out_T))).

(** fci.py, [num_op_sum_to_linop]. *)
Definition num_op_sum_to_linop (coeffs : view) (norb : Z) (nelec : Z * Z)
  : M (LinearOperator (view → M view)) :=
  let '(n_alpha, n_beta) := nelec in
  dim ← lift (get_dimension norb nelec);
  occupations_a ← lift (gen_occslst norb n_alpha);
  occupations_b ← lift (gen_occslst norb n_beta);
  let matvec := λ vec,
    contract_num_op_sum vec coeffs norb nelec (Some occupations_a) (Some occupations_b) in
  dt ← dtype_of_view coeffs;
  mret (mk_LinearOperator (dim, dim) matvec matvec dt).

(** fci.py, [contract_diag_coulomb]. *)
Definition contract_diag_coulomb (vec mat : view) (norb : Z) (nelec : Z * Z)
    (mat_alpha_beta : option view)
    (occupations_a occupations_b : option (list (list nat))) : M view :=
  let mat_alpha_beta := default mat mat_alpha_beta in
  let '(n_alpha, n_beta) := nelec in
  dim_a ← lift (comb norb n_alpha);
  dim_b ← lift (comb norb n_beta);
  occupations_a ← occupations_or occupations_a norb n_alpha;
  occupations_b ← occupations_or occupations_b norb n_beta;
  mat ← copy mat;
  _ ← imul_diag_half mat norb;
  vec ← reshape vec (Mat (Z.to_nat dim_a) (Z.to_nat dim_b) false);
  out ← zeros_like vec;
  _ ← contract_diag_coulomb_into_buffer vec mat norb mat_alpha_beta
        occupations_a occupations_b out;
  reshape out (Flat (layout_size (lay out))).

(** fci.py, [diag_coulomb_to_linop]. *)
Definition diag_coulomb_to_linop (mat : view) (norb : Z) (nelec : Z * Z)
    (mat_alpha_beta : option view) : M (LinearOperator (view → M view)) :=
  let '(n_alpha, n_beta) := nelec in
  dim ← lift (get_dimension norb nelec);
  occupations_a ← lift (gen_occslst norb n_alpha);
  occupations_b ← lift (gen_occslst norb n_beta);
  let matvec := λ vec,
    contract_diag_coulomb vec mat norb nelec mat_alpha_beta
      (Some occupations_a) (Some occupations_b) in
  dt ← dtype_of_view mat;
  mret (mk_LinearOperator (dim, dim) matvec matvec dt).

End fci.

(** ** Well-formedness of inputs and loop invariants *)

(** A link table for [n] orbitals and [ns] strings: one row per address, all
    orbitals and destination addresses in range. *)
Definition wf_link_entry (n ns : nat) (e : link_entry) : Prop :=
  let '(a, i, str1, _) := e in (a < n ∧ i < n ∧ str1 < ns)%nat.
Definition wf_link (n ns : nat) (link : link_table) : Prop :=
  (length link ≤ ns)%nat ∧ Forall (Forall (wf_link_entry n ns)) link.

(** The four-index intermediate [t1[a][i]] of shape [(n, n, na, nb)]. *)
Definition t1_shaped (n na nb : nat) (t1 : list (list matrix)) : Prop :=
  length t1 = n ∧ Forall (λ ta, length ta = n ∧ Forall (well_shaped na nb) ta) t1.

(** Specifications of store computations: from a store satisfying [P], the
    computation ends in [Q] when it returns and in [E] when it raises. *)
Definition triple {A : Type} (P : store → Prop) (m : M A)
    (Q : A → store → Prop) (E : store → Prop) : Prop :=
  ∀ σ, P σ →
    match m σ with
    | (Ok a, σ') => Q a σ'
    | (Raise _, σ') => E σ'
    end.

(** The buffers of [σ0] are all still there, with their contents. *)
Definition unchanged (σ0 σ : store) : Prop :=
  ∀ l b, σ0 !! l = Some b → σ !! l = Some b.

(** A view of a buffer that did not exist in [σ0]. *)
Definition fresh_in (σ0 : store) (v : view) : Prop := σ0 !! base v = None.

(** ** Reference quantities of the specification *)

(** The CI vector of a single determinant: amplitude one at address [k] of
    [n], zero elsewhere. *)
Definition basis_vector (n k : nat) : list C := <[k := C1]> (replicate n C0).

(** Every amplitude [(i, j)] multiplied by its own factor [f i j]. *)
Definition scale_entries (f : nat → nat → C) (v : matrix) : matrix :=
  imap (λ i row, imap (λ j x, (f i j * x)%C) row) v.

(** [sum over i in O of c[i]]. *)
Definition orbital_sum (c : list C) (O : list nat) : C :=
  Csum ((λ i, c !!! i) <$> O).

(** [sum over i in A, j in B of M[i, j]]. *)
Definition double_sum (M : matrix) (A B : list nat) : C :=
  Csum ((λ i, Csum ((λ j, mat_at M i j) <$> B)) <$> A).

(** The number-operator eigenvalue: the sum of [c[i]] over the occupied spin
    orbitals, those of the alpha sector and those of the beta sector. *)
Definition num_op_eigenvalue (c : list C) (O_alpha O_beta : list nat) : C :=
  (orbital_sum c O_alpha + orbital_sum c O_beta)%C.

(** The diagonal Coulomb eigenvalue of the specification:
    [0.5 sum_{i,j in O_alpha} M[i,j] + 0.5 sum_{i,j in O_beta} M[i,j]
     + sum_{i in O_alpha, j in O_beta} M'[i,j]]. *)
Definition diag_coulomb_eigenvalue (M M' : matrix) (O_alpha O_beta : list nat) : C :=
  (Chalf * double_sum M O_alpha O_alpha + Chalf * double_sum M O_beta O_beta
   + double_sum M' O_alpha O_beta)%C.

Definition symmetric (n : nat) (M : matrix) : Prop :=
  ∀ i j, (i < n)%nat → (j < n)%nat → mat_at M i j = mat_at M j i.

(** An occupation list for [n] orbitals: distinct orbitals, all below [n]. *)
Definition wf_occupation (n : nat) (O : list nat) : Prop :=
  NoDup O ∧ Forall (λ p, (p < n)%nat) O.

(** The buffer behind a view has dtype [d]. *)
Definition has_dtype (d : dtype) (v : view) (σ : store) : Prop :=
  buf_dtype (σ !!! base v) = d.

(** No constraint on the store. *)
Abbreviation any := (λ _ : store, True).

(** The decomposition of the specification:
    [f(Re M, Re v) + i f(Im M, Re v) + i f(Re M, Im v) - f(Im M, Im v)]
    for a real primitive [f]. *)
Definition four_real_contractions (f : ndarray → ndarray → result ndarray)
    (M v : ndarray) : result ndarray :=
  rr ← f (array_real M) (array_real v);
  ir ← f (array_imag M) (array_real v);
  ri ← f (array_real M) (array_imag v);
  ii ← f (array_imag M) (array_imag v);
  Ok (mk_ndarray complex128 (shape rr)
        (vsub (vadd (vadd (data rr) (vscale Ci (data ir))) (vscale Ci (data ri)))
              (data ii))).

(** The conjugate transpose [M.T.conj()]. *)
Definition array_H (M : ndarray) : ndarray := array_conj (array_T M).

(** Five matrices of one shape, the first being the recombination
    [S1 + i S2 + i S3 - S4] of the others. *)
Definition recombined (r c : nat) (S S1 S2 S3 S4 : matrix) : Prop :=
  well_shaped r c S ∧ well_shaped r c S1 ∧ well_shaped r c S2
  ∧ well_shaped r c S3 ∧ well_shaped r c S4
  ∧ ∀ p q, (p < r)%nat → (q < c)%nat →
      mat_at S p q
      = (mat_at S1 p q + Ci * mat_at S2 p q + Ci * mat_at S3 p q - mat_at S4 p q)%C.

(** ** The expected values of the repository's tests *)

(** [occupied_orbitals[sigma]] for the pair [(alpha_orbitals, beta_orbitals)]. *)
Definition occupied (occupied_orbitals : list nat * list nat) (sigma : nat) : list nat :=
  if decide (sigma = 0)%nat then occupied_orbitals.1 else occupied_orbitals.2.

(** fci_test.py, [test_contract_diag_coulomb], lines 51-56: the eigenvalue
    the test expects, summed over all [(i, j)] and all [(sigma, tau)]. *)
Definition test_diag_coulomb_eig (norb : nat) (mat mat_alpha_beta : matrix)
    (occupied_orbitals : list nat * list nat) : C :=
  foldl (λ eig '(i, j),
    foldl (λ eig '(sigma, tau),
      if decide (i ∈ occupied occupied_orbitals sigma
                 ∧ j ∈ occupied occupied_orbitals tau)
      then
        let this_mat := if decide (sigma = tau) then mat else mat_alpha_beta in
        (eig + Chalf * mat_at this_mat i j)%C
      else eig) eig (list_prod (seq 0 2) (seq 0 2)))
    C0 (list_prod (seq 0 norb) (seq 0 norb)).

(** fci_test.py, [test_contract_num_op_sum], lines 115-119. *)
Definition test_num_op_eig (norb : nat) (coeffs : list C)
    (occupied_orbitals : list nat * list nat) : C :=
  foldl (λ eig i,
    foldl (λ eig sigma,
      if decide (i ∈ occupied occupied_orbitals sigma)
      then (eig + coeffs !!! i)%C else eig) eig (seq 0 2))
    C0 (seq 0 norb).

(** ** Orbital rotations: the arrays that are allocated *)

Section orbital_rotation.

(** External collaborators, taken as given:
    [cistring.gen_linkstr_index(range(norb), nocc)] (pyscf) and
    [np.empty(shape, dtype)] (numpy), which returns an uninitialised array or
    raises (a negative extent, an extent or a size beyond what the platform
    can address or allocate).  An array that is only allocated is
    represented by its shape. *)
Variable gen_linkstr_index : Z → Z → result link_table.
Variable np_empty : list Z → result (list nat).

(** fci.py, [gen_orbital_rotation_index], lines 316-325: the link table and
    the four arrays the function allocates before it hands them to the
    compiled routine [gen_orbital_rotation_index_in_place] (whose source is
    not among the files; what it writes is not modelled). *)
Definition gen_orbital_rotation_index_buffers (norb nocc : Z)
    (linkstr_index : option link_table)
  : result (link_table * (list nat * list nat * list nat * list nat)) :=
  linkstr_index ← match linkstr_index with
                  | None => gen_linkstr_index norb nocc
                  | Some linkstr_index => Ok linkstr_index
                  end;
  dim_diag ← comb (norb - 1) (nocc - 1);
  dim_off_diag ← comb (norb - 1) nocc;
  let dim := dim_diag + dim_off_diag in
  diag_strings ← np_empty [norb; dim_diag];
  off_diag_strings ← np_empty [norb; dim_off_diag];
  off_diag_index ← np_empty [norb; dim_off_diag; nocc; 3];
  off_diag_strings_index ← np_empty [norb; dim];
  Ok (linkstr_index,
      (diag_strings, off_diag_strings, off_diag_index, off_diag_strings_index)).

End orbital_rotation.

(** ** Linear combinations of intermediates *)

(** [t1[a, i]] by total lookup. *)
Definition blk_at (t : list (list matrix)) (a i : nat) : matrix := (t !!! a) !!! i.

(** Three matrices of one shape, the first being [c1 S1 + c2 S2]. *)
Definition combination (c1 c2 : C) (r c : nat) (S S1 S2 : matrix) : Prop :=
  well_shaped r c S ∧ well_shaped r c S1 ∧ well_shaped r c S2
  ∧ ∀ p q, (p < r)%nat → (q < c)%nat →
      mat_at S p q = (c1 * mat_at S1 p q + c2 * mat_at S2 p q)%C.

(** The same for three four-index intermediates, block by block. *)
Definition combination4 (c1 c2 : C) (n na nb : nat) (T T1 T2 : list (list matrix))
  : Prop :=
  t1_shaped n na nb T ∧ t1_shaped n na nb T1 ∧ t1_shaped n na nb T2
  ∧ ∀ a i, (a < n)%nat → (i < n)%nat →
      combination c1 c2 na nb (blk_at T a i) (blk_at T1 a i) (blk_at T2 a i).

(** The store holds a buffer at [l]. *)
Definition alive (l : loc) (σ : store) : Prop := is_Some (σ !! l).

(** * Properties *)

(** ** Binomial coefficients and [get_dimension] *)

Section binomial.
Local Open Scope nat_scope.

Lemma binom_gt n k : n < k → binom n k = 0.
Proof.
  revert k. induction n as [|n IH]; intros [|k] Hlt; simpl; try lia.
  rewrite !IH by lia. done.
Qed.

Lemma binom_diag n : binom n n = 1.
Proof. induction n as [|n IH]; simpl; [done|]. rewrite IH, binom_gt by lia. done. Qed.

(** The factorial form of Pascal's triangle. *)
Lemma binom_fact n k : k ≤ n → binom n k * (fact k * fact (n - k)) = fact n.
Proof.
  revert k. induction n as [|n IH]; intros [|k] Hle; simpl binom; try lia.
  - simpl. lia.
  - simpl (fact 0). replace (S n - 0) with (S n) by lia. lia.
  - destruct (decide (k = n)) as [->|Hne].
    + rewrite binom_diag, binom_gt by lia. replace (S n - S n) with 0 by lia.
      simpl (fact 0). lia.
    + assert (Hk : k ≤ n) by lia. assert (Hk' : S k ≤ n) by lia.
      pose proof (IH k Hk) as H1. pose proof (IH (S k) Hk') as H2.
      replace (S n - S k) with (n - k) by lia.
      replace (n - k) with (S (n - S k)) in * by lia.
      change (fact (S n)) with (S n * fact n).
      change (fact (S k)) with (S k * fact k) in *.
      change (fact (S (n - S k))) with (S (n - S k) * fact (n - S k)) in *.
      replace (S n) with (S k + S (n - S k)) at 3 by lia.
      nia.
Qed.

Lemma binom_sym n k : k ≤ n → binom n (n - k) = binom n k.
Proof.
  intros Hle. pose proof (binom_fact n k Hle) as H1.
  pose proof (binom_fact n (n - k) ltac:(lia)) as H2.
  replace (n - (n - k)) with k in H2 by lia.
  apply (Nat.mul_cancel_r _ _ (fact k * fact (n - k))).
- pose proof (fact_neq_0 k). pose proof (fact_neq_0 (n - k)). lia.
- rewrite H1, <- H2. lia.
Qed.
End binomial.

Lemma binom_step (n t : nat) :
  (S t ≤ n)%nat → (binom n (S t) * fact (S t) = binom n t * fact t * (n - t))%nat.
Proof.
  intros Hle.
  pose proof (binom_fact n t ltac:(lia)) as H1.
  pose proof (binom_fact n (S t) Hle) as H2.
  replace (n - t)%nat with (S (n - S t)) in * by lia.
  change (fact (S (n - S t))) with (S (n - S t) * fact (n - S t))%nat in H1.
  apply (Nat.mul_cancel_r _ _ (fact (n - S t))).
  - apply fact_neq_0.
  - rewrite <- Nat.mul_assoc, H2, <- H1. lia.
Qed.

(** The loop of [comb] keeps the falling product and the factorial. *)
Lemma comb_loop_spec (n t : nat) :
  (t ≤ n)%nat →
  comb_loop (Z.of_nat n + 1) (Z.of_nat t)
  = (Z.of_nat (binom n t * fact t), Z.of_nat (fact t)).
Proof.
  unfold comb_loop. induction t as [|t IH]; intros Hle; [by destruct n|].
  replace (Z.of_nat (S t)) with (Z.of_nat t + 1) by lia.
  rewrite seqZ_app by lia. rewrite fold_left_app, IH by lia.
  change (seqZ (1 + Z.of_nat t) 1) with [Z.of_nat 0 + (1 + Z.of_nat t)].
  cbn [fold_left]. f_equal.
  - rewrite binom_step by lia. rewrite !Nat2Z.inj_mul, Nat2Z.inj_sub by lia. lia.
  - change (fact (S t)) with (S t * fact t)%nat. lia.
Qed.

Lemma comb_binom (n k : nat) :
  comb (Z.of_nat n) (Z.of_nat k) = Ok (Z.of_nat (binom n k)).
Proof.
  unfold comb. case_bool_decide as Hout.
  - rewrite binom_gt by lia. done.
  - assert (Hle : (k ≤ n)%nat) by lia.
    set (t := Nat.min k (n - k)).
    replace (Z.min (Z.of_nat k) (Z.of_nat n - Z.of_nat k)) with (Z.of_nat t) by lia.
    rewrite comb_loop_spec by lia. f_equal.
    rewrite Nat2Z.inj_mul, Z.div_mul by (pose proof (fact_neq_0 t); lia).
    f_equal. subst t. destruct (Nat.min_spec k (n - k)) as [[_ ->]|[_ ->]]; [done|].
    by apply binom_sym.
Qed.

Lemma comb_out_of_range (N k : Z) : k < 0 ∨ k > N → comb N k = Ok 0.
Proof. intros H. unfold comb. rewrite bool_decide_eq_true_2 by lia. done. Qed.

Lemma comb_nat (N k : Z) :
  0 ≤ k ≤ N → comb N k = Ok (Z.of_nat (binom (Z.to_nat N) (Z.to_nat k))).
Proof.
  intros H. rewrite <- (Z2Nat.id N), <- (Z2Nat.id k) at 1 by lia. apply comb_binom.
Qed.

(** [comb] never raises and never returns a negative number. *)
Lemma comb_returns (N k : Z) : ∃ d, comb N k = Ok d ∧ 0 ≤ d.
Proof.
  destruct (decide (0 ≤ k ≤ N)) as [Hin|Hout].
  - eexists. split; [by apply comb_nat|lia].
  - exists 0. split; [apply comb_out_of_range; lia|done].
Qed.

(** C5. For [0 <= n_alpha <= norb] and [0 <= n_beta <= norb], [get_dimension]
    returns exactly the product of binomial coefficients
    [C(norb, n_alpha) * C(norb, n_beta)], as an unbounded integer. *)
Theorem get_dimension_binomial (norb n_alpha n_beta : Z) :
  0 ≤ n_alpha ≤ norb → 0 ≤ n_beta ≤ norb →
  get_dimension norb (n_alpha, n_beta)
  = Ok (Z.of_nat (binom (Z.to_nat norb) (Z.to_nat n_alpha)
                  * binom (Z.to_nat norb) (Z.to_nat n_beta))).
Proof.
  intros Ha Hb. unfold get_dimension.
  rewrite (comb_nat _ _ Ha), (comb_nat _ _ Hb). simpl. f_equal. lia.
Qed.

Lemma get_dimension_binomial_witness :
  get_dimension 4 (2, 2) = Ok 36.
Proof. apply (get_dimension_binomial 4 2 2); lia. Defined.

(** C6, as stated, fails: with three particles on two orbitals
    [get_dimension] returns 0 and raises nothing. *)
Lemma get_dimension_out_of_range_returns :
  (3 < 0 ∨ 3 > 2) ∧ get_dimension 2 (3, 1) = Ok 0 ∧ ¬ raises (get_dimension 2 (3, 1)).
Proof.
  split; [lia|]. split; [reflexivity|]. intros [e He]. vm_compute in He. discriminate.
Qed.

(** C6, amended. [get_dimension] validates nothing: when a sector particle
    count is negative or exceeds [norb] it returns 0. *)
Theorem get_dimension_out_of_range_zero (norb n_alpha n_beta : Z) :
  (n_alpha < 0 ∨ n_alpha > norb) ∨ (n_beta < 0 ∨ n_beta > norb) →
  get_dimension norb (n_alpha, n_beta) = Ok 0.
Proof.
  intros H. unfold get_dimension.
  destruct (comb_returns norb n_alpha) as (da & Ha & _).
  destruct (comb_returns norb n_beta) as (db & Hb & _).
  destruct H as [H|H].
  - rewrite (comb_out_of_range _ _ H), Hb. simpl. f_equal.
  - rewrite Ha, (comb_out_of_range _ _ H). simpl. f_equal. lia.
Qed.

Lemma get_dimension_out_of_range_zero_witness :
  get_dimension 2 (-1, 1) = Ok 0.
Proof. apply (get_dimension_out_of_range_zero 2 (-1) 1). left. left. lia. Defined.

(** ** [contract_2e]: the particle-number argument *)

Section contract_2e_nelec.
Variable gen_linkstr_index : Z → Z → result link_table.

(** C4. A single total-particle integer [n] is split as
    [n_beta = floor(n/2)], [n_alpha = n - n_beta], and the call then computes
    what it computes for the pair [(n - floor(n/2), floor(n/2))]. *)
Theorem contract_2e_int_nelec (eri fcivec : ndarray) (norb n : Z)
    (link_index : option (link_table * link_table)) :
  let nelecb := n `div` 2 in
  (2 * nelecb ≤ n < 2 * nelecb + 2)
  ∧ split_nelec (NelecInt n) = (n - nelecb, nelecb)
  ∧ contract_2e gen_linkstr_index eri fcivec norb (NelecInt n) link_index
    = contract_2e gen_linkstr_index eri fcivec norb
        (NelecPair (n - nelecb) nelecb) link_index.
Proof.
  intros nelecb. split; [|split; reflexivity].
  subst nelecb. pose proof (Z.div_mod n 2 ltac:(lia)).
  pose proof (Z.mod_pos_bound n 2 ltac:(lia)). lia.
Qed.

End contract_2e_nelec.

(** ** Complex arithmetic *)

Lemma C_eq (x y : C) : Re x = Re y → Im x = Im y → x = y.
Proof. destruct x, y; simpl; intros -> ->; reflexivity. Qed.

Ltac C_arith :=
  intros; apply C_eq; simpl; lra.

Lemma Cadd_0_l x : (C0 + x)%C = x.
Proof. C_arith. Qed.
Lemma Cadd_0_r x : (x + C0)%C = x.
Proof. C_arith. Qed.
Lemma Cadd_comm x y : (x + y)%C = (y + x)%C.
Proof. C_arith. Qed.
Lemma Cadd_assoc x y z : (x + (y + z))%C = (x + y + z)%C.
Proof. C_arith. Qed.
Lemma Cmul_0_l x : (C0 * x)%C = C0.
Proof. C_arith. Qed.
Lemma Cmul_0_r x : (x * C0)%C = C0.
Proof. C_arith. Qed.
Lemma Cmul_1_l x : (C1 * x)%C = x.
Proof. C_arith. Qed.
Lemma Cmul_comm x y : (x * y)%C = (y * x)%C.
Proof. C_arith. Qed.
Lemma Cmul_assoc x y z : (x * (y * z))%C = (x * y * z)%C.
Proof. C_arith. Qed.
Lemma Cmul_add_distr_r x y z : ((x + y) * z)%C = (x * z + y * z)%C.
Proof. C_arith. Qed.
Lemma Csub_def x y : (x - y)%C = (x + - y)%C.
Proof. C_arith. Qed.
Lemma Cadd_opp_r x : (x + - x)%C = C0.
Proof. C_arith. Qed.

Lemma C_ring_theory : ring_theory C0 C1 Cadd Cmul Csub Copp eq.
Proof.
  constructor.
  - exact Cadd_0_l.
  - exact Cadd_comm.
  - exact Cadd_assoc.
  - exact Cmul_1_l.
  - exact Cmul_comm.
  - exact Cmul_assoc.
  - exact Cmul_add_distr_r.
  - exact Csub_def.
  - exact Cadd_opp_r.
Qed.

Add Ring C_ring : C_ring_theory.

(** ** Vectors and matrices *)

Lemma length_vadd u v : length (vadd u v) = Nat.min (length u) (length v).
Proof. apply length_zip_with. Qed.

Lemma length_vscale c v : length (vscale c v) = length v.
Proof. apply length_fmap. Qed.

Lemma vscale_zeros c n : vscale c (replicate n C0) = replicate n C0.
Proof. unfold vscale. rewrite fmap_replicate, Cmul_0_r. done. Qed.

Lemma vscale_0 v : vscale C0 v = replicate (length v) C0.
Proof.
  unfold vscale. induction v as [|x v IH]; [done|].
  rewrite fmap_cons. cbn [length replicate]. by rewrite Cmul_0_l, IH.
Qed.

Lemma vadd_zeros_r v n : length v = n → vadd v (replicate n C0) = v.
Proof.
  intros <-. unfold vadd. induction v as [|x v IH]; [done|].
  cbn [length replicate zip_with]. by rewrite Cadd_0_r, IH.
Qed.

Lemma length_to_rows r c l : length (to_rows r c l) = r.
Proof. unfold to_rows. by rewrite length_fmap, length_seq. Qed.

Lemma to_rows_well_shaped r c l :
  length l = (r * c)%nat → well_shaped r c (to_rows r c l).
Proof.
  intros Hl. split; [apply length_to_rows|].
  unfold to_rows. apply Forall_fmap, Forall_forall. intros i Hi.
  apply elem_of_seq in Hi. simpl.
  rewrite length_take, length_drop. nia.
Qed.

Lemma mzeros_well_shaped r c : well_shaped r c (mzeros r c).
Proof.
  split; [apply length_replicate|]. apply Forall_replicate, length_replicate.
Qed.

Lemma flatten_mzeros r c : flatten (mzeros r c) = replicate (r * c) C0.
Proof.
  unfold flatten, mzeros. induction r as [|r IH]; simpl; [done|].
  by rewrite IH, replicate_add.
Qed.

Lemma madd_mzeros_r r c m : well_shaped r c m → madd m (mzeros r c) = m.
Proof.
  intros [Hlen Hrows]. unfold madd, mzeros. subst r.
  induction Hrows as [|row m Hrow _ IH]; [done|].
  cbn [length replicate zip_with]. by rewrite vadd_zeros_r, IH.
Qed.

Lemma mscale_0 r c m : well_shaped r c m → mscale C0 m = mzeros r c.
Proof.
  intros [Hlen Hrows]. unfold mscale, mzeros. subst r.
  induction Hrows as [|row m Hrow _ IH]; [done|].
  rewrite fmap_cons. cbn [length replicate]. by rewrite vscale_0, Hrow, IH.
Qed.

(** ** Loops *)

(** A loop whose body keeps an invariant on every element it meets runs to
    the end and keeps it. *)
Lemma for_each_inv {A S : Type} (P : S → Prop) (Q : A → Prop)
    (l : list A) (body : S → A → result S) (s : S) :
  P s → Forall Q l →
  (∀ s x, P s → Q x → ∃ s', body s x = Ok s' ∧ P s') →
  ∃ s', for_each l body s = Ok s' ∧ P s'.
Proof.
  intros Hs Hl Hbody. revert s Hs.
  induction Hl as [|x l Hx _ IH]; intros s Hs; simpl; [eauto|].
  destruct (Hbody s x Hs Hx) as (s1 & -> & Hs1). simpl. by apply IH.
Qed.

Lemma Forall_enumerate {A : Type} (Q : A → Prop) (l : list A) :
  Forall Q l → Forall (λ p, (p.1 < length l)%nat ∧ Q p.2) (enumerate l).
Proof.
  intros Hl. apply Forall_forall. intros [i x] Hin.
  unfold enumerate in Hin. apply elem_of_lookup_imap in Hin as (j & y & Heq & Hj).
  simplify_eq. simpl. split; [by eapply lookup_lt_Some|].
  eapply Forall_lookup_1; eauto.
Qed.

(** ** [contract_2e] with a tensor of zeros *)

Lemma get_row_ok r c (m : matrix) i :
  well_shaped r c m → (i < r)%nat → ∃ row, get_row m i = Ok row ∧ length row = c.
Proof.
  intros [Hlen Hrows] Hi. unfold get_row.
  destruct (m !! i) as [row|] eqn:E.
  - exists row. split; [done|]. eapply Forall_lookup_1 in Hrows; eauto.
  - apply lookup_ge_None in E. lia.
Qed.

Lemma get_block_ok n na nb t1 a i :
  t1_shaped n na nb t1 → (a < n)%nat → (i < n)%nat →
  ∃ blk, get_block t1 a i = Ok blk ∧ well_shaped na nb blk.
Proof.
  intros [Hlen Hall] Ha Hi. unfold get_block.
  destruct (t1 !! a) as [ta|] eqn:Ea; [|apply lookup_ge_None in Ea; lia].
  eapply Forall_lookup_1 in Hall as [Hta Hblks]; [|done].
  destruct (ta !! i) as [blk|] eqn:Ei; [|apply lookup_ge_None in Ei; lia].
  exists blk. split; [done|]. eapply Forall_lookup_1 in Hblks; eauto.
Qed.

Lemma set_block_shaped n na nb t1 a i blk :
  t1_shaped n na nb t1 → well_shaped na nb blk →
  t1_shaped n na nb (set_block t1 a i blk).
Proof.
  intros [Hlen Hall] Hblk. unfold set_block. split; [by rewrite length_alter|].
  apply Forall_alter; [done|]. intros ta Hta.
  eapply Forall_lookup_1 in Hall as [Hlta Hblks]; [|done].
  split; [by rewrite length_insert|]. by apply Forall_insert.
Qed.

Lemma iadd_row_ok dst src r c (m : matrix) str1 row :
  can_cast src dst = true → well_shaped r c m → (str1 < r)%nat → length row = c →
  ∃ m', iadd_row dst src m str1 row = Ok m' ∧ well_shaped r c m'.
Proof.
  intros Hcast Hm Hstr Hrow. unfold iadd_row.
  destruct (get_row_ok r c m str1 Hm Hstr) as (old & -> & Hold). simpl.
  rewrite Hcast. eexists. split; [done|]. destruct Hm as [Hlen Hrows].
  split; [by rewrite length_insert|]. apply Forall_insert; [done|].
  rewrite length_vadd. lia.
Qed.

Lemma iadd_col_ok dst src r c (m : matrix) str1 col :
  can_cast src dst = true → well_shaped r c m → (str1 < c)%nat → length col = r →
  ∃ m', iadd_col dst src c m str1 col = Ok m' ∧ well_shaped r c m'.
Proof.
  intros Hcast [Hlen Hrows] Hstr Hcol. unfold iadd_col.
  rewrite decide_True by done. rewrite Hcast. eexists. split; [done|].
  split; [rewrite length_zip_with; lia|].
  eapply Forall_zip_with_fst; [exact Hrows|].
  apply Forall_true. intros x row Hr. by rewrite length_alter.
Qed.

Lemma get_col_ok r c (m : matrix) j :
  well_shaped r c m → (j < c)%nat → ∃ col, get_col c m j = Ok col ∧ length col = r.
Proof.
  intros [Hlen _] Hj. unfold get_col. rewrite decide_True by done.
  eexists. split; [done|]. by rewrite length_fmap.
Qed.

Lemma can_cast_refl dt : can_cast dt dt = true.
Proof. by destruct dt. Qed.

Lemma t1_pass_a_ok dt n na nb ci0 link t1 :
  wf_link n na link → well_shaped na nb ci0 → t1_shaped n na nb t1 →
  ∃ t1', t1_pass_a dt ci0 link t1 = Ok t1' ∧ t1_shaped n na nb t1'.
Proof.
  intros [Hlen Hlink] Hci0 Ht1. unfold t1_pass_a.
  eapply for_each_inv; [exact Ht1|exact (Forall_enumerate _ _ Hlink)|].
  intros s [str0 tab] Hs [Hstr0 Htab]. simpl in *.
  eapply for_each_inv; [exact Hs|exact Htab|].
  clear s Hs. intros s [[[a i] str1] sign] Hs (Ha & Hi & Hstr1).
  destruct (get_row_ok na nb ci0 str0 Hci0 ltac:(lia)) as (row & -> & Hrow). simpl.
  destruct (get_block_ok n na nb s a i Hs Ha Hi) as (blk & -> & Hblk). simpl.
  destruct (iadd_row_ok dt dt na nb blk str1 (vscale (ZtoC sign) row))
    as (blk' & -> & Hblk'); auto using can_cast_refl.
  { by rewrite length_vscale. }
  simpl. eexists. split; [done|]. by apply set_block_shaped.
Qed.

Lemma t1_pass_b_ok dt n na nb ci0 link t1 :
  wf_link n nb link → well_shaped na nb ci0 → t1_shaped n na nb t1 →
  ∃ t1', t1_pass_b dt nb ci0 link t1 = Ok t1' ∧ t1_shaped n na nb t1'.
Proof.
  intros [Hlen Hlink] Hci0 Ht1. unfold t1_pass_b.
  eapply for_each_inv; [exact Ht1|exact (Forall_enumerate _ _ Hlink)|].
  intros s [str0 tab] Hs [Hstr0 Htab]. simpl in *.
  eapply for_each_inv; [exact Hs|exact Htab|].
  clear s Hs. intros s [[[a i] str1] sign] Hs (Ha & Hi & Hstr1).
  destruct (get_col_ok na nb ci0 str0 Hci0 ltac:(lia)) as (col & -> & Hcol). simpl.
  destruct (get_block_ok n na nb s a i Hs Ha Hi) as (blk & -> & Hblk). simpl.
  destruct (iadd_col_ok dt dt na nb blk str1 (vscale (ZtoC sign) col))
    as (blk' & -> & Hblk'); auto using can_cast_refl.
  { by rewrite length_vscale. }
  simpl. eexists. split; [done|]. by apply set_block_shaped.
Qed.

Lemma fmap_const_seq {A : Type} (x : A) (n : nat) :
  (λ _, x) <$> seq 0 n = replicate n x.
Proof.
  generalize 0%nat. induction n as [|n IH]; intros k; simpl; [done|]. by rewrite IH.
Qed.

Lemma lookup_total_all_zeros (l : list C) (k : nat) :
  Forall (λ x, x = C0) l → l !!! k = C0.
Proof.
  intros Hl. rewrite list_lookup_total_alt.
  destruct (l !! k) as [x|] eqn:E; [|done]. simpl.
  eapply Forall_lookup_1 in Hl; eauto.
Qed.

Lemma t1_shaped_block n na nb t1 a i :
  t1_shaped n na nb t1 → (a < n)%nat → (i < n)%nat →
  well_shaped na nb ((t1 !!! a) !!! i).
Proof.
  intros Ht1 Ha Hi.
  destruct (get_block_ok n na nb t1 a i Ht1 Ha Hi) as (blk & Hget & Hblk).
  unfold get_block in Hget.
  destruct (t1 !! a) as [ta|] eqn:Ea; [|done].
  destruct (ta !! i) as [blk'|] eqn:Ei; [|done]. simplify_eq.
  by rewrite (list_lookup_total_correct _ _ _ Ea), (list_lookup_total_correct _ _ _ Ei).
Qed.

(** Contracting with a tensor of zeros gives an intermediate of zeros. *)
Lemma einsum_bjai_zeros n na nb eri t1 :
  Forall (λ x, x = C0) eri → t1_shaped n na nb t1 →
  einsum_bjai n na nb eri t1 = replicate n (replicate n (mzeros na nb)).
Proof.
  intros Heri Ht1. unfold einsum_bjai.
  assert (Hin : ∀ b j a (l : list nat) acc,
    Forall (λ i, (i < n)%nat) l → (a < n)%nat → well_shaped na nb acc →
    foldr (λ i acc, madd acc (mscale (eri_at n eri b j a i) ((t1 !!! a) !!! i))) acc l
    = acc).
  { intros b j a l acc Hl Ha Hacc. induction Hl as [|i l Hi _ IH]; simpl; [done|].
    rewrite IH. unfold eri_at. rewrite lookup_total_all_zeros by done.
    rewrite (mscale_0 na nb) by (by apply t1_shaped_block with n).
    by apply madd_mzeros_r. }
  assert (Hseq : Forall (λ i, (i < n)%nat) (seq 0 n)).
  { apply Forall_forall. intros i Hi. apply elem_of_seq in Hi. lia. }
  assert (Hout : ∀ b j (l : list nat),
    Forall (λ a, (a < n)%nat) l →
    foldr (λ a acc,
      foldr (λ i acc, madd acc (mscale (eri_at n eri b j a i) ((t1 !!! a) !!! i)))
        acc (seq 0 n)) (mzeros na nb) l = mzeros na nb).
  { intros b j l Hl. induction Hl as [|a l Ha _ IH]; simpl; [done|].
    rewrite IH. apply Hin; auto using mzeros_well_shaped. }
  rewrite <- (fmap_const_seq (replicate n (mzeros na nb)) n).
  apply list_fmap_ext. intros _ b _.
  rewrite <- (fmap_const_seq (mzeros na nb) n).
  apply list_fmap_ext. intros _ j _. by apply Hout.
Qed.

Lemma t1_zeros_shaped n na nb :
  t1_shaped n na nb (replicate n (replicate n (mzeros na nb))).
Proof.
  split; [apply length_replicate|]. apply Forall_replicate.
  split; [apply length_replicate|]. apply Forall_replicate, mzeros_well_shaped.
Qed.

Lemma get_block_zeros n na nb a i :
  (a < n)%nat → (i < n)%nat →
  get_block (replicate n (replicate n (mzeros na nb))) a i = Ok (mzeros na nb).
Proof.
  intros Ha Hi. unfold get_block. by rewrite !lookup_replicate_2.
Qed.

Lemma iadd_row_zeros dst src na nb str1 :
  can_cast src dst = true → (str1 < na)%nat →
  iadd_row dst src (mzeros na nb) str1 (replicate nb C0) = Ok (mzeros na nb).
Proof.
  intros Hcast Hstr. unfold iadd_row, get_row, mzeros.
  rewrite lookup_replicate_2 by done. simpl. rewrite Hcast. f_equal.
  rewrite vadd_zeros_r by apply length_replicate.
  apply list_insert_id. by rewrite lookup_replicate_2.
Qed.

Lemma iadd_col_zeros dst src na nb str1 :
  can_cast src dst = true → (str1 < nb)%nat →
  iadd_col dst src nb (mzeros na nb) str1 (replicate na C0) = Ok (mzeros na nb).
Proof.
  intros Hcast Hstr. unfold iadd_col. rewrite decide_True by done.
  rewrite Hcast. f_equal. unfold mzeros.
  induction na as [|na IH]; [done|]. cbn [replicate zip_with]. rewrite IH. f_equal.
  apply list_eq. intros k. rewrite list_lookup_alter.
  destruct (decide (str1 = k)) as [->|Hne]; [|done].
  rewrite lookup_replicate_2 by done. simpl. by rewrite Cadd_0_r.
Qed.

Lemma get_col_zeros na nb j :
  (j < nb)%nat → get_col nb (mzeros na nb) j = Ok (replicate na C0).
Proof.
  intros Hj. unfold get_col, mzeros. rewrite decide_True by done. f_equal.
  rewrite fmap_replicate. f_equal. by apply lookup_total_replicate_2.
Qed.

Lemma fcinew_pass_a_zeros dt dt1 n na nb link :
  can_cast dt1 dt = true → wf_link n na link →
  fcinew_pass_a dt dt1 (replicate n (replicate n (mzeros na nb))) link (mzeros na nb)
  = Ok (mzeros na nb).
Proof.
  intros Hcast [Hlen Hlink]. unfold fcinew_pass_a.
  match goal with |- ?lhs = _ =>
    enough (∃ m, lhs = Ok m ∧ m = mzeros na nb) as (m & -> & ->) by done end.
  eapply (for_each_inv (λ m, m = mzeros na nb));
    [reflexivity|exact (Forall_enumerate _ _ Hlink)|].
  intros s [str0 tab] -> [Hstr0 Htab]. simpl in *.
  eapply for_each_inv; [reflexivity|exact Htab|].
  intros s [[[a i] str1] sign] -> (Ha & Hi & Hstr1).
  rewrite get_block_zeros by done. simpl.
  replace (get_row (mzeros na nb) str0) with (@Ok (list C) (replicate nb C0)).
  2:{ unfold get_row, mzeros. by rewrite lookup_replicate_2 by lia. }
  simpl. rewrite vscale_zeros. rewrite iadd_row_zeros by done. eauto.
Qed.

Lemma fcinew_pass_b_zeros dt dt1 n na nb link :
  can_cast dt1 dt = true → wf_link n nb link →
  fcinew_pass_b dt dt1 nb (replicate n (replicate n (mzeros na nb))) link (mzeros na nb)
  = Ok (mzeros na nb).
Proof.
  intros Hcast [Hlen Hlink]. unfold fcinew_pass_b.
  match goal with |- ?lhs = _ =>
    enough (∃ m, lhs = Ok m ∧ m = mzeros na nb) as (m & -> & ->) by done end.
  eapply (for_each_inv (λ m, m = mzeros na nb));
    [reflexivity|exact (Forall_enumerate _ _ Hlink)|].
  intros s [str0 tab] -> [Hstr0 Htab]. simpl in *.
  eapply for_each_inv; [reflexivity|exact Htab|].
  intros s [[[a i] str1] sign] -> (Ha & Hi & Hstr1).
  rewrite get_block_zeros by done. simpl.
  rewrite get_col_zeros by lia. simpl.
  rewrite vscale_zeros. rewrite iadd_col_zeros by done. eauto.
Qed.

Section contract_2e_zero.
Variable gen_linkstr_index : Z → Z → result link_table.

Lemma can_cast_result_type d dt :
  can_cast d dt = true → can_cast (result_type d dt) dt = true.
Proof. by destruct d, dt. Qed.

(** C9, amended. With a well-formed link index, a CI vector of the correct
    length and a tensor of [norb^4] zeros whose dtype can be accumulated into
    the vector's dtype, [contract_2e] returns the zero vector, with the shape
    and dtype of the input vector. *)
Theorem contract_2e_zero_tensor (eri fcivec : ndarray) (norb : Z) (nelec : nelec_arg)
    (link_index : option (link_table * link_table)) (la lb : link_table) :
  let neleca := (split_nelec nelec).1 in
  let nelecb := (split_nelec nelec).2 in
  let n := Z.to_nat norb in
  let na := Z.to_nat (num_strings norb neleca) in
  let nb := Z.to_nat (num_strings norb nelecb) in
  0 ≤ norb →
  unpack_link_index gen_linkstr_index norb neleca nelecb link_index = Ok (la, lb) →
  wf_link n na la → wf_link n nb lb →
  length (data fcivec) = (na * nb)%nat →
  length (data eri) = (n * n * n * n)%nat →
  all_zeros eri →
  can_cast (dtype_of eri) (dtype_of fcivec) = true →
  contract_2e gen_linkstr_index eri fcivec norb nelec link_index
  = Ok (mk_ndarray (dtype_of fcivec) (shape fcivec)
          (replicate (length (data fcivec)) C0)).
Proof.
  intros neleca nelecb n na nb Hnorb Hlinks Hla Hlb Hvec Heri Hzero Hcast.
  unfold contract_2e. destruct (split_nelec nelec) as [ea eb] eqn:Esplit.
  simpl in neleca, nelecb. subst neleca nelecb. rewrite Hlinks. simpl.
  fold na nb n. unfold reshape2. rewrite decide_True by done. simpl.
  unfold extent. rewrite decide_True by done. simpl. fold n.
  pose proof (to_rows_well_shaped na nb (data fcivec) Hvec) as Hci0.
  destruct (t1_pass_a_ok (dtype_of fcivec) n na nb _ la _ Hla Hci0
              (t1_zeros_shaped n na nb)) as (t1a & -> & Ht1a). simpl.
  destruct (t1_pass_b_ok (dtype_of fcivec) n na nb _ lb _ Hlb Hci0 Ht1a)
    as (t1b & -> & Ht1b). simpl.
  rewrite decide_True by done. simpl.
  rewrite (einsum_bjai_zeros n na nb _ _ Hzero Ht1b).
  rewrite (fcinew_pass_a_zeros _ _ n na nb la) by auto using can_cast_result_type.
  simpl.
  rewrite (fcinew_pass_b_zeros _ _ n na nb lb) by auto using can_cast_result_type.
  simpl. by rewrite flatten_mzeros, Hvec.
Qed.

End contract_2e_zero.

(** C9, as stated, fails: a complex128 tensor of zeros with a float64 vector
    raises in the second pass, where a complex row is accumulated in place
    into the float64 output. *)
Lemma contract_2e_zero_complex_tensor_raises :
  let eri := mk_ndarray complex128 [1; 1; 1; 1]%nat [C0] in
  let fcivec := mk_ndarray float64 [1%nat] [C1] in
  let link : link_table := [[(0%nat, 0%nat, 0%nat, 1)]] in
  all_zeros eri
  ∧ wf_link 1 1 link
  ∧ length (data fcivec) = Z.to_nat (num_strings 1 1 * num_strings 1 1)
  ∧ contract_2e (λ _ _, Ok link) eri fcivec 1 (NelecPair 1 1) (Some (link, link))
    = Raise TypeError.
Proof.
  simpl. split; [by repeat constructor|]. split.
  { split; [simpl; lia|]. repeat constructor; lia. }
  split; [reflexivity|]. reflexivity.
Qed.

Lemma contract_2e_zero_tensor_witness :
  let link : link_table := [[(0%nat, 0%nat, 0%nat, 1)]] in
  contract_2e (λ _ _, Ok link) (mk_ndarray float64 [1; 1; 1; 1]%nat [C0])
    (mk_ndarray float64 [1%nat] [C1]) 1 (NelecPair 1 1) (Some (link, link))
  = Ok (mk_ndarray float64 [1%nat] [C0]).
Proof.
  intros link.
  apply (contract_2e_zero_tensor (λ _ _, Ok link)
           (mk_ndarray float64 [1; 1; 1; 1]%nat [C0])
           (mk_ndarray float64 [1%nat] [C1]) 1 (NelecPair 1 1)
           (Some (link, link)) link link).
  - lia.
  - reflexivity.
  - split; [vm_compute; lia|]. repeat constructor; vm_compute; lia.
  - split; [vm_compute; lia|]. repeat constructor; vm_compute; lia.
  - reflexivity.
  - reflexivity.
  - repeat constructor.
  - reflexivity.
Defined.

(** ** Store computations *)

Lemma triple_bind {A B : Type} (P : store → Prop) (m : M A) (f : A → M B)
    (Q : A → store → Prop) (R : B → store → Prop) (E : store → Prop) :
  triple P m Q E → (∀ a, triple (Q a) (f a) R E) → triple P (m ≫= f) R E.
Proof.
  intros Hm Hf σ Hσ. unfold mbind, M_bind. specialize (Hm σ Hσ).
  destruct (m σ) as [[a|e] σ']; [|done]. by apply Hf.
Qed.

Lemma triple_ret {A : Type} (P : store → Prop) (a : A) (Q : A → store → Prop) E :
  (∀ σ, P σ → Q a σ) → triple P (mret a) Q E.
Proof. intros H σ Hσ. by apply H. Qed.

Lemma triple_lift {A : Type} (P : store → Prop) (r : result A)
    (Q : A → store → Prop) (E : store → Prop) :
  (∀ σ, P σ → E σ) → (∀ a σ, r = Ok a → P σ → Q a σ) → triple P (lift r) Q E.
Proof. intros HE HQ σ Hσ. unfold lift. destruct r; auto. Qed.

Lemma triple_raise {A : Type} (P : store → Prop) e (Q : A → store → Prop) E :
  (∀ σ, P σ → E σ) → triple P (raise e) Q E.
Proof. intros H σ Hσ. by apply H. Qed.

Lemma triple_weaken {A : Type} (P P' : store → Prop) (m : M A)
    (Q Q' : A → store → Prop) (E E' : store → Prop) :
  triple P' m Q' E' →
  (∀ σ, P σ → P' σ) → (∀ a σ, Q' a σ → Q a σ) → (∀ σ, E' σ → E σ) →
  triple P m Q E.
Proof.
  intros Hm HP HQ HE σ Hσ. specialize (Hm σ (HP σ Hσ)).
  destruct (m σ) as [[a|e] σ']; auto.
Qed.

Lemma triple_pure_pre {A : Type} (F : Prop) (P : store → Prop) (m : M A)
    (Q : A → store → Prop) (E : store → Prop) :
  (F → triple P m Q E) → triple (λ σ, F ∧ P σ) m Q E.
Proof. intros H σ [HF Hσ]. by apply H. Qed.

Lemma unchanged_refl σ : unchanged σ σ.
Proof. by intros l b. Qed.

Lemma unchanged_insert σ0 σ l b :
  σ0 !! l = None → unchanged σ0 σ → unchanged σ0 (<[l := b]> σ).
Proof.
  intros Hl H l' b' Hl'. rewrite lookup_insert_ne; [by apply H|congruence].
Qed.

Lemma unchanged_fresh σ0 σ : unchanged σ0 σ → σ0 !! fresh (dom σ) = None.
Proof.
  intros H. destruct (σ0 !! fresh (dom σ)) as [b|] eqn:E; [|done].
  apply H in E. pose proof (is_fresh (dom σ)) as Hf.
  apply not_elem_of_dom in Hf. congruence.
Qed.

(** *** The primitives leave the caller's buffers alone *)

Section frame.
Variable σ0 : store.

Lemma load_frame l :
  triple (unchanged σ0) (load l) (λ _, unchanged σ0) (unchanged σ0).
Proof. by intros σ Hσ. Qed.

Lemma alloc_frame b :
  triple (unchanged σ0) (alloc b)
    (λ l σ, σ0 !! l = None ∧ unchanged σ0 σ) (unchanged σ0).
Proof.
  intros σ Hσ. simpl. pose proof (unchanged_fresh _ _ Hσ).
  split; [done|]. by apply unchanged_insert.
Qed.

Lemma write_data_frame l d :
  σ0 !! l = None →
  triple (unchanged σ0) (write_data l d) (λ _, unchanged σ0) (unchanged σ0).
Proof. intros Hl σ Hσ. simpl. by apply unchanged_insert. Qed.

Lemma read_matrix_frame v :
  triple (unchanged σ0) (read_matrix v) (λ _, unchanged σ0) (unchanged σ0).
Proof.
  unfold read_matrix. eapply triple_bind; [apply load_frame|].
  intros b. apply triple_lift; auto.
Qed.

Lemma read_flat_frame v :
  triple (unchanged σ0) (read_flat v) (λ _, unchanged σ0) (unchanged σ0).
Proof.
  unfold read_flat. eapply triple_bind; [apply load_frame|].
  intros b. by apply triple_ret.
Qed.

Lemma write_matrix_frame v m :
  fresh_in σ0 v →
  triple (unchanged σ0) (write_matrix v m) (λ _, unchanged σ0) (unchanged σ0).
Proof. intros Hv. by apply write_data_frame. Qed.

Lemma copy_frame v :
  triple (unchanged σ0) (copy v)
    (λ v' σ, fresh_in σ0 v' ∧ unchanged σ0 σ) (unchanged σ0).
Proof.
  unfold copy. eapply triple_bind; [apply load_frame|]. intros b.
  eapply triple_bind; [apply alloc_frame|]. intros l. simpl.
  apply triple_ret. tauto.
Qed.

Lemma zeros_like_frame v :
  triple (unchanged σ0) (zeros_like v)
    (λ v' σ, fresh_in σ0 v' ∧ unchanged σ0 σ) (unchanged σ0).
Proof.
  unfold zeros_like. eapply triple_bind; [apply load_frame|]. intros b.
  eapply triple_bind; [apply alloc_frame|]. intros l. simpl.
  apply triple_ret. tauto.
Qed.

(** A reshaped view names the buffer it came from, or a new one. *)
Lemma reshape_frame v new :
  triple (unchanged σ0) (reshape v new)
    (λ v' σ, (fresh_in σ0 v → fresh_in σ0 v') ∧ unchanged σ0 σ) (unchanged σ0).
Proof.
  unfold reshape. case_decide; [|by apply triple_raise].
  destruct (lay v) as [n|r c [|]].
  - apply triple_ret. auto.
  - eapply triple_bind; [apply load_frame|]. intros b.
    eapply triple_bind; [apply alloc_frame|]. intros l. simpl.
    apply triple_ret. intros σ [Hl Hσ]. auto.
  - apply triple_ret. auto.
Qed.

Lemma imul_diag_half_frame v norb :
  fresh_in σ0 v →
  triple (unchanged σ0) (imul_diag_half v norb) (λ _, unchanged σ0) (unchanged σ0).
Proof.
  intros Hv. unfold imul_diag_half.
  destruct (lay v) as [n|r c t]; [by apply triple_raise|].
  case_decide; [|by apply triple_raise].
  eapply triple_bind; [apply read_matrix_frame|]. intros m.
  by apply write_matrix_frame.
Qed.

Lemma contract_diag_coulomb_into_buffer_frame vec mat norb mab occ_a occ_b out :
  fresh_in σ0 out →
  triple (unchanged σ0)
    (contract_diag_coulomb_into_buffer vec mat norb mab occ_a occ_b out)
    (λ _, unchanged σ0) (unchanged σ0).
Proof.
  intros Hout. unfold contract_diag_coulomb_into_buffer.
  eapply triple_bind; [apply read_matrix_frame|]. intros v.
  eapply triple_bind; [apply read_matrix_frame|]. intros m.
  eapply triple_bind; [apply read_matrix_frame|]. intros m'.
  eapply triple_bind; [apply read_matrix_frame|]. intros o.
  by apply write_matrix_frame.
Qed.

Lemma contract_num_op_sum_spin_into_buffer_frame vec coeffs occ out :
  fresh_in σ0 out →
  triple (unchanged σ0)
    (contract_num_op_sum_spin_into_buffer vec coeffs occ out)
    (λ _, unchanged σ0) (unchanged σ0).
Proof.
  intros Hout. unfold contract_num_op_sum_spin_into_buffer.
  eapply triple_bind; [apply read_matrix_frame|]. intros v.
  eapply triple_bind; [apply read_flat_frame|]. intros c.
  eapply triple_bind; [apply read_matrix_frame|]. intros o.
  by apply write_matrix_frame.
Qed.

End frame.

(** ** [contract_diag_coulomb] leaves its inputs as they were *)

Section diag_coulomb_frame.
Variable gen_occslst : Z → Z → result (list (list nat)).

Lemma occupations_or_frame σ0 given norb nocc :
  triple (unchanged σ0) (occupations_or gen_occslst given norb nocc)
    (λ _, unchanged σ0) (unchanged σ0).
Proof.
  destruct given; simpl; [by apply triple_ret|]. apply triple_lift; auto.
Qed.

(** C10. [contract_diag_coulomb] never mutates a caller-visible array:
    whether the call returns or raises, every buffer that existed before the
    call (the caller's [mat], [mat_alpha_beta] and [vec] among them) holds
    afterwards what it held before; the diagonal is halved in a copy. *)
Theorem contract_diag_coulomb_frame (σ : store) (vec mat : view) (norb : Z)
    (nelec : Z * Z) (mat_alpha_beta : option view)
    (occupations_a occupations_b : option (list (list nat))) :
  unchanged σ
    (contract_diag_coulomb gen_occslst vec mat norb nelec mat_alpha_beta
       occupations_a occupations_b σ).2.
Proof.
  enough (triple (unchanged σ)
    (contract_diag_coulomb gen_occslst vec mat norb nelec mat_alpha_beta
       occupations_a occupations_b)
    (λ _, unchanged σ) (unchanged σ)) as Htriple.
  { specialize (Htriple σ (unchanged_refl σ)).
    by destruct (contract_diag_coulomb _ _ _ _ _ _ _ _ σ) as [[?|?] ?]. }
  unfold contract_diag_coulomb. destruct nelec as [n_alpha n_beta].
  eapply triple_bind; [apply triple_lift with (Q := λ _, unchanged σ); auto|].
  intros dim_a.
  eapply triple_bind; [apply triple_lift with (Q := λ _, unchanged σ); auto|].
  intros dim_b.
  eapply triple_bind; [apply occupations_or_frame|]. intros oa.
  eapply triple_bind; [apply occupations_or_frame|]. intros ob.
  eapply triple_bind; [apply copy_frame|]. intros mat'.
  apply triple_pure_pre. intros Hmat'.
  eapply triple_bind; [by apply imul_diag_half_frame|]. intros [].
  eapply triple_bind; [apply reshape_frame|]. intros vec'.
  apply triple_pure_pre. intros _.
  eapply triple_bind; [apply zeros_like_frame|]. intros out.
  apply triple_pure_pre. intros Hout.
  eapply triple_bind; [by apply contract_diag_coulomb_into_buffer_frame|]. intros [].
  eapply triple_weaken; [apply (reshape_frame σ)| |simpl|]; auto. tauto.
Qed.

End diag_coulomb_frame.

(** ** The layout of what the contractions return *)

Lemma bind_Ok_inv {A B : Type} (m : M A) (f : A → M B) σ b σ' :
  (m ≫= f) σ = (Ok b, σ') → ∃ a σ1, m σ = (Ok a, σ1) ∧ f a σ1 = (Ok b, σ').
Proof.
  unfold mbind, M_bind. destruct (m σ) as [[a|e] σ1]; [eauto|done].
Qed.

Lemma lift_Ok_inv {A : Type} (r : result A) σ a σ' :
  lift r σ = (Ok a, σ') → r = Ok a ∧ σ' = σ.
Proof. unfold lift. by intros [= -> ->]. Qed.

Ltac inv_bind H :=
  let a := fresh "a" in
  let σ1 := fresh "σ" in
  let H1 := fresh "Hrun" in
  apply bind_Ok_inv in H as (a & σ1 & H1 & H).

Lemma reshape_layout v new σ v' σ' :
  reshape v new σ = (Ok v', σ') → lay v' = new.
Proof.
  unfold reshape. case_decide; [|done].
  destruct (lay v) as [n|r c [|]]; by intros [= <- _].
Qed.

Lemma zeros_like_layout v σ v' σ' :
  zeros_like v σ = (Ok v', σ') → lay v' = lay v.
Proof. by intros [= <- _]. Qed.

(** Reshaping a flat view to its own length gives the view back. *)
Lemma reshape_flat_same v n σ :
  lay v = Flat n → reshape v (Flat n) σ = (Ok v, σ).
Proof.
  intros Hv. unfold reshape. rewrite Hv, decide_True by done.
  destruct v; simpl in *; by subst.
Qed.

Section adapters.
Variable gen_occslst : Z → Z → result (list (list nat)).

Lemma contract_diag_coulomb_layout vec mat norb n_alpha n_beta mab occ_a occ_b
    dim_a dim_b σ y σ' :
  comb norb n_alpha = Ok dim_a → comb norb n_beta = Ok dim_b →
  contract_diag_coulomb gen_occslst vec mat norb (n_alpha, n_beta) mab occ_a occ_b σ
  = (Ok y, σ') →
  lay y = Flat (Z.to_nat dim_a * Z.to_nat dim_b).
Proof.
  intros Ha Hb Hrun. unfold contract_diag_coulomb in Hrun. rewrite Ha, Hb in Hrun.
  do 6 inv_bind Hrun. inv_bind Hrun. inv_bind Hrun. inv_bind Hrun.
  apply lift_Ok_inv in Hrun0 as [[= <-] _]. apply lift_Ok_inv in Hrun1 as [[= <-] _].
  apply reshape_layout in Hrun. apply zeros_like_layout in Hrun7.
  apply reshape_layout in Hrun6. rewrite Hrun, Hrun7, Hrun6. done.
Qed.

Lemma view_T_T v : view_T (view_T v) = v.
Proof. destruct v as [l [n|r c t]]; [done|]. unfold view_T. simpl. by rewrite negb_involutive. Qed.

Lemma contract_num_op_sum_layout vec coeffs norb n_alpha n_beta occ_a occ_b
    dim_a dim_b σ y σ' :
  comb norb n_alpha = Ok dim_a → comb norb n_beta = Ok dim_b →
  contract_num_op_sum gen_occslst vec coeffs norb (n_alpha, n_beta) occ_a occ_b σ
  = (Ok y, σ') →
  lay y = Flat (Z.to_nat dim_a * Z.to_nat dim_b).
Proof.
  intros Ha Hb Hrun. unfold contract_num_op_sum in Hrun. rewrite Ha, Hb in Hrun.
  do 8 inv_bind Hrun.
  apply lift_Ok_inv in Hrun2 as [[= <-] _]. apply lift_Ok_inv in Hrun3 as [[= <-] _].
  apply reshape_layout in Hrun. apply zeros_like_layout in Hrun5.
  apply reshape_layout in Hrun4. rewrite Hrun, view_T_T, Hrun5, Hrun4. done.
Qed.

End adapters.

(** ** The adapters apply the contractions *)

Lemma get_dimension_combs norb n_alpha n_beta dim :
  get_dimension norb (n_alpha, n_beta) = Ok dim →
  ∃ dim_a dim_b, comb norb n_alpha = Ok dim_a ∧ comb norb n_beta = Ok dim_b
    ∧ 0 ≤ dim_a ∧ 0 ≤ dim_b ∧ dim = dim_a * dim_b.
Proof.
  unfold get_dimension.
  destruct (comb_returns norb n_alpha) as (da & Ha & Hda).
  destruct (comb_returns norb n_beta) as (db & Hb & Hdb).
  rewrite Ha, Hb. simpl. intros [= <-]. eauto 10.
Qed.

Section adapter_consistency.
Variable gen_occslst : Z → Z → result (list (list nat)).

Lemma linop_apply_view_run (f : view → M view) (dim : Z) (dt : dtype) (v : view) σ :
  lay v = Flat (Z.to_nat dim) →
  (∀ y σ', f v σ = (Ok y, σ') → lay y = Flat (Z.to_nat dim)) →
  linop_apply_view (mk_LinearOperator (dim, dim) f f dt) v σ = f v σ.
Proof.
  intros Hv Hlay. unfold linop_apply_view. simpl. rewrite decide_True by done.
  unfold mbind, M_bind. destruct (f v σ) as [[y|e] σ'] eqn:Hrun; [|done].
  apply reshape_flat_same. by eapply Hlay.
Qed.

(** C8. Applying the operator built by [diag_coulomb_to_linop] (by
    [num_op_sum_to_linop]) to a vector of length [dim_alpha * dim_beta] is
    the direct call of [contract_diag_coulomb] (of [contract_num_op_sum]) on
    the same arguments: same outcome, same store. *)
Theorem linop_apply_is_contraction (σ : store) (mat coeffs v : view) (norb : Z)
    (nelec : Z * Z) (mat_alpha_beta : option view) (dim : Z) :
  get_dimension norb nelec = Ok dim →
  lay v = Flat (Z.to_nat dim) →
  (op ← diag_coulomb_to_linop gen_occslst mat norb nelec mat_alpha_beta;
   linop_apply_view op v) σ
  = contract_diag_coulomb gen_occslst v mat norb nelec mat_alpha_beta None None σ
  ∧ (op ← num_op_sum_to_linop gen_occslst coeffs norb nelec;
     linop_apply_view op v) σ
    = contract_num_op_sum gen_occslst v coeffs norb nelec None None σ.
Proof.
  intros Hdim Hv. destruct nelec as [n_alpha n_beta].
  destruct (get_dimension_combs _ _ _ _ Hdim) as (da & db & Ha & Hb & Hda & Hdb & ->).
  assert (Hsize : Z.to_nat (da * db) = (Z.to_nat da * Z.to_nat db)%nat) by lia.
  split.
  - cbv beta iota zeta delta
      [diag_coulomb_to_linop mbind M_bind lift dtype_of_view load mret M_ret].
    rewrite Hdim.
    transitivity (
      match gen_occslst norb n_alpha with
      | Ok oa =>
          match gen_occslst norb n_beta with
          | Ok ob =>
              contract_diag_coulomb gen_occslst v mat norb (n_alpha, n_beta)
                mat_alpha_beta (Some oa) (Some ob) σ
          | Raise e => (Raise e, σ)
          end
      | Raise e => (Raise e, σ)
      end).
    + destruct (gen_occslst norb n_alpha) as [oa|e]; [|done].
      destruct (gen_occslst norb n_beta) as [ob|e]; [|done].
      apply linop_apply_view_run; [done|].
      intros y σ' Hrun. rewrite Hsize. by eapply contract_diag_coulomb_layout.
    + unfold contract_diag_coulomb, occupations_or. rewrite Ha, Hb.
      cbv beta iota zeta delta [mbind M_bind lift mret M_ret].
      destruct (gen_occslst norb n_alpha) as [oa|e]; [|done].
      by destruct (gen_occslst norb n_beta) as [ob|e].
  - cbv beta iota zeta delta
      [num_op_sum_to_linop mbind M_bind lift dtype_of_view load mret M_ret].
    rewrite Hdim.
    transitivity (
      match gen_occslst norb n_alpha with
      | Ok oa =>
          match gen_occslst norb n_beta with
          | Ok ob =>
              contract_num_op_sum gen_occslst v coeffs norb (n_alpha, n_beta)
                (Some oa) (Some ob) σ
          | Raise e => (Raise e, σ)
          end
      | Raise e => (Raise e, σ)
      end).
    + destruct (gen_occslst norb n_alpha) as [oa|e]; [|done].
      destruct (gen_occslst norb n_beta) as [ob|e]; [|done].
      apply linop_apply_view_run; [done|].
      intros y σ' Hrun. rewrite Hsize. by eapply contract_num_op_sum_layout.
    + unfold contract_num_op_sum, occupations_or.
      cbv beta iota zeta delta [mbind M_bind lift mret M_ret].
      destruct (gen_occslst norb n_alpha) as [oa|e]; [|done].
      by destruct (gen_occslst norb n_beta) as [ob|e].
Qed.

End adapter_consistency.

(** ** Reshaping, transposing and pointwise maps *)

Lemma to_rows_S r c l :
  to_rows (S r) c l = take c l :: to_rows r c (drop c l).
Proof.
  unfold to_rows. rewrite <- cons_seq, fmap_cons, Nat.mul_0_l, drop_0. f_equal.
  rewrite <- fmap_S_seq, <- list_fmap_compose. apply list_fmap_ext.
  intros _ i _. simpl. by rewrite drop_drop.
Qed.

Lemma flatten_to_rows r c l :
  length l = (r * c)%nat → flatten (to_rows r c l) = l.
Proof.
  unfold flatten. revert l. induction r as [|r IH]; intros l Hl.
  - destruct l; [done|]. simpl in Hl. lia.
  - rewrite to_rows_S. simpl. rewrite IH, take_drop; [done|].
    rewrite length_drop. lia.
Qed.

Lemma to_rows_flatten r c m :
  well_shaped r c m → to_rows r c (flatten m) = m.
Proof.
  unfold flatten. intros [Hlen Hrows]. subst r.
  induction Hrows as [|row m Hrow _ IH]; [done|].
  cbn [length concat]. rewrite to_rows_S.
  rewrite take_app_length', drop_app_length' by done. by rewrite IH.
Qed.

Lemma to_rows_lookup r c l i :
  (i < r)%nat → to_rows r c l !! i = Some (take c (drop (i * c) l)).
Proof.
  intros Hi. unfold to_rows. rewrite list_lookup_fmap, lookup_seq_lt by done. done.
Qed.

Lemma mat_at_to_rows r c l i j :
  (i < r)%nat → (j < c)%nat → mat_at (to_rows r c l) i j = l !!! (i * c + j)%nat.
Proof.
  intros Hi Hj. unfold mat_at.
  rewrite (list_lookup_total_correct _ _ _ (to_rows_lookup r c l i Hi)).
  rewrite !list_lookup_total_alt, lookup_take_lt, lookup_drop by done. done.
Qed.

Lemma well_shaped_lookup r c (m : matrix) i :
  well_shaped r c m → (i < r)%nat → ∃ row, m !! i = Some row ∧ length row = c.
Proof.
  intros [Hlen Hrows] Hi. destruct (lookup_lt_is_Some_2 m i) as [row Hrow]; [lia|].
  exists row. split; [done|]. eapply Forall_lookup_1 in Hrows; eauto.
Qed.

(** Matrices of one shape with the same entries are equal. *)
Lemma mat_ext r c (m m' : matrix) :
  well_shaped r c m → well_shaped r c m' →
  (∀ i j, (i < r)%nat → (j < c)%nat → mat_at m i j = mat_at m' i j) →
  m = m'.
Proof.
  intros Hm Hm' Heq.
  apply (list_eq_same_length _ _ r); [apply Hm'|apply Hm|].
  intros i row row' Hi Hrow Hrow'.
  destruct (well_shaped_lookup r c m i Hm Hi) as (row2 & Hrow2 & Hl).
  rewrite Hrow in Hrow2. injection Hrow2 as <-.
  destruct (well_shaped_lookup r c m' i Hm' Hi) as (row2 & Hrow2 & Hl').
  rewrite Hrow' in Hrow2. injection Hrow2 as <-.
  apply (list_eq_same_length _ _ c); [done..|].
  intros j x y Hj Hx Hy. specialize (Heq i j Hi Hj). unfold mat_at in Heq.
  rewrite (list_lookup_total_correct _ _ _ Hrow) in Heq.
  rewrite (list_lookup_total_correct _ _ _ Hrow') in Heq.
  rewrite (list_lookup_total_correct _ _ _ Hx) in Heq.
  by rewrite (list_lookup_total_correct _ _ _ Hy) in Heq.
Qed.

Lemma transpose_well_shaped r c m : well_shaped c r (transpose r c m).
Proof.
  unfold transpose. split; [by rewrite length_fmap, length_seq|].
  apply Forall_fmap, Forall_forall. intros j _. simpl.
  by rewrite length_fmap, length_seq.
Qed.

Lemma mat_at_transpose r c m i j :
  (i < r)%nat → (j < c)%nat → mat_at (transpose r c m) j i = mat_at m i j.
Proof.
  intros Hi Hj. unfold mat_at at 1, transpose.
  rewrite (list_lookup_total_alt _ j), list_lookup_fmap, lookup_seq_lt by done.
  simpl. rewrite (list_lookup_total_alt _ i), list_lookup_fmap, lookup_seq_lt by done.
  done.
Qed.

Lemma transpose_involutive r c m :
  well_shaped r c m → transpose c r (transpose r c m) = m.
Proof.
  intros Hm. apply (mat_ext r c); [apply transpose_well_shaped|done|].
  intros i j Hi Hj. by rewrite !mat_at_transpose.
Qed.

Lemma mat_at_mzeros r c i j :
  (i < r)%nat → (j < c)%nat → mat_at (mzeros r c) i j = C0.
Proof.
  intros Hi Hj. unfold mat_at, mzeros. by rewrite !lookup_total_replicate_2.
Qed.

(** A pointwise update of every entry, as the kernels do it. *)
Lemma imap2_well_shaped (g : nat → nat → C → C) r c (out : matrix) :
  well_shaped r c out →
  well_shaped r c (imap (λ i orow, imap (λ j o, g i j o) orow) out).
Proof.
  intros [Hlen Hrows]. split; [by rewrite length_imap|].
  apply Forall_forall. intros row Hrow.
  apply elem_of_lookup_imap in Hrow as (i & orow & -> & Horow).
  rewrite length_imap. eapply Forall_lookup_1 in Hrows; eauto.
Qed.

Lemma mat_at_imap2 (g : nat → nat → C → C) r c (out : matrix) i j :
  well_shaped r c out → (i < r)%nat → (j < c)%nat →
  mat_at (imap (λ i orow, imap (λ j o, g i j o) orow) out) i j = g i j (mat_at out i j).
Proof.
  intros Hout Hi Hj. unfold mat_at.
  destruct (well_shaped_lookup r c out i Hout Hi) as (row & Hrow & Hlen).
  destruct (lookup_lt_is_Some_2 row j) as [x Hx]; [lia|].
  rewrite !list_lookup_total_alt, list_lookup_imap, Hrow. simpl.
  by rewrite list_lookup_imap, Hx.
Qed.

(** ** Running the kernels *)

Lemma fresh_ne (σ : store) l b : σ !! l = Some b → l ≠ fresh (dom σ).
Proof.
  intros Hl ->. pose proof (is_fresh (dom σ)) as Hf.
  apply not_elem_of_dom in Hf. congruence.
Qed.

Lemma contract_num_op_sum_spin_into_buffer_run vec coeffs occ out σ v o :
  view_rows (lay vec) (buf_data (σ !!! base vec)) = Ok v →
  view_rows (lay out) (buf_data (σ !!! base out)) = Ok o →
  contract_num_op_sum_spin_into_buffer vec coeffs occ out σ
  = (Ok (),
     <[base out := mk_buffer (buf_dtype (σ !!! base out))
         (rows_data (lay out)
            (num_op_sum_spin v (view_data (lay coeffs) (buf_data (σ !!! base coeffs)))
               occ o))]> σ).
Proof.
  intros Hv Ho. unfold contract_num_op_sum_spin_into_buffer, read_matrix, read_flat.
  cbv beta iota zeta delta [mbind M_bind lift load mret M_ret].
  rewrite Hv, Ho. reflexivity.
Qed.

Lemma contract_diag_coulomb_into_buffer_run vec mat norb mab occ_a occ_b out σ v m m' o :
  view_rows (lay vec) (buf_data (σ !!! base vec)) = Ok v →
  view_rows (lay mat) (buf_data (σ !!! base mat)) = Ok m →
  view_rows (lay mab) (buf_data (σ !!! base mab)) = Ok m' →
  view_rows (lay out) (buf_data (σ !!! base out)) = Ok o →
  contract_diag_coulomb_into_buffer vec mat norb mab occ_a occ_b out σ
  = (Ok (),
     <[base out := mk_buffer (buf_dtype (σ !!! base out))
         (rows_data (lay out) (diag_coulomb v m m' occ_a occ_b o))]> σ).
Proof.
  intros Hv Hm Hm' Ho. unfold contract_diag_coulomb_into_buffer, read_matrix.
  cbv beta iota zeta delta [mbind M_bind lift load mret M_ret].
  rewrite Hv, Hm, Hm', Ho. reflexivity.
Qed.

Lemma to_rows_zeros r c : to_rows r c (replicate (r * c) C0) = mzeros r c.
Proof.
  rewrite <- flatten_mzeros. apply to_rows_flatten, mzeros_well_shaped.
Qed.

Lemma num_op_sum_spin_well_shaped r c v coeffs occ out :
  well_shaped r c out → well_shaped r c (num_op_sum_spin v coeffs occ out).
Proof. apply imap2_well_shaped. Qed.

Lemma mat_at_num_op_sum_spin r c v coeffs occ out i j :
  well_shaped r c out → (i < r)%nat → (j < c)%nat →
  mat_at (num_op_sum_spin v coeffs occ out) i j
  = (mat_at out i j + num_op_coeff coeffs (occ !!! i) * mat_at v i j)%C.
Proof.
  intros. unfold num_op_sum_spin.
  by rewrite (mat_at_imap2
    (λ i j o, (o + num_op_coeff coeffs (occ !!! i) * mat_at v i j)%C) r c).
Qed.

Lemma diag_coulomb_well_shaped r c v m m' occ_a occ_b out :
  well_shaped r c out → well_shaped r c (diag_coulomb v m m' occ_a occ_b out).
Proof. apply imap2_well_shaped. Qed.

Lemma mat_at_diag_coulomb r c v m m' occ_a occ_b out i j :
  well_shaped r c out → (i < r)%nat → (j < c)%nat →
  mat_at (diag_coulomb v m m' occ_a occ_b out) i j
  = (mat_at out i j
     + diag_coulomb_coeff m m' (occ_a !!! i) (occ_b !!! j) * mat_at v i j)%C.
Proof.
  intros. unfold diag_coulomb.
  by rewrite (mat_at_imap2
    (λ i j o, (o + diag_coulomb_coeff m m' (occ_a !!! i) (occ_b !!! j)
                   * mat_at v i j)%C) r c).
Qed.

Lemma bind_Ok_run {A B : Type} (m : M A) (f : A → M B) σ a σ' :
  m σ = (Ok a, σ') → (m ≫= f) σ = f a σ'.
Proof. intros H. unfold mbind, M_bind. by rewrite H. Qed.

Lemma reshape_flat_run v n new σ :
  lay v = Flat n → n = layout_size new →
  reshape v new σ = (Ok (mk_view (base v) new), σ).
Proof. intros Hv ->. unfold reshape. rewrite Hv. simpl. by rewrite decide_True. Qed.

Lemma reshape_mat_run v r c new σ :
  lay v = Mat r c false → (r * c)%nat = layout_size new →
  reshape v new σ = (Ok (mk_view (base v) new), σ).
Proof. intros Hv Hsz. unfold reshape. rewrite Hv. simpl. by rewrite decide_True. Qed.

Lemma scale_entries_well_shaped f r c v :
  well_shaped r c v → well_shaped r c (scale_entries f v).
Proof. apply (imap2_well_shaped (λ i j x, (f i j * x)%C)). Qed.

Lemma mat_at_scale_entries f r c v i j :
  well_shaped r c v → (i < r)%nat → (j < c)%nat →
  mat_at (scale_entries f v) i j = (f i j * mat_at v i j)%C.
Proof.
  intros. unfold scale_entries.
  by rewrite (mat_at_imap2 (λ i j x, (f i j * x)%C) r c).
Qed.

Section kernels_run.
Variable gen_occslst : Z → Z → result (list (list nat)).

(** What [contract_num_op_sum] computes: a new buffer in which amplitude
    [(i, j)] is multiplied by the sum of the coefficients over the alpha
    orbitals of address [i] plus the sum over the beta orbitals of [j]. *)
Lemma contract_num_op_sum_run σ vec coeffs norb n_alpha n_beta occ_a occ_b
    dim_a dim_b bv bc :
  let da := Z.to_nat dim_a in
  let db := Z.to_nat dim_b in
  comb norb n_alpha = Ok dim_a → comb norb n_beta = Ok dim_b →
  lay vec = Flat (da * db) →
  σ !! base vec = Some bv → length (buf_data bv) = (da * db)%nat →
  σ !! base coeffs = Some bc →
  contract_num_op_sum gen_occslst vec coeffs norb (n_alpha, n_beta)
    (Some occ_a) (Some occ_b) σ
  = (Ok (mk_view (fresh (dom σ)) (Flat (da * db))),
     <[fresh (dom σ) := mk_buffer (buf_dtype bv)
         (flatten (scale_entries
            (λ i j, num_op_coeff (view_data (lay coeffs) (buf_data bc)) (occ_a !!! i)
                    + num_op_coeff (view_data (lay coeffs) (buf_data bc)) (occ_b !!! j))%C
            (to_rows da db (buf_data bv))))]> σ).
Proof.
  intros da db Ha Hb Hlay Hvec Hlen Hcoeffs.
  unfold contract_num_op_sum, occupations_or. rewrite Ha, Hb. fold da db.
  rewrite (bind_Ok_run _ _ σ occ_a σ) by done.
  rewrite (bind_Ok_run _ _ σ occ_b σ) by done.
  rewrite (bind_Ok_run _ _ σ dim_a σ) by done.
  rewrite (bind_Ok_run _ _ σ dim_b σ) by done.
  erewrite bind_Ok_run by (by apply (reshape_flat_run _ (da * db))).
  set (l := fresh (dom σ)).
  assert (Hne : base vec ≠ l) by (by eapply fresh_ne).
  assert (Hbv : σ !!! base vec = bv) by (by apply lookup_total_correct).
  assert (Hbc : σ !!! base coeffs = bc) by (by apply lookup_total_correct).
  assert (Hnec : base coeffs ≠ l) by (by eapply fresh_ne).
  erewrite bind_Ok_run by (unfold zeros_like, load, alloc;
    cbv beta iota zeta delta [mbind M_bind mret M_ret]; reflexivity).
  cbn [base lay layout_size]. fold l. rewrite Hbv.
  erewrite bind_Ok_run.
  2:{ apply (contract_num_op_sum_spin_into_buffer_run _ _ _ _ _
              (to_rows da db (buf_data bv)) (mzeros da db)).
      - cbn [base lay view_rows]. by rewrite lookup_total_insert_ne, Hbv.
      - cbn [base lay view_rows]. rewrite lookup_total_insert_eq. simpl.
        by rewrite to_rows_zeros. }
  cbn [base lay]. rewrite insert_insert_eq.
  rewrite lookup_total_insert_eq, (lookup_total_insert_ne _ l (base coeffs)) by done.
  rewrite Hbc. cbn [buf_dtype rows_data]. fold da db.
  set (V := to_rows da db (buf_data bv)).
  set (c := view_data (lay coeffs) (buf_data bc)).
  set (K1 := num_op_sum_spin V c occ_a (mzeros da db)).
  assert (HV : well_shaped da db V) by (by apply to_rows_well_shaped).
  assert (HK1 : well_shaped da db K1)
    by apply num_op_sum_spin_well_shaped, mzeros_well_shaped.
  unfold view_T. cbn [base lay negb].
  erewrite bind_Ok_run.
  2:{ apply (contract_num_op_sum_spin_into_buffer_run _ _ _ _ _
              (transpose da db V) (transpose da db K1)).
      - cbn [base lay view_rows]. by rewrite lookup_total_insert_ne, Hbv.
      - cbn [base lay view_rows]. rewrite lookup_total_insert_eq. simpl.
        by rewrite to_rows_flatten. }
  cbn [base lay layout_size]. rewrite insert_insert_eq.
  rewrite lookup_total_insert_eq, (lookup_total_insert_ne _ l (base coeffs)) by done.
  rewrite Hbc. cbn [buf_dtype rows_data]. fold c.
  erewrite reshape_mat_run by (cbn [lay layout_size]; reflexivity).
  cbn [base]. do 4 f_equal.
  apply (mat_ext da db);
    [apply transpose_well_shaped|by apply scale_entries_well_shaped|].
  intros i j Hi Hj. rewrite mat_at_transpose by done.
  rewrite (mat_at_num_op_sum_spin db da), !mat_at_transpose by
    (done || apply transpose_well_shaped).
  unfold K1. rewrite (mat_at_num_op_sum_spin da db), mat_at_mzeros by
    (done || apply mzeros_well_shaped).
  rewrite (mat_at_scale_entries _ da db) by done. ring.
Qed.

End kernels_run.

(** ** Single determinants *)

Lemma flatten_mscale c m : flatten (mscale c m) = vscale c (flatten m).
Proof.
  unfold flatten, mscale, vscale. induction m as [|row m IH]; [done|].
  rewrite fmap_cons. cbn [concat]. by rewrite fmap_app, IH.
Qed.

Lemma mscale_well_shaped c r k m : well_shaped r k m → well_shaped r k (mscale c m).
Proof.
  intros [Hlen Hrows]. unfold mscale. split; [by rewrite length_fmap|].
  apply Forall_fmap. eapply Forall_impl; [done|]. intros row Hrow. simpl.
  by rewrite length_vscale.
Qed.

Lemma mat_at_mscale c r k m i j :
  well_shaped r k m → (i < r)%nat → (j < k)%nat →
  mat_at (mscale c m) i j = (c * mat_at m i j)%C.
Proof.
  intros Hm Hi Hj. unfold mat_at, mscale, vscale.
  destruct (well_shaped_lookup r k m i Hm Hi) as (row & Hrow & Hlen).
  destruct (lookup_lt_is_Some_2 row j) as [x Hx]; [lia|].
  rewrite (list_lookup_total_correct _ _ _ Hrow).
  rewrite (list_lookup_total_correct _ _ _ Hx).
  erewrite (list_lookup_total_correct _ i); [|by rewrite list_lookup_fmap, Hrow].
  apply list_lookup_total_correct. by rewrite list_lookup_fmap, Hx.
Qed.

Lemma basis_vector_length n k : length (basis_vector n k) = n.
Proof. unfold basis_vector. by rewrite length_insert, length_replicate. Qed.

Lemma basis_vector_at n k : (k < n)%nat → basis_vector n k !!! k = C1.
Proof.
  intros Hk. unfold basis_vector. apply list_lookup_total_correct.
  apply list_lookup_insert_eq. by rewrite length_replicate.
Qed.

Lemma basis_vector_off n k k' :
  (k' < n)%nat → k ≠ k' → basis_vector n k !!! k' = C0.
Proof.
  intros Hk Hne. unfold basis_vector. apply list_lookup_total_correct.
  rewrite list_lookup_insert_ne by done. by apply lookup_replicate_2.
Qed.

Lemma flat_index_lt r c i j : (i < r)%nat → (j < c)%nat → (i * c + j < r * c)%nat.
Proof. intros Hi Hj. assert (S i * c ≤ r * c)%nat by (apply Nat.mul_le_mono_r; lia). lia. Qed.

Lemma flat_index_inj c i j i' j' :
  (j < c)%nat → (j' < c)%nat → (i * c + j = i' * c + j')%nat → i = i' ∧ j = j'.
Proof.
  intros Hj Hj' Heq.
  assert (i = i') as ->.
  { destruct (Nat.lt_trichotomy i i') as [Hlt|[->|Hgt]]; [|done|].
    - assert (S i * c ≤ i' * c)%nat by (apply Nat.mul_le_mono_r; lia). lia.
    - assert (S i' * c ≤ i * c)%nat by (apply Nat.mul_le_mono_r; lia). lia. }
  split; [done|lia].
Qed.

(** Scaling every amplitude by its own factor scales a single determinant
    by the factor of its address. *)
Lemma scale_entries_basis f da db ia ib :
  (ia < da)%nat → (ib < db)%nat →
  flatten (scale_entries f (to_rows da db (basis_vector (da * db) (ia * db + ib))))
  = vscale (f ia ib) (basis_vector (da * db) (ia * db + ib)).
Proof.
  intros Hia Hib.
  set (e := basis_vector (da * db) (ia * db + ib)).
  assert (He : length e = (da * db)%nat) by apply basis_vector_length.
  pose proof (to_rows_well_shaped da db e He) as HV.
  rewrite <- (flatten_to_rows da db e He) at 2. rewrite <- flatten_mscale. f_equal.
  apply (mat_ext da db);
    [by apply scale_entries_well_shaped|by apply mscale_well_shaped|].
  intros i j Hi Hj.
  rewrite (mat_at_scale_entries _ da db), (mat_at_mscale _ da db) by done.
  rewrite mat_at_to_rows by done.
  destruct (decide (i = ia ∧ j = ib)) as [[-> ->]|Hne]; [done|].
  unfold e. rewrite basis_vector_off; [ring|by apply flat_index_lt|].
  intros Heq. apply flat_index_inj in Heq as [-> ->]; auto.
Qed.

(** ** Running [contract_diag_coulomb] *)

Lemma length_flatten_well_shaped r c (m : matrix) :
  well_shaped r c m → length (flatten m) = (r * c)%nat.
Proof.
  intros [Hlen Hrows]. unfold flatten. subst r.
  induction Hrows as [|row m Hrow _ IH]; [done|].
  cbn [concat length]. rewrite length_app, IH, Hrow. lia.
Qed.

(** The rows of a two-dimensional view are the rows of its C-ordered copy. *)
Lemma view_rows_data r c t d :
  length d = (r * c)%nat →
  view_rows (Mat r c t) d = Ok (to_rows r c (view_data (Mat r c t) d))
  ∧ length (view_data (Mat r c t) d) = (r * c)%nat.
Proof.
  intros Hd. destruct t; simpl; [|done].
  pose proof (transpose_well_shaped c r (to_rows c r d)) as Hw.
  split; [by rewrite to_rows_flatten|by apply length_flatten_well_shaped].
Qed.

Lemma halve_diag_well_shaped n r c m :
  well_shaped r c m → well_shaped r c (halve_diag n m).
Proof.
  intros [Hlen Hrows]. unfold halve_diag. split; [by rewrite length_imap|].
  apply Forall_forall. intros row Hrow.
  apply elem_of_lookup_imap in Hrow as (i & orow & -> & Horow).
  eapply Forall_lookup_1 in Hrows; [|done].
  case_decide; [by rewrite length_alter|done].
Qed.

Lemma mat_at_halve_diag n r c m p q :
  well_shaped r c m → (p < n)%nat → (p < r)%nat → (q < c)%nat →
  mat_at (halve_diag n m) p q
  = if decide (p = q) then (Chalf * mat_at m p q)%C else mat_at m p q.
Proof.
  intros Hm Hpn Hp Hq. unfold mat_at, halve_diag.
  destruct (well_shaped_lookup r c m p Hm Hp) as (row & Hrow & Hlen).
  destruct (lookup_lt_is_Some_2 row q) as [x Hx]; [lia|].
  rewrite (list_lookup_total_correct _ _ _ Hrow), (list_lookup_total_correct _ _ _ Hx).
  erewrite (list_lookup_total_correct _ p);
    [|by rewrite list_lookup_imap, Hrow]. simpl.
  rewrite decide_True by done. apply list_lookup_total_correct.
  rewrite list_lookup_alter. destruct (decide (p = q)) as [->|Hne].
  - by rewrite Hx.
  - done.
Qed.

Section diag_coulomb_run.
Variable gen_occslst : Z → Z → result (list (list nat)).

(** What [contract_diag_coulomb] computes: a new buffer in which amplitude
    [(i, j)] is multiplied by the kernel's coefficient for the occupations of
    [i] and [j], taken on the matrix with its diagonal halved and on the
    cross-spin matrix as the caller holds it. *)
Lemma contract_diag_coulomb_run σ vec mat norb n_alpha n_beta mat_alpha_beta
    occ_a occ_b dim_a dim_b bv bm bm' tm tm' :
  let da := Z.to_nat dim_a in
  let db := Z.to_nat dim_b in
  let n := Z.to_nat norb in
  let mab := default mat mat_alpha_beta in
  let Mh := halve_diag n (to_rows n n (view_data (lay mat) (buf_data bm))) in
  let M' := to_rows n n (view_data (lay mab) (buf_data bm')) in
  0 ≤ norb →
  comb norb n_alpha = Ok dim_a → comb norb n_beta = Ok dim_b →
  lay vec = Flat (da * db) →
  σ !! base vec = Some bv → length (buf_data bv) = (da * db)%nat →
  lay mat = Mat n n tm →
  σ !! base mat = Some bm → length (buf_data bm) = (n * n)%nat →
  lay mab = Mat n n tm' →
  σ !! base mab = Some bm' → length (buf_data bm') = (n * n)%nat →
  ∃ l1 l3,
    σ !! l1 = None ∧ σ !! l3 = None ∧ l1 ≠ l3 ∧
    contract_diag_coulomb gen_occslst vec mat norb (n_alpha, n_beta) mat_alpha_beta
      (Some occ_a) (Some occ_b) σ
    = (Ok (mk_view l3 (Flat (da * db))),
       <[l3 := mk_buffer (buf_dtype bv)
           (flatten (scale_entries
              (λ i j, diag_coulomb_coeff Mh M' (occ_a !!! i) (occ_b !!! j))
              (to_rows da db (buf_data bv))))]>
         (<[l1 := mk_buffer (buf_dtype bm) (flatten Mh)]> σ)).
Proof.
  intros da db n mab Mh M' Hnorb Ha Hb Hlay Hvec Hlen Hlaym Hmat Hlenm
    Hlaym' Hmat' Hlenm'.
  set (l1 := fresh (dom σ)).
  set (σ1 := <[l1 := mk_buffer (buf_dtype bm) (flatten Mh)]> σ).
  set (l3 := fresh (dom σ1)).
  assert (Hl1 : σ !! l1 = None) by apply not_elem_of_dom, is_fresh.
  assert (Hl3 : σ1 !! l3 = None) by apply not_elem_of_dom, is_fresh.
  assert (Hne13 : l1 ≠ l3).
  { intros Heq. rewrite <- Heq in Hl3. unfold σ1 in Hl3.
    by rewrite lookup_insert_eq in Hl3. }
  assert (Hl3' : σ !! l3 = None).
  { unfold σ1 in Hl3. by rewrite lookup_insert_ne in Hl3. }
  exists l1, l3. split; [done|]. split; [done|]. split; [done|].
  assert (Hbv : σ !!! base vec = bv) by (by apply lookup_total_correct).
  assert (Hbm : σ !!! base mat = bm) by (by apply lookup_total_correct).
  assert (Hbm' : σ !!! base mab = bm') by (by apply lookup_total_correct).
  assert (Hv1 : base vec ≠ l1) by congruence.
  assert (Hv3 : base vec ≠ l3) by congruence.
  assert (Hm1 : base mab ≠ l1) by congruence.
  assert (Hm3 : base mab ≠ l3) by congruence.
  destruct (view_rows_data n n tm (buf_data bm) Hlenm) as [_ HlenM].
  destruct (view_rows_data n n tm' (buf_data bm') Hlenm') as [HrowsM' _].
  rewrite <- Hlaym in HlenM. rewrite <- Hlaym' in HrowsM'.
  assert (HMh : well_shaped n n Mh)
    by (by apply halve_diag_well_shaped, to_rows_well_shaped).
  unfold contract_diag_coulomb, occupations_or. rewrite Ha, Hb.
  fold mab da db n.
  rewrite (bind_Ok_run _ _ σ dim_a σ) by done.
  rewrite (bind_Ok_run _ _ σ dim_b σ) by done.
  rewrite (bind_Ok_run _ _ σ occ_a σ) by done.
  rewrite (bind_Ok_run _ _ σ occ_b σ) by done.
  erewrite bind_Ok_run by (unfold copy, load, alloc;
    cbv beta iota zeta delta [mbind M_bind mret M_ret]; reflexivity).
  rewrite Hbm, Hlaym. fold l1.
  erewrite bind_Ok_run.
  2:{ unfold imul_diag_half. cbn [lay]. rewrite decide_True by lia.
      unfold read_matrix, write_matrix, write_data, load.
      cbv beta iota zeta delta [mbind M_bind mret M_ret lift].
      cbn [base lay view_rows rows_data]. rewrite lookup_total_insert_eq.
      cbn [buf_data buf_dtype]. rewrite insert_insert_eq. reflexivity. }
  rewrite <- Hlaym. fold n Mh σ1.
  erewrite bind_Ok_run by (by apply (reshape_flat_run _ (da * db))).
  erewrite bind_Ok_run by (unfold zeros_like, load, alloc;
    cbv beta iota zeta delta [mbind M_bind mret M_ret]; reflexivity).
  cbn [base lay layout_size]. fold l3.
  assert (Hbv1 : σ1 !!! base vec = bv).
  { unfold σ1. by rewrite lookup_total_insert_ne. }
  rewrite Hbv1.
  erewrite bind_Ok_run.
  2:{ apply (contract_diag_coulomb_into_buffer_run _ _ _ _ _ _ _ _
              (to_rows da db (buf_data bv)) Mh M' (mzeros da db)).
      - cbn [base lay view_rows]. by rewrite lookup_total_insert_ne, Hbv1.
      - cbn [base lay view_rows]. rewrite lookup_total_insert_ne by done.
        unfold σ1. rewrite lookup_total_insert_eq. cbn [buf_data].
        by rewrite to_rows_flatten.
      - rewrite lookup_total_insert_ne by done. unfold σ1.
        rewrite lookup_total_insert_ne, Hbm' by done. exact HrowsM'.
      - cbn [base lay view_rows]. rewrite lookup_total_insert_eq. simpl.
        by rewrite to_rows_zeros. }
  cbn [base lay layout_size]. rewrite insert_insert_eq, lookup_total_insert_eq.
  cbn [buf_dtype rows_data].
  erewrite reshape_mat_run by (cbn [lay layout_size]; reflexivity).
  cbn [base]. do 4 f_equal.
  pose proof (to_rows_well_shaped da db (buf_data bv) Hlen) as HV.
  apply (mat_ext da db);
    [by apply diag_coulomb_well_shaped, mzeros_well_shaped
    |by apply scale_entries_well_shaped|].
  intros i j Hi Hj.
  rewrite (mat_at_diag_coulomb da db), mat_at_mzeros by
    (done || apply mzeros_well_shaped).
  rewrite (mat_at_scale_entries _ da db) by done. ring.
Qed.

End diag_coulomb_run.

(** ** The eigenvalue of a determinant *)

Lemma Chalf_twice x : (Chalf * x + Chalf * x)%C = x.
Proof. apply C_eq; simpl; lra. Qed.

Lemma Csum_fmap_add {A : Type} (f g : A → C) (l : list A) :
  Csum ((λ x, f x + g x)%C <$> l) = (Csum (f <$> l) + Csum (g <$> l))%C.
Proof.
  induction l as [|x l IH]; [unfold Csum; simpl; ring|].
  rewrite !fmap_cons. unfold Csum in *. cbn [foldr]. rewrite IH. ring.
Qed.

Lemma Csum_fmap_ext {A : Type} (f g : A → C) (l : list A) :
  (∀ x, x ∈ l → f x = g x) → Csum (f <$> l) = Csum (g <$> l).
Proof.
  intros H. f_equal. apply list_fmap_ext. intros i x Hx. apply H.
  by eapply list_elem_of_lookup_2.
Qed.

Lemma double_sum_cons M p rest :
  double_sum M (p :: rest) (p :: rest)
  = (mat_at M p p + Csum ((λ q, mat_at M p q) <$> rest)
     + Csum ((λ i, mat_at M i p) <$> rest) + double_sum M rest rest)%C.
Proof.
  unfold double_sum. rewrite (fmap_cons _ p rest).
  transitivity (
    (mat_at M p p + Csum ((λ q, mat_at M p q) <$> rest))
    + Csum ((λ i, mat_at M i p + Csum ((λ j, mat_at M i j) <$> rest)) <$> rest))%C.
  { reflexivity. }
  rewrite (Csum_fmap_add (λ i, mat_at M i p)
             (λ i, Csum ((λ j, mat_at M i j) <$> rest))).
  ring.
Qed.

(** With the diagonal halved, counting each unordered pair of occupied
    orbitals once is half the sum over all ordered pairs. *)
Lemma pair_sum_halved n M O :
  well_shaped n n M → symmetric n M → wf_occupation n O →
  pair_sum (halve_diag n M) O = (Chalf * double_sum M O O)%C.
Proof.
  intros HM Hsym [Hnodup Hrange].
  induction O as [|p rest IH]; [unfold double_sum; simpl; ring|].
  apply NoDup_cons in Hnodup as [Hp Hnodup].
  apply Forall_cons in Hrange as [Hpn Hrange].
  cbn [pair_sum]. rewrite IH, double_sum_cons by done.
  rewrite (mat_at_halve_diag n n n) by done. rewrite decide_True by done.
  rewrite (Csum_fmap_ext (λ q, mat_at (halve_diag n M) p q) (λ q, mat_at M p q)).
  2:{ intros q Hq. rewrite (mat_at_halve_diag n n n); [|done..|].
      - rewrite decide_False; [done|]. by intros ->.
      - by eapply Forall_forall in Hrange. }
  rewrite (Csum_fmap_ext (λ i, mat_at M i p) (λ q, mat_at M p q)).
  2:{ intros q Hq. apply Hsym; [|done]. by eapply Forall_forall in Hrange. }
  set (S := Csum ((λ q, mat_at M p q) <$> rest)).
  rewrite <- (Chalf_twice S) at 1. ring.
Qed.

Lemma diag_coulomb_coeff_eigenvalue n M M' O_alpha O_beta :
  well_shaped n n M → symmetric n M →
  wf_occupation n O_alpha → wf_occupation n O_beta →
  diag_coulomb_coeff (halve_diag n M) M' O_alpha O_beta
  = diag_coulomb_eigenvalue M M' O_alpha O_beta.
Proof.
  intros HM Hsym Ha Hb. unfold diag_coulomb_coeff, diag_coulomb_eigenvalue.
  by rewrite !(pair_sum_halved n).
Qed.

Lemma linop_apply_is_contraction_witness :
  let gen := λ _ _ : Z, Ok [[0%nat]; [1%nat]] in
  let σ : store :=
    <[0%nat := mk_buffer complex128 (basis_vector 4 1)]>
      (<[1%nat := mk_buffer float64 [RtoC 1; RtoC 2; RtoC 2; RtoC 3]]>
         (<[2%nat := mk_buffer float64 [RtoC 1; RtoC 2]]> ∅)) in
  let v := mk_view 0%nat (Flat 4) in
  let mat := mk_view 1%nat (Mat 2 2 false) in
  let coeffs := mk_view 2%nat (Flat 2) in
  (op ← diag_coulomb_to_linop gen mat 2 (1, 1) None; linop_apply_view op v) σ
  = contract_diag_coulomb gen v mat 2 (1, 1) None None None σ
  ∧ (op ← num_op_sum_to_linop gen coeffs 2 (1, 1); linop_apply_view op v) σ
    = contract_num_op_sum gen v coeffs 2 (1, 1) None None σ.
Proof.
  intros gen σ v mat coeffs.
  apply (linop_apply_is_contraction gen σ mat coeffs v 2 (1, 1) None 4);
    reflexivity.
Defined.

(** ** The dtypes of the adapters *)

Lemma result_bind_Ok_inv {A B : Type} (m : result A) (f : A → result B) b :
  m ≫= f = Ok b → ∃ a, m = Ok a ∧ f a = Ok b.
Proof. destruct m as [a|e]; [eauto|done]. Qed.

Ltac inv_rbind H :=
  let a := fresh "a" in
  let H1 := fresh "Hstep" in
  apply result_bind_Ok_inv in H as (a & H1 & H).

Section contract_2e_dtype.
Variable gen_linkstr_index : Z → Z → result link_table.

(** [contract_2e] returns an array of the dtype and shape of the vector. *)
Lemma contract_2e_dtype eri fcivec norb nelec link_index y :
  contract_2e gen_linkstr_index eri fcivec norb nelec link_index = Ok y →
  dtype_of y = dtype_of fcivec ∧ shape y = shape fcivec.
Proof.
  unfold contract_2e. destruct (split_nelec nelec) as [neleca nelecb].
  intros H. inv_rbind H. destruct a as [la lb].
  do 7 inv_rbind H. by injection H as <-.
Qed.

End contract_2e_dtype.

Lemma contract_1e_dtype h1e fcivec norb link_index y :
  contract_1e h1e fcivec norb link_index = Ok y →
  dtype_of y = float64 ∧ shape y = shape fcivec.
Proof.
  unfold contract_1e. destruct link_index as [la lb].
  repeat case_decide; try done. by intros [= <-].
Qed.

Lemma iadd_dtype r x y : iadd r x = Ok y → dtype_of y = dtype_of r.
Proof. unfold iadd. destruct (can_cast _ _); [|done]. by intros [= <-]. Qed.

Lemma isub_dtype r x y : isub r x = Ok y → dtype_of y = dtype_of r.
Proof. unfold isub. destruct (can_cast _ _); [|done]. by intros [= <-]. Qed.

(** The one-body adapter always returns a complex array. *)
Lemma one_body_matvec_dtype one_body_tensor norb link_index vec y :
  one_body_matvec one_body_tensor norb link_index vec = Ok y →
  dtype_of y = complex128.
Proof.
  unfold one_body_matvec. intros H. do 7 inv_rbind H. injection H as <-.
  apply isub_dtype in Hstep5 as ->. apply iadd_dtype in Hstep3 as ->.
  by apply iadd_dtype in Hstep1 as ->.
Qed.

Lemma triple_ro {A : Type} (P : store → Prop) (m : M A) :
  (∀ σ, (m σ).2 = σ) → triple P m (λ _, P) P.
Proof.
  intros Hro σ Hσ. specialize (Hro σ).
  destruct (m σ) as [[a|e] σ']; simpl in Hro; by subst.
Qed.

Lemma triple_ro_any {A : Type} (P : store → Prop) (m : M A) :
  (∀ σ, (m σ).2 = σ) → triple P m (λ _, P) any.
Proof.
  intros Hro σ Hσ. specialize (Hro σ).
  destruct (m σ) as [[a|e] σ']; simpl in Hro; by subst.
Qed.

Lemma read_matrix_ro v σ : (read_matrix v σ).2 = σ.
Proof.
  unfold read_matrix, load, lift. cbv beta iota zeta delta [mbind M_bind].
  by destruct (view_rows _ _).
Qed.

Lemma read_flat_ro v σ : (read_flat v σ).2 = σ.
Proof. done. Qed.

Lemma lift_ro {A : Type} (r : result A) σ : (lift r σ).2 = σ.
Proof. done. Qed.

Section dtype_tracking.
Variable σ0 : store.
Variable d : dtype.

Lemma unchanged_has_dtype v b σ :
  σ0 !! base v = Some b → buf_dtype b = d → unchanged σ0 σ → has_dtype d v σ.
Proof.
  intros Hv Hd Hσ. unfold has_dtype. by rewrite (lookup_total_correct _ _ _ (Hσ _ _ Hv)).
Qed.

Lemma reshape_dtype v new :
  triple (λ σ, unchanged σ0 σ ∧ has_dtype d v σ) (reshape v new)
    (λ v' σ, unchanged σ0 σ ∧ has_dtype d v' σ ∧ (fresh_in σ0 v → fresh_in σ0 v')) any.
Proof.
  intros σ [Hσ Hd]. unfold reshape. case_decide; [|done].
  destruct (lay v) as [n|r c [|]]; simpl; try done.
  pose proof (unchanged_fresh _ _ Hσ) as Hf.
  split; [by apply unchanged_insert|]. split; [|done].
  unfold has_dtype. simpl. by rewrite lookup_total_insert_eq.
Qed.

Lemma zeros_like_dtype v :
  triple (λ σ, unchanged σ0 σ ∧ has_dtype d v σ) (zeros_like v)
    (λ v' σ, unchanged σ0 σ ∧ has_dtype d v' σ ∧ fresh_in σ0 v') any.
Proof.
  intros σ [Hσ Hd]. simpl. pose proof (unchanged_fresh _ _ Hσ) as Hf.
  split; [by apply unchanged_insert|]. split; [|done].
  unfold has_dtype. simpl. by rewrite lookup_total_insert_eq.
Qed.

Lemma write_matrix_dtype out m :
  fresh_in σ0 out →
  triple (λ σ, unchanged σ0 σ ∧ has_dtype d out σ) (write_matrix out m)
    (λ _ σ, unchanged σ0 σ ∧ has_dtype d out σ) any.
Proof.
  intros Hout σ [Hσ Hd]. simpl. split; [by apply unchanged_insert|].
  unfold has_dtype. by rewrite lookup_total_insert_eq.
Qed.

Lemma contract_diag_coulomb_into_buffer_dtype vec mat norb mab occ_a occ_b out :
  fresh_in σ0 out →
  triple (λ σ, unchanged σ0 σ ∧ has_dtype d out σ)
    (contract_diag_coulomb_into_buffer vec mat norb mab occ_a occ_b out)
    (λ _ σ, unchanged σ0 σ ∧ has_dtype d out σ) any.
Proof.
  intros Hout. unfold contract_diag_coulomb_into_buffer.
  eapply triple_bind; [apply triple_ro_any, read_matrix_ro|]. intros v.
  eapply triple_bind; [apply triple_ro_any, read_matrix_ro|]. intros m.
  eapply triple_bind; [apply triple_ro_any, read_matrix_ro|]. intros m'.
  eapply triple_bind; [apply triple_ro_any, read_matrix_ro|]. intros o.
  by apply write_matrix_dtype.
Qed.

Lemma contract_num_op_sum_spin_into_buffer_dtype vec coeffs occ out :
  fresh_in σ0 out →
  triple (λ σ, unchanged σ0 σ ∧ has_dtype d out σ)
    (contract_num_op_sum_spin_into_buffer vec coeffs occ out)
    (λ _ σ, unchanged σ0 σ ∧ has_dtype d out σ) any.
Proof.
  intros Hout. unfold contract_num_op_sum_spin_into_buffer.
  eapply triple_bind; [apply triple_ro_any, read_matrix_ro|]. intros v.
  eapply triple_bind; [apply triple_ro_any, read_flat_ro|]. intros c.
  eapply triple_bind; [apply triple_ro_any, read_matrix_ro|]. intros o.
  by apply write_matrix_dtype.
Qed.

End dtype_tracking.

Lemma triple_pre_pure {A : Type} (F : Prop) (P : store → Prop) (m : M A)
    (Q : A → store → Prop) (E : store → Prop) :
  (∀ σ, P σ → F) → (F → triple P m Q E) → triple P m Q E.
Proof. intros HF H σ Hσ. by apply (H (HF σ Hσ)). Qed.

Lemma triple_any_exn {A : Type} (P : store → Prop) (m : M A)
    (Q : A → store → Prop) (E : store → Prop) :
  triple P m Q E → triple P m Q any.
Proof. intros H. eapply triple_weaken; [exact H|..]; auto. Qed.

Section contraction_dtype.
Variable gen_occslst : Z → Z → result (list (list nat)).

Lemma occupations_or_ro given norb nocc σ :
  (occupations_or gen_occslst given norb nocc σ).2 = σ.
Proof. by destruct given. Qed.

(** The outcome of [contract_diag_coulomb] has the dtype of the vector. *)
Lemma contract_diag_coulomb_dtype σ0 vec mat norb nelec mab occ_a occ_b b :
  σ0 !! base vec = Some b →
  triple (unchanged σ0)
    (contract_diag_coulomb gen_occslst vec mat norb nelec mab occ_a occ_b)
    (λ y σ, has_dtype (buf_dtype b) y σ) any.
Proof.
  intros Hvec. unfold contract_diag_coulomb. destruct nelec as [n_alpha n_beta].
  eapply triple_bind; [apply triple_ro_any, lift_ro|]. intros dim_a.
  eapply triple_bind; [apply triple_ro_any, lift_ro|]. intros dim_b.
  eapply triple_bind; [apply triple_ro_any, occupations_or_ro|]. intros oa.
  eapply triple_bind; [apply triple_ro_any, occupations_or_ro|]. intros ob.
  eapply triple_bind; [eapply triple_any_exn, copy_frame|]. intros mat'.
  apply triple_pure_pre. intros Hmat'.
  eapply triple_bind; [by eapply triple_any_exn, imul_diag_half_frame|]. intros [].
  eapply triple_bind.
  { eapply triple_weaken; [apply (reshape_dtype σ0 (buf_dtype b))|..]; eauto.
    intros σ Hσ. split; [done|]. by eapply unchanged_has_dtype. }
  intros vec'.
  eapply triple_bind.
  { eapply triple_weaken; [apply (zeros_like_dtype σ0 (buf_dtype b))|..]; eauto.
    simpl. tauto. }
  intros out. apply (triple_pre_pure (fresh_in σ0 out)); [tauto|]. intros Hout.
  eapply triple_bind.
  { eapply triple_weaken;
      [by apply (contract_diag_coulomb_into_buffer_dtype σ0 (buf_dtype b))|..];
      eauto. simpl. tauto. }
  intros [].
  eapply triple_weaken; [apply (reshape_dtype σ0 (buf_dtype b))|..]; eauto.
  simpl. tauto.
Qed.

(** The outcome of [contract_num_op_sum] has the dtype of the vector. *)
Lemma contract_num_op_sum_dtype σ0 vec coeffs norb nelec occ_a occ_b b :
  σ0 !! base vec = Some b →
  triple (unchanged σ0)
    (contract_num_op_sum gen_occslst vec coeffs norb nelec occ_a occ_b)
    (λ y σ, has_dtype (buf_dtype b) y σ) any.
Proof.
  intros Hvec. unfold contract_num_op_sum. destruct nelec as [n_alpha n_beta].
  eapply triple_bind; [apply triple_ro_any, occupations_or_ro|]. intros oa.
  eapply triple_bind; [apply triple_ro_any, occupations_or_ro|]. intros ob.
  eapply triple_bind; [apply triple_ro_any, lift_ro|]. intros dim_a.
  eapply triple_bind; [apply triple_ro_any, lift_ro|]. intros dim_b.
  eapply triple_bind.
  { eapply triple_weaken; [apply (reshape_dtype σ0 (buf_dtype b))|..]; eauto.
    intros σ Hσ. split; [done|]. by eapply unchanged_has_dtype. }
  intros vec'.
  eapply triple_bind.
  { eapply triple_weaken; [apply (zeros_like_dtype σ0 (buf_dtype b))|..]; eauto.
    simpl. tauto. }
  intros out. apply (triple_pre_pure (fresh_in σ0 out)); [tauto|]. intros Hout.
  assert (HoutT : fresh_in σ0 (view_T out)).
  { unfold fresh_in, view_T in *. by destruct (lay out). }
  assert (HdT : ∀ σ, has_dtype (buf_dtype b) out σ
                     ↔ has_dtype (buf_dtype b) (view_T out) σ).
  { intros σ. unfold has_dtype, view_T. by destruct (lay out). }
  eapply triple_bind.
  { eapply triple_weaken;
      [by apply (contract_num_op_sum_spin_into_buffer_dtype σ0 (buf_dtype b))|..];
      eauto. simpl. tauto. }
  intros [].
  eapply triple_bind.
  { eapply triple_weaken;
      [by apply (contract_num_op_sum_spin_into_buffer_dtype σ0 (buf_dtype b)
                   _ _ _ (view_T out))|..]; eauto.
    simpl. intros σ [? ?]. split; [done|]. by apply HdT. }
  intros [].
  eapply triple_weaken; [apply (reshape_dtype σ0 (buf_dtype b))|..]; eauto.
  - simpl. intros σ [? ?]. split; [done|]. rewrite view_T_T. by apply HdT.
  - simpl. tauto.
Qed.

End contraction_dtype.

(** C7, as stated, fails: for a float64 one-body tensor
    [one_body_tensor_to_linop] declares complex128, and applying it to a
    float64 vector gives a complex128 array. *)
Lemma one_body_linop_real_tensor_is_complex :
  let link : link_table := [[(0%nat, 0%nat, 0%nat, 1)]] in
  let tensor := mk_ndarray float64 [1; 1]%nat [C1] in
  let vec := mk_ndarray float64 [1%nat] [C1] in
  ∃ op y,
    one_body_tensor_to_linop (λ _ _, Ok link) tensor 1 (1, 1) = Ok op
    ∧ dtype_of tensor = float64
    ∧ lo_dtype op = complex128
    ∧ linop_apply op vec = Ok y
    ∧ dtype_of vec = float64
    ∧ dtype_of y = complex128.
Proof.
  intros link tensor vec. eexists _, _.
  split; [reflexivity|]. split; [reflexivity|]. split; [reflexivity|].
  split; [reflexivity|]. split; reflexivity.
Qed.

Section declared_dtypes.
Variable gen_linkstr_index : Z → Z → result link_table.
Variable gen_occslst : Z → Z → result (list (list nat)).
Variable absorb_h1e : ndarray → ndarray → Z → Z * Z → result ndarray.

Lemma diag_coulomb_to_linop_inv mat norb nelec mat_alpha_beta σ op σ' :
  diag_coulomb_to_linop gen_occslst mat norb nelec mat_alpha_beta σ = (Ok op, σ') →
  ∃ dim oa ob,
    op = mk_LinearOperator (dim, dim)
           (λ vec, contract_diag_coulomb gen_occslst vec mat norb nelec
                     mat_alpha_beta (Some oa) (Some ob))
           (λ vec, contract_diag_coulomb gen_occslst vec mat norb nelec
                     mat_alpha_beta (Some oa) (Some ob))
           (buf_dtype (σ !!! base mat))
    ∧ σ' = σ.
Proof.
  destruct nelec as [n_alpha n_beta]. unfold diag_coulomb_to_linop.
  intros H. do 4 inv_bind H.
  apply lift_Ok_inv in Hrun as [_ ->]. apply lift_Ok_inv in Hrun0 as [_ ->].
  apply lift_Ok_inv in Hrun1 as [_ ->].
  injection Hrun2 as <- <-. injection H as <- <-. by eexists _, _, _.
Qed.

Lemma num_op_sum_to_linop_inv coeffs norb nelec σ op σ' :
  num_op_sum_to_linop gen_occslst coeffs norb nelec σ = (Ok op, σ') →
  ∃ dim oa ob,
    op = mk_LinearOperator (dim, dim)
           (λ vec, contract_num_op_sum gen_occslst vec coeffs norb nelec
                     (Some oa) (Some ob))
           (λ vec, contract_num_op_sum gen_occslst vec coeffs norb nelec
                     (Some oa) (Some ob))
           (buf_dtype (σ !!! base coeffs))
    ∧ σ' = σ.
Proof.
  destruct nelec as [n_alpha n_beta]. unfold num_op_sum_to_linop.
  intros H. do 4 inv_bind H.
  apply lift_Ok_inv in Hrun as [_ ->]. apply lift_Ok_inv in Hrun0 as [_ ->].
  apply lift_Ok_inv in Hrun1 as [_ ->].
  injection Hrun2 as <- <-. injection H as <- <-. by eexists _, _, _.
Qed.

(** C7, amended. [get_hamiltonian_linop], [diag_coulomb_to_linop] and
    [num_op_sum_to_linop] declare the dtype of the tensor they are given
    ([one_body_tensor], [mat], [coeffs]), and what they return when applied
    has the dtype of the vector; [one_body_tensor_to_linop] always declares
    complex128 and its forward and adjoint applications always return a
    complex128 array. *)
Theorem adapter_dtypes (one_body_tensor two_body_tensor : ndarray)
    (mat coeffs : view) (mat_alpha_beta : option view) (norb : Z) (nelec : Z * Z)
    (σ : store) :
  (∀ op, get_hamiltonian_linop gen_linkstr_index absorb_h1e
           one_body_tensor two_body_tensor norb nelec = Ok op →
     lo_dtype op = dtype_of one_body_tensor
     ∧ ∀ v y, lo_matvec op v = Ok y → dtype_of y = dtype_of v)
  ∧ (∀ op σ', diag_coulomb_to_linop gen_occslst mat norb nelec mat_alpha_beta σ
              = (Ok op, σ') →
     lo_dtype op = buf_dtype (σ !!! base mat)
     ∧ ∀ v b σ1 y σ2, σ1 !! base v = Some b → lo_matvec op v σ1 = (Ok y, σ2) →
         buf_dtype (σ2 !!! base y) = buf_dtype b)
  ∧ (∀ op σ', num_op_sum_to_linop gen_occslst coeffs norb nelec σ = (Ok op, σ') →
     lo_dtype op = buf_dtype (σ !!! base coeffs)
     ∧ ∀ v b σ1 y σ2, σ1 !! base v = Some b → lo_matvec op v σ1 = (Ok y, σ2) →
         buf_dtype (σ2 !!! base y) = buf_dtype b)
  ∧ (∀ op, one_body_tensor_to_linop gen_linkstr_index one_body_tensor norb nelec
           = Ok op →
     lo_dtype op = complex128
     ∧ ∀ v y, lo_matvec op v = Ok y ∨ lo_rmatvec op v = Ok y →
         dtype_of y = complex128).
Proof.
  destruct nelec as [n_alpha n_beta]. repeat split.
  - unfold get_hamiltonian_linop in H. do 4 inv_rbind H. by injection H as <-.
  - unfold get_hamiltonian_linop in H. do 4 inv_rbind H. injection H as <-.
    simpl. intros v y Hy. by apply contract_2e_dtype in Hy as [? _].
  - by apply diag_coulomb_to_linop_inv in H as (dim & oa & ob & -> & _).
  - apply diag_coulomb_to_linop_inv in H as (dim & oa & ob & -> & _).
    cbn [lo_matvec]. intros v b s1 y s2 Hv Hrun'.
    pose proof (contract_diag_coulomb_dtype gen_occslst s1 v mat norb
                  (n_alpha, n_beta) mat_alpha_beta (Some oa) (Some ob) b Hv s1
                  (unchanged_refl s1)) as Hd.
    by rewrite Hrun' in Hd.
  - by apply num_op_sum_to_linop_inv in H as (dim & oa & ob & -> & _).
  - apply num_op_sum_to_linop_inv in H as (dim & oa & ob & -> & _).
    cbn [lo_matvec]. intros v b s1 y s2 Hv Hrun'.
    pose proof (contract_num_op_sum_dtype gen_occslst s1 v coeffs norb
                  (n_alpha, n_beta) (Some oa) (Some ob) b Hv s1
                  (unchanged_refl s1)) as Hd.
    by rewrite Hrun' in Hd.
  - unfold one_body_tensor_to_linop in H. do 3 inv_rbind H. by injection H as <-.
  - unfold one_body_tensor_to_linop in H. do 3 inv_rbind H. injection H as <-.
    simpl. intros v y [Hy|Hy]; by apply one_body_matvec_dtype in Hy.
Qed.

End declared_dtypes.

(** ** The complex one-body contraction from four real ones *)

Lemma foldl_rel5 {S X : Type} (R : S → S → S → S → S → Prop)
    (f0 f1 f2 f3 f4 : S → X → S) (l : list X) s0 s1 s2 s3 s4 :
  R s0 s1 s2 s3 s4 →
  (∀ s0 s1 s2 s3 s4 x, x ∈ l → R s0 s1 s2 s3 s4 →
     R (f0 s0 x) (f1 s1 x) (f2 s2 x) (f3 s3 x) (f4 s4 x)) →
  R (foldl f0 s0 l) (foldl f1 s1 l) (foldl f2 s2 l) (foldl f3 s3 l) (foldl f4 s4 l).
Proof.
  revert s0 s1 s2 s3 s4. induction l as [|x l IH]; intros s0 s1 s2 s3 s4 HR Hstep.
  - done.
  - simpl. apply IH.
    + apply Hstep; [by left|done].
    + intros. apply Hstep; [by right|done].
Qed.

(** One excitation: [s h x = s Re(h) Re(x) + i s Im(h) Re(x) + i s Re(h) Im(x)
    - s Im(h) Im(x)]. *)
Lemma excitation_split (s : Z) (h x y y1 y2 y3 y4 : C) :
  y = (y1 + Ci * y2 + Ci * y3 - y4)%C →
  (y + ZtoC s * h * x)%C
  = ((y1 + ZtoC s * RtoC (Re h) * RtoC (Re x))
     + Ci * (y2 + ZtoC s * RtoC (Im h) * RtoC (Re x))
     + Ci * (y3 + ZtoC s * RtoC (Re h) * RtoC (Im x))
     - (y4 + ZtoC s * RtoC (Im h) * RtoC (Im x)))%C.
Proof. intros ->. apply C_eq; simpl; ring. Qed.

Lemma lookup_total_fmap_C0 (f : C → C) (l : list C) k :
  f C0 = C0 → (f <$> l) !!! k = f (l !!! k).
Proof.
  intros Hf. rewrite !list_lookup_total_alt, list_lookup_fmap.
  destruct (l !! k); simpl; [done|]. by rewrite Hf.
Qed.

Lemma h1e_at_real n h a i :
  h1e_at n ((λ x, RtoC (Re x)) <$> h) a i = RtoC (Re (h1e_at n h a i)).
Proof. unfold h1e_at. by apply lookup_total_fmap_C0. Qed.

Lemma h1e_at_imag n h a i :
  h1e_at n ((λ x, RtoC (Im x)) <$> h) a i = RtoC (Im (h1e_at n h a i)).
Proof. unfold h1e_at. by apply lookup_total_fmap_C0. Qed.

Lemma mat_at_to_rows_fmap (f : C → C) r c l p q :
  f C0 = C0 → (p < r)%nat → (q < c)%nat →
  mat_at (to_rows r c (f <$> l)) p q = f (mat_at (to_rows r c l) p q).
Proof.
  intros Hf Hp Hq. rewrite !mat_at_to_rows by done. by apply lookup_total_fmap_C0.
Qed.

Lemma mat_at_lookup r c (m : matrix) p q row :
  well_shaped r c m → (q < c)%nat → m !! p = Some row →
  row !! q = Some (mat_at m p q).
Proof.
  intros Hm Hq Hrow. unfold mat_at. rewrite (list_lookup_total_correct _ _ _ Hrow).
  apply list_lookup_lookup_total_lt.
  destruct Hm as [_ Hrows]. eapply Forall_lookup_1 in Hrows; [|done]. lia.
Qed.

(** [ci1[str1, :] += k * row]. *)
Lemma alter_row_well_shaped r c (S : matrix) str1 k row :
  well_shaped r c S → length row = c →
  well_shaped r c (alter (λ old, vadd old (vscale k row)) str1 S).
Proof.
  intros [Hlen Hrows] Hrow. split; [by rewrite length_alter|].
  apply Forall_alter; [done|]. intros old Hold.
  eapply Forall_lookup_1 in Hrows; [|done].
  rewrite length_vadd, length_vscale. lia.
Qed.

Lemma mat_at_alter_row r c (S : matrix) str1 k row p q :
  well_shaped r c S → length row = c → (p < r)%nat → (q < c)%nat →
  mat_at (alter (λ old, vadd old (vscale k row)) str1 S) p q
  = if decide (p = str1) then (mat_at S p q + k * (row !!! q))%C else mat_at S p q.
Proof.
  intros HS Hrow Hp Hq.
  destruct (well_shaped_lookup r c S p HS Hp) as (old & Hold & Hlen).
  unfold mat_at at 1. destruct (decide (p = str1)) as [->|Hne].
  - erewrite (list_lookup_total_correct _ str1);
      [|by rewrite list_lookup_alter, decide_True, Hold by done].
    apply list_lookup_total_correct. unfold vadd, vscale.
    rewrite lookup_zip_with, (mat_at_lookup r c S str1 q old) by done. simpl.
    rewrite list_lookup_fmap.
    by rewrite (list_lookup_lookup_total_lt row q) by lia.
  - erewrite (list_lookup_total_correct _ p);
      [|by rewrite list_lookup_alter, decide_False, Hold by done].
    unfold mat_at. by rewrite (list_lookup_total_correct _ _ _ Hold).
Qed.

(** [ci1[:, str1] += k * ci0[:, str0]]. *)
Lemma col_step_well_shaped r c (S V : matrix) str0 str1 k :
  well_shaped r c S → well_shaped r c V →
  well_shaped r c
    (zip_with (λ row1 row0,
       match row0 !! str0 with
       | Some x => alter (λ y, y + k * x)%C str1 row1
       | None => row1
       end) S V).
Proof.
  intros [HlenS HrowsS] [HlenV _]. split; [rewrite length_zip_with; lia|].
  eapply Forall_zip_with_fst; [exact HrowsS|]. apply Forall_true.
  intros row0 row1 Hrow1. destruct (row0 !! str0); [by rewrite length_alter|done].
Qed.

Lemma mat_at_col_step r c (S V : matrix) str0 str1 k p q :
  well_shaped r c S → well_shaped r c V → (p < r)%nat → (q < c)%nat →
  mat_at (zip_with (λ row1 row0,
            match row0 !! str0 with
            | Some x => alter (λ y, y + k * x)%C str1 row1
            | None => row1
            end) S V) p q
  = if decide (str0 < c ∧ q = str1)%nat
    then (mat_at S p q + k * mat_at V p str0)%C else mat_at S p q.
Proof.
  intros HS HV Hp Hq.
  destruct (well_shaped_lookup r c S p HS Hp) as (row1 & Hrow1 & Hlen1).
  destruct (well_shaped_lookup r c V p HV Hp) as (row0 & Hrow0 & Hlen0).
  pose proof (mat_at_lookup r c S p q row1 HS Hq Hrow1) as Hx1.
  unfold mat_at at 1.
  erewrite (list_lookup_total_correct _ p);
    [|by rewrite lookup_zip_with, Hrow1, Hrow0].
  destruct (decide (str0 < c)%nat) as [Hstr0|Hstr0].
  - rewrite (mat_at_lookup r c V p str0 row0 HV Hstr0 Hrow0).
    apply list_lookup_total_correct. rewrite list_lookup_alter.
    destruct (decide (str1 = q)) as [->|Hne].
    + rewrite decide_True by done. by rewrite Hx1.
    + rewrite decide_False by (intros [_ ->]; done). done.
  - rewrite (lookup_ge_None_2 row0 str0) by lia.
    rewrite decide_False by tauto. by apply list_lookup_total_correct.
Qed.

Section one_body_passes.
Variables (n r c : nat) (h : list C) (V : matrix).
Hypothesis HV : well_shaped r c V.

Variables (hr hi : list C).
Hypothesis Hhr : hr = (λ x, RtoC (Re x)) <$> h.
Hypothesis Hhi : hi = (λ x, RtoC (Im x)) <$> h.

Variables (Vr Vi : matrix).
Hypothesis HVr : well_shaped r c Vr.
Hypothesis HVi : well_shaped r c Vi.
Hypothesis HVr_at : ∀ p q, (p < r)%nat → (q < c)%nat →
  mat_at Vr p q = RtoC (Re (mat_at V p q)).
Hypothesis HVi_at : ∀ p q, (p < r)%nat → (q < c)%nat →
  mat_at Vi p q = RtoC (Im (mat_at V p q)).

Lemma one_body_pass_a_recombined link S S1 S2 S3 S4 :
  recombined r c S S1 S2 S3 S4 →
  recombined r c (one_body_pass_a n h V link S)
    (one_body_pass_a n hr Vr link S1) (one_body_pass_a n hi Vr link S2)
    (one_body_pass_a n hr Vi link S3) (one_body_pass_a n hi Vi link S4).
Proof.
  intros HR. unfold one_body_pass_a.
  apply (foldl_rel5 (recombined r c)); [done|]. clear HR S S1 S2 S3 S4.
  intros S S1 S2 S3 S4 [str0 tab] _ HR.
  apply (foldl_rel5 (recombined r c)); [done|]. clear HR S S1 S2 S3 S4.
  intros S S1 S2 S3 S4 [[[a i] str1] sign] _
    (HS & HS1 & HS2 & HS3 & HS4 & Hat).
  destruct (decide (str0 < r)%nat) as [Hstr0|Hstr0].
  2:{ rewrite !lookup_ge_None_2; [done|destruct HVi|destruct HVr|destruct HV]; lia. }
  destruct (well_shaped_lookup r c V str0 HV Hstr0) as (row & Hr & Hrow).
  destruct (well_shaped_lookup r c Vr str0 HVr Hstr0) as (rowr & Hrr & Hrowr).
  destruct (well_shaped_lookup r c Vi str0 HVi Hstr0) as (rowi & Hri & Hrowi).
  rewrite Hr, Hrr, Hri.
  repeat (split; [by apply alter_row_well_shaped|]).
  intros p q Hp Hq. rewrite !(mat_at_alter_row r c) by done.
  destruct (decide (p = str1)) as [->|Hne]; [|by apply Hat].
  rewrite Hhr, Hhi, h1e_at_real, h1e_at_imag.
  pose proof (HVr_at str0 q Hstr0 Hq) as Hxr.
  pose proof (HVi_at str0 q Hstr0 Hq) as Hxi.
  unfold mat_at in Hxr, Hxi.
  rewrite (list_lookup_total_correct _ _ _ Hrr) in Hxr.
  rewrite (list_lookup_total_correct _ _ _ Hri) in Hxi.
  rewrite (list_lookup_total_correct _ _ _ Hr) in Hxr, Hxi.
  rewrite Hxr, Hxi. by apply excitation_split, Hat.
Qed.

Lemma one_body_pass_b_recombined link S S1 S2 S3 S4 :
  recombined r c S S1 S2 S3 S4 →
  recombined r c (one_body_pass_b n h V link S)
    (one_body_pass_b n hr Vr link S1) (one_body_pass_b n hi Vr link S2)
    (one_body_pass_b n hr Vi link S3) (one_body_pass_b n hi Vi link S4).
Proof.
  intros HR. unfold one_body_pass_b.
  apply (foldl_rel5 (recombined r c)); [done|]. clear HR S S1 S2 S3 S4.
  intros S S1 S2 S3 S4 [str0 tab] _ HR.
  apply (foldl_rel5 (recombined r c)); [done|]. clear HR S S1 S2 S3 S4.
  intros S S1 S2 S3 S4 [[[a i] str1] sign] _
    (HS & HS1 & HS2 & HS3 & HS4 & Hat).
  repeat (split; [by apply col_step_well_shaped|]).
  intros p q Hp Hq. rewrite !(mat_at_col_step r c) by done.
  destruct (decide (str0 < c ∧ q = str1)%nat) as [[Hstr0 ->]|Hne]; [|by apply Hat].
  rewrite Hhr, Hhi, h1e_at_real, h1e_at_imag.
  rewrite (HVr_at p str0 Hp Hstr0), (HVi_at p str0 Hp Hstr0).
  by apply excitation_split, Hat.
Qed.

End one_body_passes.

Lemma recombined_zeros r c :
  recombined r c (mzeros r c) (mzeros r c) (mzeros r c) (mzeros r c) (mzeros r c).
Proof.
  repeat (split; [apply mzeros_well_shaped|]).
  intros p q Hp Hq. rewrite mat_at_mzeros by done. ring.
Qed.

Lemma flatten_zip_with (f : C → C → C) r c (m1 m2 : matrix) :
  well_shaped r c m1 → well_shaped r c m2 →
  flatten (zip_with (zip_with f) m1 m2) = zip_with f (flatten m1) (flatten m2).
Proof.
  unfold flatten. intros [Hl1 Hr1] [Hl2 Hr2]. revert r m2 Hl1 Hl2 Hr2.
  induction Hr1 as [|row1 m1 Hrow1 _ IH]; intros r m2 Hl1 Hl2 Hr2.
  - by destruct m2.
  - destruct m2 as [|row2 m2]; [simpl in *; lia|].
    apply Forall_cons in Hr2 as [Hrow2 Hr2]. cbn [zip_with concat].
    rewrite zip_with_app by lia. f_equal.
    apply (IH (length m1)); [done|simpl in *; lia|done].
Qed.

Lemma zip_with_well_shaped (f : C → C → C) r c (m1 m2 : matrix) :
  well_shaped r c m1 → well_shaped r c m2 →
  well_shaped r c (zip_with (zip_with f) m1 m2).
Proof.
  intros [Hl1 Hr1] [Hl2 Hr2]. split; [rewrite length_zip_with; lia|].
  apply Forall_forall. intros row Hrow.
  apply elem_of_lookup_zip_with in Hrow as (i & x & y & -> & Hx & Hy).
  eapply Forall_lookup_1 in Hr1; [|done]. eapply Forall_lookup_1 in Hr2; [|done].
  rewrite length_zip_with. lia.
Qed.

Lemma mat_at_zip_with (f : C → C → C) r c (m1 m2 : matrix) p q :
  well_shaped r c m1 → well_shaped r c m2 → (p < r)%nat → (q < c)%nat →
  mat_at (zip_with (zip_with f) m1 m2) p q = f (mat_at m1 p q) (mat_at m2 p q).
Proof.
  intros H1 H2 Hp Hq.
  destruct (well_shaped_lookup r c m1 p H1 Hp) as (row1 & Hrow1 & Hlen1).
  destruct (well_shaped_lookup r c m2 p H2 Hp) as (row2 & Hrow2 & Hlen2).
  unfold mat_at at 1.
  erewrite (list_lookup_total_correct _ p);
    [|by rewrite lookup_zip_with, Hrow1, Hrow2].
  apply list_lookup_total_correct. rewrite lookup_zip_with.
  by rewrite (mat_at_lookup r c m1 p q row1), (mat_at_lookup r c m2 p q row2).
Qed.

(** Flattening a recombination recombines the flattened parts. *)
Lemma recombined_flatten r c S S1 S2 S3 S4 :
  recombined r c S S1 S2 S3 S4 →
  flatten S
  = vsub (vadd (vadd (flatten S1) (vscale Ci (flatten S2))) (vscale Ci (flatten S3)))
         (flatten S4).
Proof.
  intros (HS & HS1 & HS2 & HS3 & HS4 & Hat).
  unfold vsub, vadd. rewrite <- !flatten_mscale.
  pose proof (mscale_well_shaped Ci r c S2 HS2) as HS2'.
  pose proof (mscale_well_shaped Ci r c S3 HS3) as HS3'.
  pose proof (zip_with_well_shaped Cadd r c _ _ HS1 HS2') as H12.
  pose proof (zip_with_well_shaped Cadd r c _ _ H12 HS3') as H123.
  rewrite <- (flatten_zip_with Cadd r c) by done.
  rewrite <- (flatten_zip_with Cadd r c) by done.
  rewrite <- (flatten_zip_with Csub r c) by done. f_equal.
  apply (mat_ext r c); [done|by apply zip_with_well_shaped|].
  intros p q Hp Hq.
  rewrite !(mat_at_zip_with _ r c), !(mat_at_mscale _ r c) by done.
  by apply Hat.
Qed.

Lemma can_cast_complex d : can_cast d complex128 = true.
Proof. by destruct d. Qed.

(** The body of [matvec] is the decomposition, whatever the real primitive. *)
Lemma one_body_matvec_four one_body_tensor norb link_index vec :
  one_body_matvec one_body_tensor norb link_index vec
  = four_real_contractions (λ M v, contract_1e M v norb link_index)
      one_body_tensor vec.
Proof.
  unfold one_body_matvec, four_real_contractions.
  destruct (contract_1e (array_real one_body_tensor) (array_real vec) _ _)
    as [r1|e]; [|done].
  destruct (contract_1e (array_imag one_body_tensor) (array_real vec) _ _)
    as [r2|e]; [|done].
  destruct (contract_1e (array_real one_body_tensor) (array_imag vec) _ _)
    as [r3|e]; [|done].
  destruct (contract_1e (array_imag one_body_tensor) (array_imag vec) _ _)
    as [r4|e]; [|done].
  cbn. unfold isub. cbn. by rewrite can_cast_complex.
Qed.

(** Four real contractions recombined are the complex contraction. *)
Lemma four_contract_1e_apply one_body_tensor norb link_index vec :
  four_real_contractions (λ M v, contract_1e M v norb link_index) one_body_tensor vec
  = apply_one_body one_body_tensor vec norb link_index.
Proof.
  unfold four_real_contractions, contract_1e, apply_one_body.
  destruct link_index as [la lb]. cbn [array_real array_imag data dtype_of shape].
  rewrite !length_fmap.
  destruct (decide (length (data vec) = (length la * length lb)%nat)) as [Hlen|];
    [|done].
  rewrite !decide_True by done. cbn [mbind result_bind data shape]. do 2 f_equal.
  set (na := length la). set (nb := length lb). set (n := Z.to_nat norb).
  symmetry. apply (recombined_flatten na nb).
  assert (HV : well_shaped na nb (to_rows na nb (data vec)))
    by (by apply to_rows_well_shaped).
  assert (HVr : well_shaped na nb (to_rows na nb ((λ x, RtoC (Re x)) <$> data vec)))
    by (apply to_rows_well_shaped; by rewrite length_fmap).
  assert (HVi : well_shaped na nb (to_rows na nb ((λ x, RtoC (Im x)) <$> data vec)))
    by (apply to_rows_well_shaped; by rewrite length_fmap).
  apply (one_body_pass_b_recombined n na nb _ _ HV _ _ eq_refl eq_refl); try done.
  - intros p q Hp Hq. by apply (mat_at_to_rows_fmap (λ x, RtoC (Re x))).
  - intros p q Hp Hq. by apply (mat_at_to_rows_fmap (λ x, RtoC (Im x))).
  - apply (one_body_pass_a_recombined n na nb _ _ HV _ _ eq_refl eq_refl); try done.
    + intros p q Hp Hq. by apply (mat_at_to_rows_fmap (λ x, RtoC (Re x))).
    + intros p q Hp Hq. by apply (mat_at_to_rows_fmap (λ x, RtoC (Im x))).
    + apply recombined_zeros.
Qed.

Section one_body_linop.
Variable gen_linkstr_index : Z → Z → result link_table.

(** C3. The forward application of the operator built by
    [one_body_tensor_to_linop] is
    [f(Re M, Re v) + i f(Im M, Re v) + i f(Re M, Im v) - f(Im M, Im v)] for
    the real primitive [f = contract_1e], and this is the complex one-body
    operator applied to [v] directly; the adjoint application is the same
    with the conjugate transpose of [M]. *)
Theorem one_body_linop_decomposition (one_body_tensor vec : ndarray) (norb : Z)
    (nelec : Z * Z) (op : LinearOperator (ndarray → result ndarray)) :
  one_body_tensor_to_linop gen_linkstr_index one_body_tensor norb nelec = Ok op →
  ∃ link_index,
    gen_linkstr_index norb nelec.1 = Ok link_index.1
    ∧ gen_linkstr_index norb nelec.2 = Ok link_index.2
    ∧ lo_matvec op vec
      = four_real_contractions (λ M v, contract_1e M v norb link_index)
          one_body_tensor vec
    ∧ lo_matvec op vec = apply_one_body one_body_tensor vec norb link_index
    ∧ lo_rmatvec op vec
      = four_real_contractions (λ M v, contract_1e M v norb link_index)
          (array_H one_body_tensor) vec
    ∧ lo_rmatvec op vec
      = apply_one_body (array_H one_body_tensor) vec norb link_index.
Proof.
  unfold one_body_tensor_to_linop. destruct nelec as [n_alpha n_beta].
  intros H. do 3 inv_rbind H. injection H as <-.
  exists (a0, a1). cbn [fst snd lo_matvec lo_rmatvec].
  split; [done|]. split; [done|]. fold (array_H one_body_tensor).
  rewrite !one_body_matvec_four. by rewrite !four_contract_1e_apply.
Qed.

End one_body_linop.

Lemma one_body_linop_decomposition_witness :
  let link : link_table := [[(0%nat, 0%nat, 0%nat, 1)]] in
  let tensor := mk_ndarray complex128 [1; 1]%nat [Ci] in
  let vec := mk_ndarray complex128 [1%nat] [Ci] in
  ∃ op link_index,
    one_body_tensor_to_linop (λ _ _, Ok link) tensor 1 (1, 1) = Ok op
    ∧ lo_matvec op vec = apply_one_body tensor vec 1 link_index
    ∧ lo_rmatvec op vec = apply_one_body (array_H tensor) vec 1 link_index.
Proof.
  intros link tensor vec. eexists.
  destruct (one_body_linop_decomposition (λ _ _, Ok link) tensor vec 1 (1, 1) _
              eq_refl) as (li & _ & _ & _ & H2 & _ & H4).
  exists li. split; [reflexivity|]. split; [exact H2|exact H4].
Defined.

Lemma adapter_dtypes_witness :
  let link : link_table := [[(0%nat, 0%nat, 0%nat, 1)]] in
  let tensor := mk_ndarray float64 [1; 1]%nat [C1] in
  let σ : store := <[0%nat := mk_buffer float64 [C1]]> ∅ in
  ∃ op_h op_d op_1,
    get_hamiltonian_linop (λ _ _, Ok link) (λ _ t _ _, Ok t) tensor tensor 1 (1, 1)
    = Ok op_h
    ∧ lo_dtype op_h = float64
    ∧ (diag_coulomb_to_linop (λ _ _, Ok [[0%nat]]) (mk_view 0%nat (Mat 1 1 false))
         1 (1, 1) None σ).1 = Ok op_d
    ∧ lo_dtype op_d = float64
    ∧ one_body_tensor_to_linop (λ _ _, Ok link) tensor 1 (1, 1) = Ok op_1
    ∧ lo_dtype op_1 = complex128.
Proof.
  intros link tensor σ.
  destruct (adapter_dtypes (λ _ _, Ok link) (λ _ _, Ok [[0%nat]]) (λ _ t _ _, Ok t)
              tensor tensor (mk_view 0%nat (Mat 1 1 false))
              (mk_view 0%nat (Flat 1)) None 1 (1, 1) σ)
    as (Hh & Hd & _ & H1).
  eexists _, _, _.
  split; [reflexivity|]. split; [exact (proj1 (Hh _ eq_refl))|].
  split; [reflexivity|]. split; [exact (proj1 (Hd _ _ eq_refl))|].
  split; [reflexivity|]. exact (proj1 (H1 _ eq_refl)).
Defined.

(** ** The eigenvalues that the tests expect *)

Lemma Csum_app l k : Csum (l ++ k) = (Csum l + Csum k)%C.
Proof.
  unfold Csum. induction l as [|x l IH]; simpl; [ring|]. rewrite IH. ring.
Qed.

Lemma Csum_Permutation l k : l ≡ₚ k → Csum l = Csum k.
Proof.
  unfold Csum. induction 1 as [|x l k _ IH|x y l|l k m _ IH1 _ IH2]; simpl.
  - done.
  - by rewrite IH.
  - ring.
  - by rewrite IH1.
Qed.

Lemma Csum_fmap_scale {A : Type} (c : C) (f : A → C) (l : list A) :
  Csum ((λ x, c * f x)%C <$> l) = (c * Csum (f <$> l))%C.
Proof.
  induction l as [|x l IH]; [unfold Csum; simpl; ring|].
  rewrite !fmap_cons. unfold Csum in *. cbn [foldr]. rewrite IH. ring.
Qed.

Lemma Csum_fmap_zero {A : Type} (l : list A) : Csum ((λ _, C0) <$> l) = C0.
Proof.
  induction l as [|x l IH]; [done|].
  rewrite fmap_cons. unfold Csum in *. cbn [foldr]. rewrite IH. ring.
Qed.

(** A sum restricted by a test is the sum over the elements that pass it. *)
Lemma Csum_filter {A : Type} (P : A → Prop) `{∀ x, Decision (P x)} (f : A → C) l :
  Csum ((λ x, if decide (P x) then f x else C0) <$> l) = Csum (f <$> filter P l).
Proof.
  induction l as [|x l IH]; [done|].
  rewrite fmap_cons, filter_cons. unfold Csum in *. cbn [foldr]. rewrite IH.
  destruct (decide (P x)); [done|]. ring.
Qed.

(** A sum over [range(n)] restricted to the occupied orbitals is the sum over
    the occupation list. *)
Lemma Csum_occupied n (O : list nat) (f : nat → C) :
  wf_occupation n O →
  Csum ((λ i, if decide (i ∈ O) then f i else C0) <$> seq 0 n) = Csum (f <$> O).
Proof.
  intros [Hnodup Hrange]. rewrite (Csum_filter (λ i, i ∈ O)).
  apply Csum_Permutation, fmap_Permutation, NoDup_Permutation.
  - apply NoDup_filter, NoDup_seq.
  - done.
  - intros i. rewrite list_elem_of_filter, elem_of_seq. split; [tauto|].
    intros Hi. split; [done|]. eapply Forall_forall in Hrange; [|done]. lia.
Qed.

Lemma foldl_add_Csum {X : Type} (f : C → X → C) (g : X → C) (l : list X) (a : C) :
  (∀ acc x, f acc x = (acc + g x)%C) →
  foldl f a l = (a + Csum (g <$> l))%C.
Proof.
  intros Hf. revert a. induction l as [|x l IH]; intros a.
  - unfold Csum. simpl. ring.
  - rewrite fmap_cons. cbn [foldl]. rewrite IH, Hf. unfold Csum. cbn [foldr]. ring.
Qed.

Lemma Csum_list_prod {X Y : Type} (g : X * Y → C) (l : list X) (k : list Y) :
  Csum (g <$> list_prod l k) = Csum ((λ i, Csum ((λ j, g (i, j)) <$> k)) <$> l).
Proof.
  induction l as [|x l IH]; [done|].
  cbn [list_prod]. rewrite fmap_app, Csum_app, IH, fmap_cons.
  unfold Csum at 4. cbn [foldr]. f_equal.
  f_equal. rewrite <- list_fmap_compose. done.
Qed.

Lemma Csum_swap {X Y : Type} (f : X → Y → C) (l : list X) (k : list Y) :
  Csum ((λ i, Csum ((λ j, f i j) <$> k)) <$> l)
  = Csum ((λ j, Csum ((λ i, f i j) <$> l)) <$> k).
Proof.
  induction l as [|x l IH].
  - simpl. by rewrite Csum_fmap_zero.
  - rewrite fmap_cons. unfold Csum at 1. cbn [foldr]. fold (Csum).
    change (foldr Cadd C0 ?l) with (Csum l). rewrite IH.
    rewrite <- Csum_fmap_add. f_equal.
Qed.

Lemma half_double_sum_occupied n X A B :
  wf_occupation n A → wf_occupation n B →
  Csum ((λ p : nat * nat,
           if decide (p.1 ∈ A ∧ p.2 ∈ B) then (Chalf * mat_at X p.1 p.2)%C else C0)
        <$> list_prod (seq 0 n) (seq 0 n))
  = (Chalf * double_sum X A B)%C.
Proof.
  intros HA HB. rewrite Csum_list_prod. cbn [fst snd].
  rewrite (Csum_fmap_ext _
    (λ i, if decide (i ∈ A)
          then (Chalf * Csum ((λ j, mat_at X i j) <$> B))%C else C0)).
  2:{ intros i _. destruct (decide (i ∈ A)) as [Hi|Hi].
      - rewrite <- Csum_fmap_scale, <- (Csum_occupied n B) by done.
        apply Csum_fmap_ext. intros j _.
        destruct (decide (j ∈ B)).
        + by rewrite decide_True.
        + by rewrite decide_False by tauto.
      - transitivity (Csum ((λ _ : nat, C0) <$> seq 0 n)); [|apply Csum_fmap_zero].
        apply Csum_fmap_ext. intros j _. rewrite decide_False; [done|tauto]. }
  rewrite (Csum_occupied n A) by done. unfold double_sum.
  by rewrite <- Csum_fmap_scale.
Qed.

Lemma double_sum_sym n X A B :
  symmetric n X → wf_occupation n A → wf_occupation n B →
  double_sum X B A = double_sum X A B.
Proof.
  intros Hsym [_ HA] [_ HB]. unfold double_sum. rewrite Csum_swap.
  apply Csum_fmap_ext. intros i Hi. apply Csum_fmap_ext. intros j Hj.
  apply Hsym; [eapply Forall_forall in HB|eapply Forall_forall in HA]; done.
Qed.

(** The eigenvalue that [test_contract_diag_coulomb] expects is the
    eigenvalue of the specification (the test draws a symmetric cross-spin
    matrix). *)
Lemma test_diag_coulomb_eig_eigenvalue n M M' O_alpha O_beta :
  symmetric n M' → wf_occupation n O_alpha → wf_occupation n O_beta →
  test_diag_coulomb_eig n M M' (O_alpha, O_beta)
  = diag_coulomb_eigenvalue M M' O_alpha O_beta.
Proof.
  intros Hsym Ha Hb. unfold test_diag_coulomb_eig.
  rewrite (foldl_add_Csum _ (λ p : nat * nat,
    (if decide (p.1 ∈ O_alpha ∧ p.2 ∈ O_alpha)
     then Chalf * mat_at M p.1 p.2 else C0)
    + ((if decide (p.1 ∈ O_alpha ∧ p.2 ∈ O_beta)
        then Chalf * mat_at M' p.1 p.2 else C0)
       + ((if decide (p.1 ∈ O_beta ∧ p.2 ∈ O_alpha)
           then Chalf * mat_at M' p.1 p.2 else C0)
          + (if decide (p.1 ∈ O_beta ∧ p.2 ∈ O_beta)
             then Chalf * mat_at M p.1 p.2 else C0))))%C).
  2:{ intros acc [i j]. cbn [list_prod seq foldl app map fst snd].
      change (occupied (O_alpha, O_beta) 0) with O_alpha.
      change (occupied (O_alpha, O_beta) 1) with O_beta.
      change (decide (0%nat = 0%nat)) with (left (B := 0%nat ≠ 0%nat) (eq_refl 0%nat)).
      change (decide (1%nat = 1%nat)) with (left (B := 1%nat ≠ 1%nat) (eq_refl 1%nat)).
      rewrite !(decide_False (P := 0%nat = 1%nat)) by done.
      rewrite !(decide_False (P := 1%nat = 0%nat)) by done.
      repeat (destruct (decide _)); ring. }
  rewrite !Csum_fmap_add, !(half_double_sum_occupied n) by done.
  unfold diag_coulomb_eigenvalue. rewrite (double_sum_sym n M' O_alpha O_beta) by done.
  rewrite <- (Chalf_twice (double_sum M' O_alpha O_beta)) at 3. ring.
Qed.

(** The eigenvalue that [test_contract_num_op_sum] expects counts each spin
    sector. *)
Lemma test_num_op_eig_eigenvalue n c O_alpha O_beta :
  wf_occupation n O_alpha → wf_occupation n O_beta →
  test_num_op_eig n c (O_alpha, O_beta) = num_op_eigenvalue c O_alpha O_beta.
Proof.
  intros Ha Hb. unfold test_num_op_eig.
  rewrite (foldl_add_Csum _ (λ i,
    (if decide (i ∈ O_alpha) then c !!! i else C0)
    + (if decide (i ∈ O_beta) then c !!! i else C0))%C).
  2:{ intros acc i. cbn [seq foldl].
      change (occupied (O_alpha, O_beta) 0) with O_alpha.
      change (occupied (O_alpha, O_beta) 1) with O_beta.
      repeat (destruct (decide _)); ring. }
  rewrite Csum_fmap_add, !(Csum_occupied n) by done.
  unfold num_op_eigenvalue, orbital_sum. ring.
Qed.

(** ** [contract_diag_coulomb] on a single determinant *)

Section diag_coulomb_determinant.
Variable gen_occslst : Z → Z → result (list (list nat)).

(** C1. For a symmetric [norb] by [norb] matrix [M] and a cross-spin matrix
    [M'], on the CI vector of the single determinant with occupied orbitals
    [O_alpha] and [O_beta], [contract_diag_coulomb] returns that vector
    scaled by
    [0.5 sum_{i,j in O_alpha} M[i,j] + 0.5 sum_{i,j in O_beta} M[i,j]
     + sum_{i in O_alpha, j in O_beta} M'[i,j]];
    the code halves the diagonal of a copy of [M] before the kernel counts
    each unordered same-spin pair once, and [M'] is [M] itself when
    [mat_alpha_beta] is not supplied.  For a symmetric [M'] this eigenvalue
    is the one [test_contract_diag_coulomb] computes. *)
Theorem contract_diag_coulomb_determinant (σ : store) (vec mat : view)
    (norb n_alpha n_beta : Z) (mat_alpha_beta : option view) (dim_a dim_b : Z)
    (occ_a occ_b : list (list nat)) (ia ib : nat) (dt : dtype) (bm bm' : buffer)
    (tm tm' : bool) (M M' : matrix) (O_alpha O_beta : list nat) :
  let da := Z.to_nat dim_a in
  let db := Z.to_nat dim_b in
  let n := Z.to_nat norb in
  let e := basis_vector (da * db) (ia * db + ib) in
  let mab := default mat mat_alpha_beta in
  0 ≤ norb →
  comb norb n_alpha = Ok dim_a → comb norb n_beta = Ok dim_b →
  gen_occslst norb n_alpha = Ok occ_a → gen_occslst norb n_beta = Ok occ_b →
  occ_a !! ia = Some O_alpha → occ_b !! ib = Some O_beta →
  wf_occupation n O_alpha → wf_occupation n O_beta →
  (ia < da)%nat → (ib < db)%nat →
  lay vec = Flat (da * db) → σ !! base vec = Some (mk_buffer dt e) →
  lay mat = Mat n n tm → σ !! base mat = Some bm →
  length (buf_data bm) = (n * n)%nat →
  view_rows (lay mat) (buf_data bm) = Ok M → symmetric n M →
  lay mab = Mat n n tm' → σ !! base mab = Some bm' →
  length (buf_data bm') = (n * n)%nat →
  view_rows (lay mab) (buf_data bm') = Ok M' →
  (mat_alpha_beta = None → M' = M)
  ∧ (symmetric n M' →
     diag_coulomb_eigenvalue M M' O_alpha O_beta
     = test_diag_coulomb_eig n M M' (O_alpha, O_beta))
  ∧ ∃ y σ',
      contract_diag_coulomb gen_occslst vec mat norb (n_alpha, n_beta)
        mat_alpha_beta None None σ = (Ok y, σ')
      ∧ lay y = Flat (da * db)
      ∧ σ' !! base y
        = Some (mk_buffer dt
                  (vscale (diag_coulomb_eigenvalue M M' O_alpha O_beta) e)).
Proof.
  intros da db n e mab Hnorb Ha Hb Hoa Hob HOa HOb HwfA HwfB Hia Hib
    Hlay Hvec Hlaym Hmat Hlenm HM Hsym Hlaym' Hmat' Hlenm' HM'.
  split.
  { intros ->. simpl in mab. subst mab. congruence. }
  split.
  { intros Hsym'. symmetry. by apply test_diag_coulomb_eig_eigenvalue. }
  assert (Hrun : contract_diag_coulomb gen_occslst vec mat norb (n_alpha, n_beta)
                   mat_alpha_beta None None σ
                 = contract_diag_coulomb gen_occslst vec mat norb (n_alpha, n_beta)
                     mat_alpha_beta (Some occ_a) (Some occ_b) σ).
  { unfold contract_diag_coulomb, occupations_or. by rewrite Hoa, Hob. }
  rewrite Hrun.
  destruct (contract_diag_coulomb_run gen_occslst σ vec mat norb n_alpha n_beta
              mat_alpha_beta occ_a occ_b dim_a dim_b (mk_buffer dt e) bm bm' tm tm')
    as (l1 & l3 & Hl1 & Hl3 & Hne & ->); try done.
  { apply basis_vector_length. }
  eexists _, _. split; [done|]. split; [done|].
  cbn [base buf_dtype buf_data]. rewrite lookup_insert_eq. do 2 f_equal.
  fold da db n e mab. unfold e. rewrite scale_entries_basis by done.
  rewrite (list_lookup_total_correct _ _ _ HOa), (list_lookup_total_correct _ _ _ HOb).
  destruct (view_rows_data n n tm (buf_data bm) Hlenm) as [HrM HlenM].
  destruct (view_rows_data n n tm' (buf_data bm') Hlenm') as [HrM' _].
  rewrite <- Hlaym in HrM, HlenM. rewrite <- Hlaym' in HrM'.
  rewrite HM in HrM. rewrite HM' in HrM'.
  injection HrM as HrM. injection HrM' as HrM'. rewrite <- HrM, <- HrM'.
  rewrite (diag_coulomb_coeff_eigenvalue n); [done| |done..].
  rewrite HrM. by apply to_rows_well_shaped.
Qed.

End diag_coulomb_determinant.

Lemma contract_diag_coulomb_determinant_witness :
  let gen := λ _ _ : Z, Ok [[0%nat]; [1%nat]] in
  let Mdata := [RtoC 1; RtoC 2; RtoC 2; RtoC 3] in
  let M := [[RtoC 1; RtoC 2]; [RtoC 2; RtoC 3]] in
  let e := basis_vector 4 1 in
  let σ : store :=
    <[0%nat := mk_buffer complex128 e]> (<[1%nat := mk_buffer float64 Mdata]> ∅) in
  ∃ y σ',
    contract_diag_coulomb gen (mk_view 0%nat (Flat 4)) (mk_view 1%nat (Mat 2 2 false))
      2 (1, 1) None None None σ = (Ok y, σ')
    ∧ lay y = Flat 4
    ∧ σ' !! base y
      = Some (mk_buffer complex128
                (vscale (diag_coulomb_eigenvalue M M [0%nat] [1%nat]) e)).
Proof.
  intros gen Mdata M e σ.
  apply (contract_diag_coulomb_determinant gen σ (mk_view 0%nat (Flat 4))
           (mk_view 1%nat (Mat 2 2 false)) 2 1 1 None 2 2
           [[0%nat]; [1%nat]] [[0%nat]; [1%nat]] 0 1 complex128
           (mk_buffer float64 Mdata) (mk_buffer float64 Mdata) false false
           M M [0%nat] [1%nat]);
    try reflexivity; try (simpl; lia).
  - split; [apply NoDup_singleton|]. repeat constructor; simpl; lia.
  - split; [apply NoDup_singleton|]. repeat constructor; simpl; lia.
  - intros i j Hi Hj. simpl in Hi, Hj.
    destruct i as [|[|i]], j as [|[|j]]; try lia; reflexivity.
Defined.

(** ** [contract_num_op_sum] on a single determinant *)

Section num_op_sum_determinant.
Variable gen_occslst : Z → Z → result (list (list nat)).

Lemma contract_num_op_sum_basis σ vec coeffs norb n_alpha n_beta dim_a dim_b
    occ_a occ_b ia ib dt dtc c O_alpha O_beta :
  let da := Z.to_nat dim_a in
  let db := Z.to_nat dim_b in
  let e := basis_vector (da * db) (ia * db + ib) in
  comb norb n_alpha = Ok dim_a → comb norb n_beta = Ok dim_b →
  gen_occslst norb n_alpha = Ok occ_a → gen_occslst norb n_beta = Ok occ_b →
  occ_a !! ia = Some O_alpha → occ_b !! ib = Some O_beta →
  (ia < da)%nat → (ib < db)%nat →
  lay vec = Flat (da * db) → σ !! base vec = Some (mk_buffer dt e) →
  lay coeffs = Flat (length c) → σ !! base coeffs = Some (mk_buffer dtc c) →
  ∃ y σ',
    contract_num_op_sum gen_occslst vec coeffs norb (n_alpha, n_beta) None None σ
    = (Ok y, σ')
    ∧ lay y = Flat (da * db)
    ∧ σ' !! base y = Some (mk_buffer dt (vscale (num_op_eigenvalue c O_alpha O_beta) e)).
Proof.
  intros da db e Ha Hb Hoa Hob HOa HOb Hia Hib Hlay Hvec Hlayc Hcoeffs.
  assert (Hrun : contract_num_op_sum gen_occslst vec coeffs norb (n_alpha, n_beta)
                   None None σ
                 = contract_num_op_sum gen_occslst vec coeffs norb (n_alpha, n_beta)
                     (Some occ_a) (Some occ_b) σ).
  { unfold contract_num_op_sum, occupations_or. by rewrite Hoa, Hob. }
  rewrite Hrun.
  erewrite contract_num_op_sum_run; [|done..|apply basis_vector_length|done].
  eexists _, _. split; [done|]. split; [done|].
  cbn [base buf_dtype buf_data]. rewrite lookup_insert_eq. do 2 f_equal.
  fold da db e. unfold e. rewrite scale_entries_basis by done.
  rewrite Hlayc. cbn [view_data].
  rewrite (list_lookup_total_correct _ _ _ HOa), (list_lookup_total_correct _ _ _ HOb).
  done.
Qed.

(** C2. On the CI vector of a single determinant with occupied orbitals
    [O_alpha] and [O_beta], [contract_num_op_sum] returns that vector scaled
    by the sum of [c[i]] over the occupied spin orbitals,
    [sum_{i in O_alpha} c[i] + sum_{i in O_beta} c[i]] (the alpha and the
    beta orbital of one index are two spin orbitals, each sector is summed on
    its own axis), with no pairwise terms.  This is the eigenvalue
    [test_contract_num_op_sum] computes. *)
Theorem contract_num_op_sum_determinant (σ : store) (vec coeffs : view)
    (norb n_alpha n_beta dim_a dim_b : Z) (occ_a occ_b : list (list nat))
    (ia ib : nat) (dt dtc : dtype) (c : list C) (O_alpha O_beta : list nat) :
  let da := Z.to_nat dim_a in
  let db := Z.to_nat dim_b in
  let e := basis_vector (da * db) (ia * db + ib) in
  comb norb n_alpha = Ok dim_a → comb norb n_beta = Ok dim_b →
  gen_occslst norb n_alpha = Ok occ_a → gen_occslst norb n_beta = Ok occ_b →
  occ_a !! ia = Some O_alpha → occ_b !! ib = Some O_beta →
  (ia < da)%nat → (ib < db)%nat →
  lay vec = Flat (da * db) → σ !! base vec = Some (mk_buffer dt e) →
  lay coeffs = Flat (length c) → σ !! base coeffs = Some (mk_buffer dtc c) →
  (wf_occupation (Z.to_nat norb) O_alpha → wf_occupation (Z.to_nat norb) O_beta →
   (orbital_sum c O_alpha + orbital_sum c O_beta)%C
   = test_num_op_eig (Z.to_nat norb) c (O_alpha, O_beta))
  ∧ ∃ y σ',
      contract_num_op_sum gen_occslst vec coeffs norb (n_alpha, n_beta) None None σ
      = (Ok y, σ')
      ∧ lay y = Flat (da * db)
      ∧ σ' !! base y
        = Some (mk_buffer dt
                  (vscale (orbital_sum c O_alpha + orbital_sum c O_beta)%C e)).
Proof.
  intros. split; [|by eapply contract_num_op_sum_basis].
  intros. symmetry. by apply test_num_op_eig_eigenvalue.
Qed.

End num_op_sum_determinant.

Lemma contract_num_op_sum_determinant_witness :
  let gen := λ _ _ : Z, Ok [[0%nat]; [1%nat]] in
  let c := [RtoC 5; RtoC 7] in
  let σ : store :=
    <[0%nat := mk_buffer complex128 (basis_vector 4 1)]>
      (<[1%nat := mk_buffer float64 c]> ∅) in
  ∃ y σ',
    contract_num_op_sum gen (mk_view 0%nat (Flat 4)) (mk_view 1%nat (Flat 2))
      2 (1, 1) None None σ = (Ok y, σ')
    ∧ lay y = Flat 4
    ∧ σ' !! base y
      = Some (mk_buffer complex128
                (vscale (orbital_sum c [0%nat] + orbital_sum c [1%nat])%C
                   (basis_vector 4 1))).
Proof.
  intros gen c σ.
  apply (contract_num_op_sum_determinant gen σ (mk_view 0%nat (Flat 4))
           (mk_view 1%nat (Flat 2)) 2 1 1 2 2 [[0%nat]; [1%nat]] [[0%nat]; [1%nat]]
           0 1 complex128 float64 c [0%nat] [1%nat]);
    try reflexivity; simpl; lia.
Defined.

(** * Further properties of the code *)

(** ** Dimensions *)

Lemma binom_pos (n k : nat) : (k ≤ n)%nat → (0 < binom n k)%nat.
Proof.
  intros H. pose proof (binom_fact n k H) as Hf.
  pose proof (fact_neq_0 n). destruct (binom n k); lia.
Qed.

Lemma comb_pos_iff (N k d : Z) : comb N k = Ok d → (0 < d ↔ 0 ≤ k ≤ N).
Proof.
  intros Hc. destruct (decide (0 ≤ k ≤ N)) as [H|H].
  - rewrite comb_nat in Hc by done. injection Hc as <-.
    pose proof (binom_pos (Z.to_nat N) (Z.to_nat k) ltac:(lia)). lia.
  - rewrite comb_out_of_range in Hc by lia. injection Hc as <-. lia.
Qed.

(** X1. [get_dimension] returns for all integers, a non-negative number that
    is positive exactly when both particle numbers lie between 0 and [norb]. *)
Theorem get_dimension_positive_iff (norb n_alpha n_beta : Z) :
  ∃ dim, get_dimension norb (n_alpha, n_beta) = Ok dim
    ∧ 0 ≤ dim
    ∧ (0 < dim ↔ 0 ≤ n_alpha ≤ norb ∧ 0 ≤ n_beta ≤ norb).
Proof.
  destruct (comb_returns norb n_alpha) as (da & Ha & Hda).
  destruct (comb_returns norb n_beta) as (db & Hb & Hdb).
  exists (da * db). unfold get_dimension. rewrite Ha, Hb. simpl.
  split; [done|]. split; [lia|].
  pose proof (comb_pos_iff _ _ _ Ha). pose proof (comb_pos_iff _ _ _ Hb).
  split; [intros; split; nia|intros; nia].
Qed.

Lemma comb_sym (N k : Z) : comb N (N - k) = comb N k.
Proof.
  destruct (decide (0 ≤ k ≤ N)) as [H|H].
  - rewrite !comb_nat by lia. do 2 f_equal.
    replace (Z.to_nat (N - k)) with (Z.to_nat N - Z.to_nat k)%nat by lia.
    apply binom_sym. lia.
  - rewrite !comb_out_of_range by lia. done.
Qed.

(** X2. Particle-hole symmetry of the dimension: replacing each particle
    number [n] by [norb - n] leaves [get_dimension] unchanged, for all
    integers (out of range both sides are 0). *)
Theorem get_dimension_particle_hole (norb n_alpha n_beta : Z) :
  get_dimension norb (norb - n_alpha, norb - n_beta)
  = get_dimension norb (n_alpha, n_beta).
Proof. unfold get_dimension. by rewrite !comb_sym. Qed.

Lemma comb_pascal (N k : Z) (a b : Z) :
  1 ≤ N → 0 ≤ k ≤ N →
  comb (N - 1) (k - 1) = Ok a → comb (N - 1) k = Ok b → comb N k = Ok (a + b).
Proof.
  intros HN Hk Ha Hb.
  rewrite comb_nat by lia.
  destruct (decide (k = 0)) as [->|Hk0].
  - rewrite comb_out_of_range in Ha by lia. rewrite comb_nat in Hb by lia.
    injection Ha as <-. injection Hb as <-.
    change (Z.to_nat 0) with 0%nat. by destruct (Z.to_nat N), (Z.to_nat (N - 1)).
  - rewrite comb_nat in Ha by lia.
    injection Ha as <-.
    destruct (decide (k = N)) as [->|HkN].
    + rewrite comb_out_of_range in Hb by lia. injection Hb as <-.
      rewrite !binom_diag. f_equal.
    + rewrite comb_nat in Hb by lia. injection Hb as <-.
      replace (Z.to_nat N) with (S (Z.to_nat (N - 1))) by lia.
      remember (Z.to_nat (N - 1)) as n'. remember (Z.to_nat (k - 1)) as k'.
      replace (Z.to_nat k) with (S k') by lia.
      cbn [binom]. by rewrite Nat2Z.inj_add.
Qed.

Section orbital_rotation_props.
Variable gen_linkstr_index : Z → Z → result link_table.
Variable np_empty : list Z → result (list nat).

(** X3. For [1 ≤ norb] and [0 ≤ nocc ≤ norb], whenever
    [gen_orbital_rotation_index] gets through its allocations ([np.empty]
    giving arrays of the shapes asked for), it has allocated [norb] rows of
    [dim_diag = comb(norb - 1, nocc - 1)] diagonal and
    [dim_off_diag = comb(norb - 1, nocc)] off-diagonal strings, and the two
    counts add up to the number of all strings [comb(norb, nocc)]; at
    [nocc = 0] there is no diagonal string and at [nocc = norb] no
    off-diagonal one. *)
Theorem gen_orbital_rotation_index_partition (norb nocc : Z)
    (linkstr_index : option link_table) (l : link_table)
    (diag_strings off_diag_strings off_diag_index off_diag_strings_index : list nat) :
  (∀ dims sh, np_empty dims = Ok sh → sh = Z.to_nat <$> dims) →
  1 ≤ norb → 0 ≤ nocc ≤ norb →
  gen_orbital_rotation_index_buffers gen_linkstr_index np_empty norb nocc linkstr_index
  = Ok (l, (diag_strings, off_diag_strings, off_diag_index, off_diag_strings_index)) →
  ∃ dim_diag dim_off_diag,
    comb (norb - 1) (nocc - 1) = Ok dim_diag
    ∧ comb (norb - 1) nocc = Ok dim_off_diag
    ∧ diag_strings = [Z.to_nat norb; Z.to_nat dim_diag]
    ∧ off_diag_strings = [Z.to_nat norb; Z.to_nat dim_off_diag]
    ∧ off_diag_index = [Z.to_nat norb; Z.to_nat dim_off_diag; Z.to_nat nocc; 3%nat]
    ∧ off_diag_strings_index = [Z.to_nat norb; Z.to_nat (dim_diag + dim_off_diag)]
    ∧ 0 ≤ dim_diag ∧ 0 ≤ dim_off_diag
    ∧ comb norb nocc = Ok (dim_diag + dim_off_diag)
    ∧ (nocc = 0 → dim_diag = 0 ∧ dim_off_diag = 1)
    ∧ (nocc = norb → dim_diag = 1 ∧ dim_off_diag = 0).
Proof.
  intros Hempty Hn Hk H.
  destruct (comb_returns (norb - 1) (nocc - 1)) as (dd & Hdd & Hdd0).
  destruct (comb_returns (norb - 1) nocc) as (do & Hdo & Hdo0).
  unfold gen_orbital_rotation_index_buffers in H. rewrite Hdd, Hdo in H.
  apply result_bind_Ok_inv in H as (l' & _ & H). cbn [mbind result_bind] in H.
  apply result_bind_Ok_inv in H as (s1 & H1 & H).
  apply result_bind_Ok_inv in H as (s2 & H2 & H).
  apply result_bind_Ok_inv in H as (s3 & H3 & H).
  apply result_bind_Ok_inv in H as (s4 & H4 & H).
  injection H as _ <- <- <- <-.
  apply Hempty in H1, H2, H3, H4. subst s1 s2 s3 s4.
  exists dd, do. do 6 (split; [done|]). split; [done|]. split; [done|].
  pose proof (comb_pascal norb nocc dd do Hn Hk Hdd Hdo) as Hp.
  split; [done|]. split.
  - intros ->. rewrite comb_out_of_range in Hdd by lia.
    rewrite comb_nat in Hdo by lia. injection Hdd as <-. injection Hdo as <-.
    split; [done|]. change (Z.to_nat 0) with 0%nat. by destruct (Z.to_nat (norb - 1)).
  - intros ->. rewrite comb_out_of_range in Hdo by lia.
    rewrite comb_nat in Hdd by lia. injection Hdd as <-. injection Hdo as <-.
    rewrite binom_diag. done.
Qed.

End orbital_rotation_props.

Lemma gen_orbital_rotation_index_partition_witness :
  let np_empty := λ dims : list Z,
    if decide (Forall (λ d, 0 ≤ d < 2 ^ 63) dims) then Ok (Z.to_nat <$> dims)
    else Raise ValueError in
  ∃ l shapes dim_diag dim_off_diag,
    gen_orbital_rotation_index_buffers (λ _ _, Ok []) np_empty 4 2 None
    = Ok (l, shapes)
    ∧ shapes = ([4%nat; Z.to_nat dim_diag], [4%nat; Z.to_nat dim_off_diag],
                [4%nat; Z.to_nat dim_off_diag; 2%nat; 3%nat],
                [4%nat; Z.to_nat (dim_diag + dim_off_diag)])
    ∧ comb 4 2 = Ok (dim_diag + dim_off_diag).
Proof.
  intros np_empty.
  assert (Hempty : ∀ dims sh, np_empty dims = Ok sh → sh = Z.to_nat <$> dims).
  { intros dims sh. unfold np_empty. case_decide; [|done]. by intros [= <-]. }
  assert (Hrun : gen_orbital_rotation_index_buffers (λ _ _, Ok []) np_empty 4 2 None
                 = Ok ([], ([4; 3], [4; 3], [4; 3; 2; 3], [4; 6])%nat))
    by (vm_compute; reflexivity).
  destruct (gen_orbital_rotation_index_partition (λ _ _, Ok []) np_empty 4 2 None
              _ _ _ _ _ Hempty ltac:(lia) ltac:(lia) Hrun)
    as (dd & do & _ & _ & Hs1 & Hs2 & Hs3 & Hs4 & _ & _ & Hc & _).
  eexists _, _, dd, do. split; [exact Hrun|]. split; [|exact Hc].
  injection Hs1 as E1. injection Hs2 as E2. injection Hs4 as E4.
  by rewrite <- E1, <- E2, <- E4.
Defined.

(** ** [contract_2e]: shapes along every run that returns *)

(** What a loop's body keeps when it returns, the loop keeps when it
    returns. *)
Lemma for_each_post {A S : Type} (P : S → Prop) (l : list A)
    (body : S → A → result S) (s s' : S) :
  P s →
  (∀ s x s', P s → body s x = Ok s' → P s') →
  for_each l body s = Ok s' → P s'.
Proof.
  intros Hs Hbody. revert s Hs.
  induction l as [|x l IH]; intros s Hs; simpl.
  - by intros [= <-].
  - intros H. apply result_bind_Ok_inv in H as (s1 & H1 & H). eauto.
Qed.

Lemma get_row_inv r c (m : matrix) i row :
  well_shaped r c m → get_row m i = Ok row →
  (i < r)%nat ∧ length row = c ∧ m !! i = Some row.
Proof.
  intros [Hlen Hrows]. unfold get_row.
  destruct (m !! i) as [row'|] eqn:E; [|done]. intros [= <-].
  split; [apply lookup_lt_Some in E; lia|].
  split; [|done]. eapply Forall_lookup_1 in Hrows; eauto.
Qed.

Lemma get_block_inv n na nb t1 a i blk :
  t1_shaped n na nb t1 → get_block t1 a i = Ok blk →
  (a < n)%nat ∧ (i < n)%nat ∧ well_shaped na nb blk.
Proof.
  intros [Hlen Hall]. unfold get_block.
  destruct (t1 !! a) as [ta|] eqn:Ea; [|done].
  destruct (ta !! i) as [m|] eqn:Ei; [|done]. intros [= <-].
  eapply Forall_lookup_1 in Hall as [Hta Hblks]; [|done].
  split; [apply lookup_lt_Some in Ea; lia|].
  split; [apply lookup_lt_Some in Ei; lia|].
  eapply Forall_lookup_1 in Hblks; eauto.
Qed.

Lemma iadd_row_inv dst src r c (m : matrix) str1 row m' :
  well_shaped r c m → length row = c → iadd_row dst src m str1 row = Ok m' →
  can_cast src dst = true ∧ (str1 < r)%nat ∧ well_shaped r c m'.
Proof.
  intros Hm Hrow H. unfold iadd_row in H.
  apply result_bind_Ok_inv in H as (old & Hold & H).
  apply (get_row_inv r c) in Hold as (Hstr & Hlen & _); [|done].
  destruct (can_cast src dst) eqn:Hc; [|done]. injection H as <-.
  split; [done|]. split; [done|]. destruct Hm as [Hl Hrows].
  split; [by rewrite length_insert|]. apply Forall_insert; [done|].
  rewrite length_vadd. lia.
Qed.

Lemma get_col_inv r c (m : matrix) j col :
  well_shaped r c m → get_col c m j = Ok col → (j < c)%nat ∧ length col = r.
Proof.
  intros [Hlen _]. unfold get_col. destruct (decide (j < c)%nat); [|done].
  intros [= <-]. by rewrite length_fmap.
Qed.

Lemma iadd_col_inv dst src r c (m : matrix) str1 col m' :
  well_shaped r c m → length col = r → iadd_col dst src c m str1 col = Ok m' →
  can_cast src dst = true ∧ (str1 < c)%nat ∧ well_shaped r c m'.
Proof.
  intros [Hlen Hrows] Hcol. unfold iadd_col.
  destruct (decide (str1 < c)%nat); [|done].
  destruct (can_cast src dst); [|done]. intros [= <-].
  split; [done|]. split; [done|].
  split; [rewrite length_zip_with; lia|].
  eapply Forall_zip_with_fst; [exact Hrows|].
  apply Forall_true. intros x row Hr. by rewrite length_alter.
Qed.

Lemma t1_pass_a_shaped dt n na nb ci0 link t1 t1' :
  well_shaped na nb ci0 → t1_shaped n na nb t1 →
  t1_pass_a dt ci0 link t1 = Ok t1' → t1_shaped n na nb t1'.
Proof.
  intros Hci0 Ht1. unfold t1_pass_a.
  apply for_each_post; [done|]. intros s [str0 tab] s' Hs.
  apply for_each_post; [done|]. clear s s' Hs Ht1.
  intros s [[[a i] str1] sign] s' Hs H.
  inv_rbind H. inv_rbind H. inv_rbind H. injection H as <-.
  apply (get_row_inv na nb) in Hstep as (_ & Hrow & _); [|done].
  apply (get_block_inv n na nb) in Hstep0 as (_ & _ & Hblk); [|done].
  apply (iadd_row_inv _ _ na nb) in Hstep1 as (_ & _ & Hblk');
    [|done|by rewrite length_vscale].
  by apply set_block_shaped.
Qed.

Lemma t1_pass_b_shaped dt n na nb ci0 link t1 t1' :
  well_shaped na nb ci0 → t1_shaped n na nb t1 →
  t1_pass_b dt nb ci0 link t1 = Ok t1' → t1_shaped n na nb t1'.
Proof.
  intros Hci0 Ht1. unfold t1_pass_b.
  apply for_each_post; [done|]. intros s [str0 tab] s' Hs.
  apply for_each_post; [done|]. clear s s' Hs Ht1.
  intros s [[[a i] str1] sign] s' Hs H.
  inv_rbind H. inv_rbind H. inv_rbind H. injection H as <-.
  apply (get_col_inv na nb) in Hstep as (_ & Hcol); [|done].
  apply (get_block_inv n na nb) in Hstep0 as (_ & _ & Hblk); [|done].
  apply (iadd_col_inv _ _ na nb) in Hstep1 as (_ & _ & Hblk');
    [|done|by rewrite length_vscale].
  by apply set_block_shaped.
Qed.

Lemma madd_well_shaped r c m1 m2 :
  well_shaped r c m1 → well_shaped r c m2 → well_shaped r c (madd m1 m2).
Proof. apply (zip_with_well_shaped Cadd). Qed.

Lemma mat_at_madd r c m1 m2 p q :
  well_shaped r c m1 → well_shaped r c m2 → (p < r)%nat → (q < c)%nat →
  mat_at (madd m1 m2) p q = (mat_at m1 p q + mat_at m2 p q)%C.
Proof. apply (mat_at_zip_with Cadd). Qed.

Lemma t1_shaped_intro n na nb (t : list (list matrix)) :
  length t = n →
  (∀ a, (a < n)%nat → length (t !!! a) = n) →
  (∀ a i, (a < n)%nat → (i < n)%nat → well_shaped na nb (blk_at t a i)) →
  t1_shaped n na nb t.
Proof.
  intros Hlen Hrow Hblk. split; [done|]. apply Forall_lookup. intros a ta Ha.
  assert (a < n)%nat as Han by (apply lookup_lt_Some in Ha; lia).
  pose proof (Hrow a Han) as Hta. rewrite (list_lookup_total_correct _ _ _ Ha) in Hta.
  split; [done|]. apply Forall_lookup. intros i m Hi.
  assert (i < n)%nat as Hin by (apply lookup_lt_Some in Hi; lia).
  specialize (Hblk a i Han Hin). unfold blk_at in Hblk.
  by rewrite (list_lookup_total_correct _ _ _ Ha), (list_lookup_total_correct _ _ _ Hi)
    in Hblk.
Qed.

Lemma t1_shaped_blk_at n na nb t a i :
  t1_shaped n na nb t → (a < n)%nat → (i < n)%nat →
  well_shaped na nb (blk_at t a i).
Proof. apply t1_shaped_block. Qed.

Lemma fmap_seq_lookup_total {A : Type} `{Inhabited A} (f : nat → A) n k :
  (k < n)%nat → (f <$> seq 0 n) !!! k = f k.
Proof.
  intros Hk. apply list_lookup_total_correct.
  by rewrite list_lookup_fmap, lookup_seq_lt.
Qed.

(** One block of the contracted intermediate. *)
Lemma einsum_bjai_blk n na nb eri t1 b j :
  (b < n)%nat → (j < n)%nat →
  blk_at (einsum_bjai n na nb eri t1) b j
  = foldr (λ a acc,
      foldr (λ i acc, madd acc (mscale (eri_at n eri b j a i) (blk_at t1 a i)))
        acc (seq 0 n))
      (mzeros na nb) (seq 0 n).
Proof.
  intros Hb Hj. unfold blk_at at 1, einsum_bjai.
  rewrite (fmap_seq_lookup_total _ n b) by done.
  by rewrite (fmap_seq_lookup_total _ n j) by done.
Qed.

Lemma einsum_bjai_lengths n na nb eri t1 :
  length (einsum_bjai n na nb eri t1) = n
  ∧ ∀ a, (a < n)%nat → length (einsum_bjai n na nb eri t1 !!! a) = n.
Proof.
  unfold einsum_bjai. split; [by rewrite length_fmap, length_seq|].
  intros a Ha. rewrite (fmap_seq_lookup_total _ n a) by done.
  by rewrite length_fmap, length_seq.
Qed.

Lemma einsum_bjai_shaped n na nb eri t1 :
  t1_shaped n na nb t1 → t1_shaped n na nb (einsum_bjai n na nb eri t1).
Proof.
  intros Ht1. destruct (einsum_bjai_lengths n na nb eri t1) as [Hl Hr].
  apply t1_shaped_intro; [done|done|]. intros b j Hb Hj.
  rewrite einsum_bjai_blk by done.
  assert (Forall (λ a, a < n)%nat (seq 0 n)) as Hseq.
  { apply Forall_forall. intros a Ha. apply elem_of_seq in Ha. lia. }
  revert Hseq. generalize (seq 0 n) at 1 3. intros la Hla.
  induction Hla as [|a la Ha _ IH]; simpl; [apply mzeros_well_shaped|].
  assert (Forall (λ i, i < n)%nat (seq 0 n)) as Hseq.
  { apply Forall_forall. intros i Hi. apply elem_of_seq in Hi. lia. }
  revert IH. generalize (foldr (λ a acc,
      foldr (λ i acc, madd acc (mscale (eri_at n eri b j a i) (blk_at t1 a i)))
        acc (seq 0 n)) (mzeros na nb) la). intros acc Hacc.
  induction Hseq as [|i li Hi _ IHi]; simpl; [done|].
  apply madd_well_shaped; [done|]. apply mscale_well_shaped.
  by apply (t1_shaped_blk_at n).
Qed.

Lemma fcinew_pass_a_shaped dt dt1 n na nb t1 link fcinew fcinew' :
  t1_shaped n na nb t1 → well_shaped na nb fcinew →
  fcinew_pass_a dt dt1 t1 link fcinew = Ok fcinew' → well_shaped na nb fcinew'.
Proof.
  intros Ht1 Hf. unfold fcinew_pass_a.
  apply for_each_post; [done|]. intros s [str0 tab] s' Hs.
  apply for_each_post; [done|]. clear s s' Hs Hf.
  intros s [[[a i] str1] sign] s' Hs H.
  inv_rbind H. inv_rbind H.
  apply (get_block_inv n na nb) in Hstep as (_ & _ & Hblk); [|done].
  apply (get_row_inv na nb) in Hstep0 as (_ & Hrow & _); [|done].
  by apply (iadd_row_inv _ _ na nb) in H as (_ & _ & H);
    [|done|by rewrite length_vscale].
Qed.

Lemma fcinew_pass_b_shaped dt dt1 n na nb t1 link fcinew fcinew' :
  t1_shaped n na nb t1 → well_shaped na nb fcinew →
  fcinew_pass_b dt dt1 nb t1 link fcinew = Ok fcinew' → well_shaped na nb fcinew'.
Proof.
  intros Ht1 Hf. unfold fcinew_pass_b.
  apply for_each_post; [done|]. intros s [str0 tab] s' Hs.
  apply for_each_post; [done|]. clear s s' Hs Hf.
  intros s [[[a i] str1] sign] s' Hs H.
  inv_rbind H. inv_rbind H.
  apply (get_block_inv n na nb) in Hstep as (_ & _ & Hblk); [|done].
  apply (get_col_inv na nb) in Hstep0 as (_ & Hcol); [|done].
  by apply (iadd_col_inv _ _ na nb) in H as (_ & _ & H);
    [|done|by rewrite length_vscale].
Qed.

Lemma reshape2_inv l r c m :
  reshape2 l r c = Ok m → length l = (r * c)%nat ∧ m = to_rows r c l.
Proof. unfold reshape2. destruct (decide _); [|done]. by intros [= <-]. Qed.

Lemma extent_inv z n : extent z = Ok n → 0 ≤ z ∧ n = Z.to_nat z.
Proof. unfold extent. destruct (decide _); [|done]. by intros [= <-]. Qed.

Lemma num_strings_comb (n m : Z) : comb n m = Ok (num_strings n m).
Proof.
  unfold num_strings.
  destruct (decide (0 ≤ m ≤ n)) as [H|H].
  - rewrite bool_decide_eq_false_2 by lia.
    rewrite comb_nat by done. f_equal.
    unfold factorial.
    replace (Z.to_nat (n - m)) with (Z.to_nat n - Z.to_nat m)%nat by lia.
    pose proof (binom_fact (Z.to_nat n) (Z.to_nat m) ltac:(lia)) as Hf.
    rewrite <- Hf.
    rewrite <- Nat2Z.inj_mul.
    rewrite (Nat.mul_comm (fact (Z.to_nat n - Z.to_nat m))).
    rewrite <- Nat2Z.inj_div. rewrite Nat.div_mul; [done|].
    pose proof (fact_neq_0 (Z.to_nat m)).
    pose proof (fact_neq_0 (Z.to_nat n - Z.to_nat m)). lia.
  - rewrite bool_decide_eq_true_2 by lia.
    apply comb_out_of_range. lia.
Qed.

Lemma num_strings_nonneg (n m : Z) : 0 ≤ num_strings n m.
Proof.
  destruct (comb_returns n m) as (d & Hd & H0).
  rewrite num_strings_comb in Hd. by injection Hd as ->.
Qed.

(** The dimension [get_dimension] reports is the vector length
    [contract_2e] reshapes to. *)
Lemma get_dimension_num_strings norb n_alpha n_beta dim :
  get_dimension norb (n_alpha, n_beta) = Ok dim →
  Z.to_nat dim
  = (Z.to_nat (num_strings norb n_alpha) * Z.to_nat (num_strings norb n_beta))%nat.
Proof.
  unfold get_dimension. rewrite !num_strings_comb. simpl. intros [= <-].
  apply Z2Nat.inj_mul; apply num_strings_nonneg.
Qed.

Section contract_2e_shape.
Variable gen_linkstr_index : Z → Z → result link_table.

Lemma contract_2e_Ok_inv (eri fcivec : ndarray) (norb : Z) (nelec : nelec_arg)
    (link_index : option (link_table * link_table)) (y : ndarray) :
  contract_2e gen_linkstr_index eri fcivec norb nelec link_index = Ok y →
  dtype_of y = dtype_of fcivec
  ∧ shape y = shape fcivec
  ∧ length (data y) = length (data fcivec)
  ∧ length (data y)
    = (Z.to_nat (num_strings norb (split_nelec nelec).1)
       * Z.to_nat (num_strings norb (split_nelec nelec).2))%nat.
Proof.
  unfold contract_2e. destruct (split_nelec nelec) as [neleca nelecb]. simpl.
  set (na := Z.to_nat (num_strings norb neleca)).
  set (nb := Z.to_nat (num_strings norb nelecb)).
  intros H.
  apply result_bind_Ok_inv in H as ([la lb] & Hli & H).
  apply result_bind_Ok_inv in H as (ci0 & Hci0 & H).
  apply reshape2_inv in Hci0 as [Hlen ->].
  apply result_bind_Ok_inv in H as (n & Hn & H).
  apply result_bind_Ok_inv in H as (t1a & Ht1a & H).
  apply result_bind_Ok_inv in H as (t1b & Ht1b & H).
  apply result_bind_Ok_inv in H as (eri4 & Heri & H).
  apply result_bind_Ok_inv in H as (fa & Hfa & H).
  apply result_bind_Ok_inv in H as (fb & Hfb & H).
  injection H as <-. simpl.
  pose proof (to_rows_well_shaped _ _ _ Hlen) as Hci0.
  apply (t1_pass_a_shaped _ n na nb) in Ht1a; [|done|apply t1_zeros_shaped].
  apply (t1_pass_b_shaped _ n na nb) in Ht1b; [|done|done].
  apply (fcinew_pass_a_shaped _ _ n na nb) in Hfa;
    [|by apply einsum_bjai_shaped|apply mzeros_well_shaped].
  apply (fcinew_pass_b_shaped _ _ n na nb) in Hfb; [|by apply einsum_bjai_shaped|done].
  rewrite (length_flatten_well_shaped _ _ _ Hfb). by rewrite Hlen.
Qed.

(** X5. Whenever [contract_2e] returns, the array it returns has the dtype,
    the shape and the number of elements of the vector it was given, and that
    number is the dimension [get_dimension] reports for the two particle
    numbers. *)
Theorem contract_2e_same_size (eri fcivec : ndarray) (norb : Z) (nelec : nelec_arg)
    (link_index : option (link_table * link_table)) (y : ndarray) :
  contract_2e gen_linkstr_index eri fcivec norb nelec link_index = Ok y →
  dtype_of y = dtype_of fcivec
  ∧ shape y = shape fcivec
  ∧ length (data y) = length (data fcivec)
  ∧ ∃ dim, get_dimension norb (split_nelec nelec) = Ok dim
      ∧ length (data y) = Z.to_nat dim.
Proof.
  intros H. apply contract_2e_Ok_inv in H as (Hdt & Hsh & Hlen & Hn).
  split; [done|]. split; [done|]. split; [done|].
  destruct (split_nelec nelec) as [neleca nelecb]. simpl in Hn.
  destruct (comb_returns norb neleca) as (da & Ha & Hda).
  destruct (comb_returns norb nelecb) as (db & Hb & Hdb).
  exists (da * db). unfold get_dimension. rewrite Ha, Hb. split; [done|].
  rewrite num_strings_comb in Ha, Hb. injection Ha as <-. injection Hb as <-.
  rewrite Hn. symmetry. by apply Z2Nat.inj_mul.
Qed.

End contract_2e_shape.

Lemma contract_2e_same_size_witness :
  let link : link_table := [[(0%nat, 0%nat, 0%nat, 1)]] in
  let fcivec := mk_ndarray float64 [1%nat] [C1] in
  ∃ y,
    contract_2e (λ _ _, Ok link) (mk_ndarray float64 [1; 1; 1; 1]%nat [C1]) fcivec 1
      (NelecPair 1 1) (Some (link, link)) = Ok y
    ∧ dtype_of y = float64 ∧ shape y = [1%nat] ∧ length (data y) = 1%nat.
Proof.
  intros link fcivec. eexists. split; [reflexivity|].
  refine (let H := contract_2e_same_size (λ _ _, Ok link)
                     (mk_ndarray float64 [1; 1; 1; 1]%nat [C1]) fcivec 1
                     (NelecPair 1 1) (Some (link, link)) _ eq_refl in _).
  destruct H as (H1 & H2 & H3 & _). exact (conj H1 (conj H2 H3)).
Defined.

(** ** [contract_2e]: element-wise reading of the in-place updates *)

Lemma get_row_at r c (m : matrix) i :
  well_shaped r c m → (i < r)%nat →
  get_row m i = Ok (m !!! i) ∧ length (m !!! i) = c.
Proof.
  intros Hm Hi. destruct (well_shaped_lookup r c m i Hm Hi) as (row & Hrow & Hlen).
  unfold get_row. by rewrite Hrow, (list_lookup_total_correct _ _ _ Hrow).
Qed.

Lemma get_block_at n na nb t a i :
  t1_shaped n na nb t → (a < n)%nat → (i < n)%nat →
  get_block t a i = Ok (blk_at t a i).
Proof.
  intros [Hlen Hall] Ha Hi. unfold get_block, blk_at.
  destruct (t !! a) as [ta|] eqn:Ea; [|apply lookup_ge_None in Ea; lia].
  eapply Forall_lookup_1 in Hall as [Hta _]; [|done].
  destruct (ta !! i) as [m|] eqn:Ei; [|apply lookup_ge_None in Ei; lia].
  by rewrite (list_lookup_total_correct _ _ _ Ea), (list_lookup_total_correct _ _ _ Ei).
Qed.

Lemma blk_at_set_block n na nb t a i m a' i' :
  t1_shaped n na nb t → (a < n)%nat → (i < n)%nat →
  blk_at (set_block t a i m) a' i'
  = if decide (a' = a ∧ i' = i) then m else blk_at t a' i'.
Proof.
  intros [Hlen Hall] Ha Hi. unfold blk_at, set_block.
  rewrite list_lookup_total_alter.
  assert (length (t !!! a) = n) as Hta.
  { eapply Forall_lookup_1 in Hall as [Hta _]; [exact Hta|].
    apply list_lookup_lookup_total_lt. lia. }
  destruct (decide (a = a' ∧ a < length t)%nat) as [[<- _]|Hne].
  - rewrite list_lookup_total_insert.
    destruct (decide (i = i' ∧ i < length (t !!! a))%nat) as [[<- _]|Hne].
    + by rewrite decide_True.
    + rewrite decide_False; [done|]. intros [_ ->]. apply Hne. split; [done|lia].
  - rewrite decide_False; [done|]. intros [-> _]. apply Hne. split; [done|lia].
Qed.

Lemma insert_as_alter {A : Type} `{Inhabited A} (f : A → A) (l : list A) i :
  <[i := f (l !!! i)]> l = alter f i l.
Proof.
  apply list_eq. intros j. rewrite list_lookup_insert, list_lookup_alter.
  destruct (decide (i = j)) as [<-|Hne].
  - destruct (decide (i < length l)%nat).
    + rewrite decide_True by done. by rewrite (list_lookup_lookup_total_lt l i).
    + rewrite decide_False by tauto. by rewrite (lookup_ge_None_2 l i) by lia.
  - by rewrite decide_False by tauto.
Qed.

Lemma iadd_row_at dst src r c (m : matrix) str1 k row :
  can_cast src dst = true → well_shaped r c m → (str1 < r)%nat →
  iadd_row dst src m str1 (vscale k row)
  = Ok (alter (λ old, vadd old (vscale k row)) str1 m).
Proof.
  intros Hc [Hl _] Hs. unfold iadd_row, get_row.
  rewrite (list_lookup_lookup_total_lt m str1) by lia. simpl. rewrite Hc.
  f_equal. apply (insert_as_alter (λ old, vadd old (vscale k row))).
Qed.

Lemma get_col_at r c (m : matrix) j :
  well_shaped r c m → (j < c)%nat →
  get_col c m j = Ok ((λ row, row !!! j) <$> m)
  ∧ length ((λ row : list C, row !!! j) <$> m) = r
  ∧ ∀ p, (p < r)%nat → ((λ row : list C, row !!! j) <$> m) !!! p = mat_at m p j.
Proof.
  intros Hm Hj. unfold get_col. rewrite decide_True by done.
  split; [done|]. split; [rewrite length_fmap; apply Hm|].
  intros p Hp. destruct (well_shaped_lookup r c m p Hm Hp) as (row & Hrow & Hlen).
  apply list_lookup_total_correct. rewrite list_lookup_fmap, Hrow. simpl.
  unfold mat_at. by rewrite (list_lookup_total_correct _ _ _ Hrow).
Qed.

Lemma iadd_col_at dst src c (m : matrix) str1 col :
  can_cast src dst = true → (str1 < c)%nat →
  iadd_col dst src c m str1 col
  = Ok (zip_with (λ row x, alter (λ y, Cadd y x) str1 row) m col).
Proof. intros Hc Hs. unfold iadd_col. by rewrite decide_True, Hc by done. Qed.

Lemma add_col_well_shaped r c (m : matrix) str1 col :
  well_shaped r c m → length col = r →
  well_shaped r c (zip_with (λ row x, alter (λ y, Cadd y x) str1 row) m col).
Proof.
  intros [Hlen Hrows] Hcol. split; [rewrite length_zip_with; lia|].
  eapply Forall_zip_with_fst; [exact Hrows|].
  apply Forall_true. intros x row Hr. by rewrite length_alter.
Qed.

Lemma mat_at_add_col r c (m : matrix) str1 col p q :
  well_shaped r c m → length col = r → (p < r)%nat → (q < c)%nat →
  mat_at (zip_with (λ row x, alter (λ y, Cadd y x) str1 row) m col) p q
  = if decide (q = str1) then (mat_at m p q + col !!! p)%C else mat_at m p q.
Proof.
  intros Hm Hcol Hp Hq.
  destruct (well_shaped_lookup r c m p Hm Hp) as (row & Hrow & Hlen).
  unfold mat_at.
  erewrite (list_lookup_total_correct _ p);
    [|by rewrite lookup_zip_with, Hrow, (list_lookup_lookup_total_lt col p) by lia].
  rewrite list_lookup_total_alter, (list_lookup_total_correct _ _ _ Hrow).
  destruct (decide (q = str1)) as [->|Hne].
  - by rewrite decide_True by (split; [done|lia]).
  - by rewrite decide_False by (intros [-> _]; done).
Qed.

Lemma lookup_total_vscale k v q : vscale k v !!! q = (k * v !!! q)%C.
Proof. apply (lookup_total_fmap_C0 (Cmul k)). apply Cmul_0_r. Qed.

Lemma lookup_total_vadd u v q :
  length u = length v → vadd u v !!! q = (u !!! q + v !!! q)%C.
Proof.
  intros Hlen. unfold vadd. destruct (decide (q < length u)%nat) as [Hq|Hq].
  - apply list_lookup_total_correct. rewrite lookup_zip_with.
    by rewrite (list_lookup_lookup_total_lt u q), (list_lookup_lookup_total_lt v q)
      by lia.
  - rewrite !list_lookup_total_alt, lookup_zip_with.
    rewrite (lookup_ge_None_2 u q), (lookup_ge_None_2 v q) by lia. simpl.
    by rewrite Cadd_0_l.
Qed.

(** ** [contract_2e]: linear combinations are kept by every step *)

Lemma for_each_rel3 {A S : Type} (R : S → S → S → Prop) (Q : A → Prop)
    (l : list A) (b0 b1 b2 : S → A → result S) (s0 s1 s2 : S) :
  R s0 s1 s2 → Forall Q l →
  (∀ s0 s1 s2 x, R s0 s1 s2 → Q x →
     ∃ s0' s1' s2', b0 s0 x = Ok s0' ∧ b1 s1 x = Ok s1' ∧ b2 s2 x = Ok s2'
       ∧ R s0' s1' s2') →
  ∃ s0' s1' s2',
    for_each l b0 s0 = Ok s0' ∧ for_each l b1 s1 = Ok s1' ∧ for_each l b2 s2 = Ok s2'
    ∧ R s0' s1' s2'.
Proof.
  intros HR Hl Hstep. revert s0 s1 s2 HR.
  induction Hl as [|x l Hx _ IH]; intros s0 s1 s2 HR; simpl; [by eauto 10|].
  destruct (Hstep s0 s1 s2 x HR Hx) as (t0 & t1 & t2 & -> & -> & -> & HR').
  simpl. by apply IH.
Qed.

Section combinations.
Variables (c1 c2 : C).

Lemma combination_zeros r c :
  combination c1 c2 r c (mzeros r c) (mzeros r c) (mzeros r c).
Proof.
  split; [|split; [|split]]; try apply mzeros_well_shaped.
  intros p q Hp Hq. rewrite mat_at_mzeros by done. ring.
Qed.

Lemma combination_to_rows r c d1 d2 :
  length d1 = (r * c)%nat → length d2 = (r * c)%nat →
  combination c1 c2 r c (to_rows r c (vadd (vscale c1 d1) (vscale c2 d2)))
    (to_rows r c d1) (to_rows r c d2).
Proof.
  intros H1 H2. split; [|split; [|split]]; try by apply to_rows_well_shaped.
  { apply to_rows_well_shaped. rewrite length_vadd, !length_vscale. lia. }
  intros p q Hp Hq. rewrite !mat_at_to_rows by done.
  rewrite lookup_total_vadd by (rewrite !length_vscale; lia).
  by rewrite !lookup_total_vscale.
Qed.

Lemma combination_flatten r c S S1 S2 :
  combination c1 c2 r c S S1 S2 →
  flatten S = vadd (vscale c1 (flatten S1)) (vscale c2 (flatten S2)).
Proof.
  intros (HS & HS1 & HS2 & Hat). unfold vadd. rewrite <- !flatten_mscale.
  rewrite <- (flatten_zip_with Cadd r c) by by apply mscale_well_shaped.
  f_equal. apply (mat_ext r c); [done|..].
  { apply zip_with_well_shaped; by apply mscale_well_shaped. }
  intros p q Hp Hq.
  rewrite (mat_at_zip_with _ r c) by (done || by apply mscale_well_shaped).
  rewrite !(mat_at_mscale _ r c) by done. by apply Hat.
Qed.

Lemma combination_alter_row r c S S1 S2 str1 k row row1 row2 :
  combination c1 c2 r c S S1 S2 →
  length row = c → length row1 = c → length row2 = c →
  (∀ q, (q < c)%nat → row !!! q = (c1 * row1 !!! q + c2 * row2 !!! q)%C) →
  combination c1 c2 r c
    (alter (λ old, vadd old (vscale k row)) str1 S)
    (alter (λ old, vadd old (vscale k row1)) str1 S1)
    (alter (λ old, vadd old (vscale k row2)) str1 S2).
Proof.
  intros (HS & HS1 & HS2 & Hat) Hr Hr1 Hr2 Hrow.
  split; [|split; [|split]]; try by apply alter_row_well_shaped.
  intros p q Hp Hq. rewrite !(mat_at_alter_row r c) by done.
  destruct (decide (p = str1)); [|by apply Hat].
  rewrite Hat, Hrow by done. ring.
Qed.

Lemma combination_add_col r c S S1 S2 str1 k col col1 col2 :
  combination c1 c2 r c S S1 S2 →
  length col = r → length col1 = r → length col2 = r →
  (∀ p, (p < r)%nat → col !!! p = (c1 * col1 !!! p + c2 * col2 !!! p)%C) →
  combination c1 c2 r c
    (zip_with (λ row x, alter (λ y, Cadd y x) str1 row) S (vscale k col))
    (zip_with (λ row x, alter (λ y, Cadd y x) str1 row) S1 (vscale k col1))
    (zip_with (λ row x, alter (λ y, Cadd y x) str1 row) S2 (vscale k col2)).
Proof.
  intros (HS & HS1 & HS2 & Hat) Hc Hc1 Hc2 Hcol.
  split; [|split; [|split]];
    try (apply add_col_well_shaped; [done|by rewrite length_vscale]).
  intros p q Hp Hq.
  rewrite !(mat_at_add_col r c) by (done || by rewrite length_vscale).
  destruct (decide (q = str1)); [|by apply Hat].
  rewrite !lookup_total_vscale, Hat, Hcol by done. ring.
Qed.

Lemma combination4_zeros n na nb :
  combination4 c1 c2 n na nb (replicate n (replicate n (mzeros na nb)))
    (replicate n (replicate n (mzeros na nb)))
    (replicate n (replicate n (mzeros na nb))).
Proof.
  split; [|split; [|split]]; try apply t1_zeros_shaped.
  intros a i Ha Hi. unfold blk_at. rewrite !lookup_total_replicate_2 by done.
  apply combination_zeros.
Qed.

Lemma combination4_set_block n na nb T T1 T2 a i B B1 B2 :
  combination4 c1 c2 n na nb T T1 T2 → (a < n)%nat → (i < n)%nat →
  combination c1 c2 na nb B B1 B2 →
  combination4 c1 c2 n na nb (set_block T a i B) (set_block T1 a i B1)
    (set_block T2 a i B2).
Proof.
  intros (HT & HT1 & HT2 & Hat) Ha Hi HB.
  split; [|split; [|split]]; try (apply set_block_shaped; [done|apply HB]).
  intros a' i' Ha' Hi'. rewrite !(blk_at_set_block n na nb) by done.
  destruct (decide (a' = a ∧ i' = i)); [done|by apply Hat].
Qed.

Lemma t1_pass_a_combination dt n na nb V V1 V2 link T T1 T2 :
  wf_link n na link → combination c1 c2 na nb V V1 V2 →
  combination4 c1 c2 n na nb T T1 T2 →
  ∃ T' T1' T2',
    t1_pass_a dt V link T = Ok T' ∧ t1_pass_a dt V1 link T1 = Ok T1'
    ∧ t1_pass_a dt V2 link T2 = Ok T2' ∧ combination4 c1 c2 n na nb T' T1' T2'.
Proof.
  intros [Hlen Hlink] HV HT. unfold t1_pass_a.
  eapply (for_each_rel3 (combination4 c1 c2 n na nb));
    [exact HT|exact (Forall_enumerate _ _ Hlink)|].
  clear T T1 T2 HT. intros T T1 T2 [str0 tab] HT [Hstr0 Htab]. simpl in *.
  eapply (for_each_rel3 (combination4 c1 c2 n na nb)); [exact HT|exact Htab|].
  clear T T1 T2 HT. intros T T1 T2 [[[a i] str1] sign] HT (Ha & Hi & Hstr1).
  pose proof HT as (HsT & HsT1 & HsT2 & Hat).
  pose proof HV as (HsV & HsV1 & HsV2 & HVat).
  assert (str0 < na)%nat as Hs0 by lia.
  destruct (get_row_at na nb V str0 HsV Hs0) as [-> Hr].
  destruct (get_row_at na nb V1 str0 HsV1 Hs0) as [-> Hr1].
  destruct (get_row_at na nb V2 str0 HsV2 Hs0) as [-> Hr2]. simpl.
  rewrite !(get_block_at n na nb) by done. simpl.
  rewrite !(iadd_row_at dt dt na nb)
    by (done || apply can_cast_refl || by apply (t1_shaped_blk_at n)).
  simpl. do 3 eexists. do 3 (split; [reflexivity|]).
  apply combination4_set_block; [done..|].
  apply combination_alter_row; [by apply Hat|done..|].
  intros q Hq. by apply HVat.
Qed.

Lemma t1_pass_b_combination dt n na nb V V1 V2 link T T1 T2 :
  wf_link n nb link → combination c1 c2 na nb V V1 V2 →
  combination4 c1 c2 n na nb T T1 T2 →
  ∃ T' T1' T2',
    t1_pass_b dt nb V link T = Ok T' ∧ t1_pass_b dt nb V1 link T1 = Ok T1'
    ∧ t1_pass_b dt nb V2 link T2 = Ok T2' ∧ combination4 c1 c2 n na nb T' T1' T2'.
Proof.
  intros [Hlen Hlink] HV HT. unfold t1_pass_b.
  eapply (for_each_rel3 (combination4 c1 c2 n na nb));
    [exact HT|exact (Forall_enumerate _ _ Hlink)|].
  clear T T1 T2 HT. intros T T1 T2 [str0 tab] HT [Hstr0 Htab]. simpl in *.
  eapply (for_each_rel3 (combination4 c1 c2 n na nb)); [exact HT|exact Htab|].
  clear T T1 T2 HT. intros T T1 T2 [[[a i] str1] sign] HT (Ha & Hi & Hstr1).
  pose proof HT as (HsT & HsT1 & HsT2 & Hat).
  pose proof HV as (HsV & HsV1 & HsV2 & HVat).
  assert (str0 < nb)%nat as Hs0 by lia.
  destruct (get_col_at na nb V str0 HsV Hs0) as (-> & Hc & Hcat).
  destruct (get_col_at na nb V1 str0 HsV1 Hs0) as (-> & Hc1 & Hcat1).
  destruct (get_col_at na nb V2 str0 HsV2 Hs0) as (-> & Hc2 & Hcat2). simpl.
  rewrite !(get_block_at n na nb) by done. simpl.
  rewrite !(iadd_col_at dt dt nb) by (done || apply can_cast_refl).
  simpl. do 3 eexists. do 3 (split; [reflexivity|]).
  apply combination4_set_block; [done..|].
  apply combination_add_col; [by apply Hat|done..|].
  intros p Hp. rewrite Hcat, Hcat1, Hcat2 by done. by apply HVat.
Qed.

Lemma einsum_bjai_combination n na nb eri T T1 T2 :
  combination4 c1 c2 n na nb T T1 T2 →
  combination4 c1 c2 n na nb (einsum_bjai n na nb eri T)
    (einsum_bjai n na nb eri T1) (einsum_bjai n na nb eri T2).
Proof.
  intros (HT & HT1 & HT2 & Hat).
  split; [|split; [|split]]; try by apply einsum_bjai_shaped.
  intros b j Hb Hj. rewrite !einsum_bjai_blk by done.
  assert (Forall (λ a, a < n)%nat (seq 0 n)) as Hseq.
  { apply Forall_forall. intros a Ha. apply elem_of_seq in Ha. lia. }
  pose proof Hseq as Hla. revert Hla. generalize (seq 0 n) at 1 3 5 7.
  intros la Hla.
  induction Hla as [|a la Ha _ IH]; simpl; [apply combination_zeros|].
  revert IH.
  generalize (foldr (λ a acc,
      foldr (λ i acc, madd acc (mscale (eri_at n eri b j a i) (blk_at T a i)))
        acc (seq 0 n)) (mzeros na nb) la).
  generalize (foldr (λ a acc,
      foldr (λ i acc, madd acc (mscale (eri_at n eri b j a i) (blk_at T1 a i)))
        acc (seq 0 n)) (mzeros na nb) la).
  generalize (foldr (λ a acc,
      foldr (λ i acc, madd acc (mscale (eri_at n eri b j a i) (blk_at T2 a i)))
        acc (seq 0 n)) (mzeros na nb) la).
  intros acc2 acc1 acc Hacc.
  induction Hseq as [|i li Hi _ IHi]; simpl; [done|].
  destruct IHi as (HS & HS1 & HS2 & Hacc').
  destruct (Hat a i Ha Hi) as (HB & HB1 & HB2 & HBat).
  split; [|split; [|split]];
    try (apply madd_well_shaped; [done|by apply mscale_well_shaped]).
  intros p q Hp Hq.
  rewrite !(mat_at_madd na nb) by (done || by apply mscale_well_shaped).
  rewrite !(mat_at_mscale _ na nb) by done.
  rewrite Hacc', HBat by done. ring.
Qed.

Lemma fcinew_pass_a_combination dt dt1 n na nb T T1 T2 link S S1 S2 :
  can_cast dt1 dt = true → wf_link n na link →
  combination4 c1 c2 n na nb T T1 T2 → combination c1 c2 na nb S S1 S2 →
  ∃ S' S1' S2',
    fcinew_pass_a dt dt1 T link S = Ok S' ∧ fcinew_pass_a dt dt1 T1 link S1 = Ok S1'
    ∧ fcinew_pass_a dt dt1 T2 link S2 = Ok S2' ∧ combination c1 c2 na nb S' S1' S2'.
Proof.
  intros Hcast [Hlen Hlink] HT HS. unfold fcinew_pass_a.
  eapply (for_each_rel3 (combination c1 c2 na nb));
    [exact HS|exact (Forall_enumerate _ _ Hlink)|].
  clear S S1 S2 HS. intros S S1 S2 [str0 tab] HS [Hstr0 Htab]. simpl in *.
  eapply (for_each_rel3 (combination c1 c2 na nb)); [exact HS|exact Htab|].
  clear S S1 S2 HS. intros S S1 S2 [[[a i] str1] sign] HS (Ha & Hi & Hstr1).
  pose proof HT as (HsT & HsT1 & HsT2 & Hat).
  pose proof HS as (HsS & HsS1 & HsS2 & _).
  destruct (Hat a i Ha Hi) as (HB & HB1 & HB2 & HBat).
  assert (str0 < na)%nat as Hs0 by lia.
  rewrite !(get_block_at n na nb) by done. simpl.
  destruct (get_row_at na nb _ str0 HB Hs0) as [-> Hr].
  destruct (get_row_at na nb _ str0 HB1 Hs0) as [-> Hr1].
  destruct (get_row_at na nb _ str0 HB2 Hs0) as [-> Hr2]. simpl.
  rewrite !(iadd_row_at dt dt1 na nb) by done.
  do 3 eexists. do 3 (split; [reflexivity|]).
  apply combination_alter_row; [done..|].
  intros q Hq. by apply HBat.
Qed.

Lemma fcinew_pass_b_combination dt dt1 n na nb T T1 T2 link S S1 S2 :
  can_cast dt1 dt = true → wf_link n nb link →
  combination4 c1 c2 n na nb T T1 T2 → combination c1 c2 na nb S S1 S2 →
  ∃ S' S1' S2',
    fcinew_pass_b dt dt1 nb T link S = Ok S'
    ∧ fcinew_pass_b dt dt1 nb T1 link S1 = Ok S1'
    ∧ fcinew_pass_b dt dt1 nb T2 link S2 = Ok S2'
    ∧ combination c1 c2 na nb S' S1' S2'.
Proof.
  intros Hcast [Hlen Hlink] HT HS. unfold fcinew_pass_b.
  eapply (for_each_rel3 (combination c1 c2 na nb));
    [exact HS|exact (Forall_enumerate _ _ Hlink)|].
  clear S S1 S2 HS. intros S S1 S2 [str0 tab] HS [Hstr0 Htab]. simpl in *.
  eapply (for_each_rel3 (combination c1 c2 na nb)); [exact HS|exact Htab|].
  clear S S1 S2 HS. intros S S1 S2 [[[a i] str1] sign] HS (Ha & Hi & Hstr1).
  pose proof HT as (HsT & HsT1 & HsT2 & Hat).
  pose proof HS as (HsS & HsS1 & HsS2 & _).
  destruct (Hat a i Ha Hi) as (HB & HB1 & HB2 & HBat).
  assert (str0 < nb)%nat as Hs0 by lia.
  rewrite !(get_block_at n na nb) by done. simpl.
  destruct (get_col_at na nb _ str0 HB Hs0) as (-> & Hc & Hcat).
  destruct (get_col_at na nb _ str0 HB1 Hs0) as (-> & Hc1 & Hcat1).
  destruct (get_col_at na nb _ str0 HB2 Hs0) as (-> & Hc2 & Hcat2). simpl.
  rewrite !(iadd_col_at dt dt1 nb) by done.
  do 3 eexists. do 3 (split; [reflexivity|]).
  apply combination_add_col; [done..|].
  intros p Hp. rewrite Hcat, Hcat1, Hcat2 by done. by apply HBat.
Qed.

End combinations.

Section contract_2e_linearity.
Variable gen_linkstr_index : Z → Z → result link_table.

Lemma contract_2e_combination (c1 c2 : C) (eri : ndarray) (dt : dtype)
    (sh : list nat) (d1 d2 : list C) (norb : Z) (nelec : nelec_arg)
    (link_index : option (link_table * link_table)) (la lb : link_table) :
  let neleca := (split_nelec nelec).1 in
  let nelecb := (split_nelec nelec).2 in
  let n := Z.to_nat norb in
  let na := Z.to_nat (num_strings norb neleca) in
  let nb := Z.to_nat (num_strings norb nelecb) in
  0 ≤ norb →
  unpack_link_index gen_linkstr_index norb neleca nelecb link_index = Ok (la, lb) →
  wf_link n na la → wf_link n nb lb →
  length d1 = (na * nb)%nat → length d2 = (na * nb)%nat →
  length (data eri) = (n * n * n * n)%nat →
  can_cast (dtype_of eri) dt = true →
  ∃ e1 e2,
    contract_2e gen_linkstr_index eri (mk_ndarray dt sh d1) norb nelec link_index
    = Ok (mk_ndarray dt sh e1)
    ∧ contract_2e gen_linkstr_index eri (mk_ndarray dt sh d2) norb nelec link_index
      = Ok (mk_ndarray dt sh e2)
    ∧ contract_2e gen_linkstr_index eri
        (mk_ndarray dt sh (vadd (vscale c1 d1) (vscale c2 d2))) norb nelec link_index
      = Ok (mk_ndarray dt sh (vadd (vscale c1 e1) (vscale c2 e2))).
Proof.
  intros neleca nelecb n na nb Hnorb Hlinks Hla Hlb Hd1 Hd2 Heri Hcast.
  unfold contract_2e. destruct (split_nelec nelec) as [ea eb] eqn:Esplit.
  simpl in neleca, nelecb. subst neleca nelecb. rewrite Hlinks. simpl.
  fold na nb n. unfold reshape2.
  rewrite !decide_True by (rewrite ?length_vadd, ?length_vscale; lia). simpl.
  unfold extent. rewrite decide_True by done. simpl. fold n.
  destruct (t1_pass_a_combination c1 c2 dt n na nb _ _ _ la _ _ _ Hla
              (combination_to_rows c1 c2 na nb d1 d2 Hd1 Hd2)
              (combination4_zeros c1 c2 n na nb))
    as (Ta & Ta1 & Ta2 & -> & -> & -> & HTa). simpl.
  destruct (t1_pass_b_combination c1 c2 dt n na nb _ _ _ lb _ _ _ Hlb
              (combination_to_rows c1 c2 na nb d1 d2 Hd1 Hd2) HTa)
    as (Tb & Tb1 & Tb2 & -> & -> & -> & HTb). simpl.
  rewrite !decide_True by done. simpl.
  pose proof (einsum_bjai_combination c1 c2 n na nb (data eri) _ _ _ HTb) as HE.
  pose proof (can_cast_result_type _ _ Hcast) as Hcast1.
  destruct (fcinew_pass_a_combination c1 c2 dt _ n na nb _ _ _ la _ _ _ Hcast1 Hla HE
              (combination_zeros c1 c2 na nb))
    as (Sa & Sa1 & Sa2 & -> & -> & -> & HSa). simpl.
  destruct (fcinew_pass_b_combination c1 c2 dt _ n na nb _ _ _ lb _ _ _ Hcast1 Hlb HE
              HSa)
    as (Sb & Sb1 & Sb2 & -> & -> & -> & HSb). simpl.
  exists (flatten Sb1), (flatten Sb2). split; [done|]. split; [done|].
  by rewrite (combination_flatten c1 c2 na nb _ _ _ HSb).
Qed.

(** X6. On well-formed input [contract_2e] raises nothing: with a
    non-negative [norb], link tables whose entries are in range, a vector of
    [na * nb] elements, a tensor of [norb^4] elements and a tensor dtype that
    can be accumulated into the vector's dtype, it returns. *)
Theorem contract_2e_returns (eri fcivec : ndarray) (norb : Z) (nelec : nelec_arg)
    (link_index : option (link_table * link_table)) (la lb : link_table) :
  let neleca := (split_nelec nelec).1 in
  let nelecb := (split_nelec nelec).2 in
  let n := Z.to_nat norb in
  let na := Z.to_nat (num_strings norb neleca) in
  let nb := Z.to_nat (num_strings norb nelecb) in
  0 ≤ norb →
  unpack_link_index gen_linkstr_index norb neleca nelecb link_index = Ok (la, lb) →
  wf_link n na la → wf_link n nb lb →
  length (data fcivec) = (na * nb)%nat →
  length (data eri) = (n * n * n * n)%nat →
  can_cast (dtype_of eri) (dtype_of fcivec) = true →
  ∃ y, contract_2e gen_linkstr_index eri fcivec norb nelec link_index = Ok y.
Proof.
  intros neleca nelecb n na nb Hnorb Hlinks Hla Hlb Hvec Heri Hcast.
  destruct fcivec as [dt sh d]. simpl in *.
  destruct (contract_2e_combination C1 C0 eri dt sh d d norb nelec link_index la lb
              Hnorb Hlinks Hla Hlb Hvec Hvec Heri Hcast) as (e1 & _ & H & _).
  eauto.
Qed.

(** X7. [contract_2e] is linear in the vector: on well-formed input, for two
    vectors of one dtype and shape and any two scalars, the vector of the
    element-wise combination [c1 v1 + c2 v2] is mapped to the same combination
    of the two results. *)
Theorem contract_2e_linear (c1 c2 : C) (eri v1 v2 : ndarray) (norb : Z)
    (nelec : nelec_arg) (link_index : option (link_table * link_table))
    (la lb : link_table) :
  let neleca := (split_nelec nelec).1 in
  let nelecb := (split_nelec nelec).2 in
  let n := Z.to_nat norb in
  let na := Z.to_nat (num_strings norb neleca) in
  let nb := Z.to_nat (num_strings norb nelecb) in
  0 ≤ norb →
  unpack_link_index gen_linkstr_index norb neleca nelecb link_index = Ok (la, lb) →
  wf_link n na la → wf_link n nb lb →
  dtype_of v2 = dtype_of v1 → shape v2 = shape v1 →
  length (data v1) = (na * nb)%nat → length (data v2) = (na * nb)%nat →
  length (data eri) = (n * n * n * n)%nat →
  can_cast (dtype_of eri) (dtype_of v1) = true →
  ∃ y1 y2,
    contract_2e gen_linkstr_index eri v1 norb nelec link_index = Ok y1
    ∧ contract_2e gen_linkstr_index eri v2 norb nelec link_index = Ok y2
    ∧ contract_2e gen_linkstr_index eri
        (mk_ndarray (dtype_of v1) (shape v1)
           (vadd (vscale c1 (data v1)) (vscale c2 (data v2))))
        norb nelec link_index
      = Ok (mk_ndarray (dtype_of v1) (shape v1)
              (vadd (vscale c1 (data y1)) (vscale c2 (data y2)))).
Proof.
  intros neleca nelecb n na nb Hnorb Hlinks Hla Hlb Hdt Hsh Hv1 Hv2 Heri Hcast.
  destruct v1 as [dt sh d1], v2 as [dt2 sh2 d2]. simpl in *. subst dt2 sh2.
  destruct (contract_2e_combination c1 c2 eri dt sh d1 d2 norb nelec link_index la lb
              Hnorb Hlinks Hla Hlb Hv1 Hv2 Heri Hcast) as (e1 & e2 & H1 & H2 & H).
  eauto.
Qed.

End contract_2e_linearity.

Lemma contract_2e_returns_witness :
  let link : link_table := [[(0%nat, 0%nat, 0%nat, 1)]] in
  ∃ y, contract_2e (λ _ _, Ok link) (mk_ndarray float64 [1; 1; 1; 1]%nat [C1])
         (mk_ndarray complex128 [1%nat] [Ci]) 1 (NelecPair 1 1) (Some (link, link))
       = Ok y.
Proof.
  intros link.
  apply (contract_2e_returns (λ _ _, Ok link)
           (mk_ndarray float64 [1; 1; 1; 1]%nat [C1])
           (mk_ndarray complex128 [1%nat] [Ci]) 1 (NelecPair 1 1)
           (Some (link, link)) link link).
  - lia.
  - reflexivity.
  - split; [vm_compute; lia|]. repeat constructor; vm_compute; lia.
  - split; [vm_compute; lia|]. repeat constructor; vm_compute; lia.
  - reflexivity.
  - reflexivity.
  - reflexivity.
Defined.

Lemma contract_2e_linear_witness :
  let link : link_table := [[(0%nat, 0%nat, 0%nat, 1)]] in
  let eri := mk_ndarray float64 [1; 1; 1; 1]%nat [C1] in
  let v1 := mk_ndarray complex128 [1%nat] [C1] in
  let v2 := mk_ndarray complex128 [1%nat] [Ci] in
  ∃ y1 y2,
    contract_2e (λ _ _, Ok link) eri v1 1 (NelecPair 1 1) (Some (link, link)) = Ok y1
    ∧ contract_2e (λ _ _, Ok link) eri v2 1 (NelecPair 1 1) (Some (link, link)) = Ok y2
    ∧ contract_2e (λ _ _, Ok link) eri
        (mk_ndarray complex128 [1%nat]
           (vadd (vscale Ci (data v1)) (vscale C1 (data v2))))
        1 (NelecPair 1 1) (Some (link, link))
      = Ok (mk_ndarray complex128 [1%nat]
              (vadd (vscale Ci (data y1)) (vscale C1 (data y2)))).
Proof.
  intros link eri v1 v2.
  apply (contract_2e_linear (λ _ _, Ok link) Ci C1 eri v1 v2 1 (NelecPair 1 1)
           (Some (link, link)) link link).
  - lia.
  - reflexivity.
  - split; [vm_compute; lia|]. repeat constructor; vm_compute; lia.
  - split; [vm_compute; lia|]. repeat constructor; vm_compute; lia.
  - reflexivity.
  - reflexivity.
  - reflexivity.
  - reflexivity.
  - reflexivity.
  - reflexivity.
Defined.

(** ** [contract_2e]: the exceptions *)

Lemma for_each_no_change {A S : Type} (l : list A) (body : S → A → result S) (s : S) :
  (∀ x, x ∈ l → body s x = Ok s) → for_each l body s = Ok s.
Proof.
  induction l as [|x l IH]; intros Hb; simpl; [done|].
  rewrite Hb by left. simpl. apply IH. intros y Hy. apply Hb. by right.
Qed.

Lemma for_each_raises {A S : Type} (l : list A) (body : S → A → result S) (s : S) e :
  (∀ x, x ∈ l → body s x = Ok s ∨ body s x = Raise e) →
  (∃ x, x ∈ l ∧ body s x = Raise e) →
  for_each l body s = Raise e.
Proof.
  induction l as [|x l IH]; intros Hb (y & Hy & Hraise); simpl.
  - by apply elem_of_nil in Hy.
  - destruct (Hb x ltac:(left)) as [Hx|Hx]; rewrite Hx; simpl; [|done].
    apply IH; [intros z Hz; apply Hb; by right|].
    apply elem_of_cons in Hy as [->|Hy]; [congruence|eauto].
Qed.

Lemma elem_of_enumerate {A : Type} (l : list A) i x :
  (i, x) ∈ enumerate l ↔ l !! i = Some x.
Proof.
  unfold enumerate. rewrite elem_of_lookup_imap. split.
  - intros (j & y & [= -> ->] & H). done.
  - intros H. eauto.
Qed.

(** Without any excitation the loops do nothing. *)
Lemma t1_pass_a_no_entries dt ci0 link t1 :
  Forall (λ tab, tab = []) link → t1_pass_a dt ci0 link t1 = Ok t1.
Proof.
  intros Hl. unfold t1_pass_a. apply for_each_no_change. intros [str0 tab] Hin.
  apply elem_of_enumerate in Hin. eapply Forall_lookup_1 in Hl; [|done]. by subst.
Qed.

Lemma t1_pass_b_no_entries dt nb ci0 link t1 :
  Forall (λ tab, tab = []) link → t1_pass_b dt nb ci0 link t1 = Ok t1.
Proof.
  intros Hl. unfold t1_pass_b. apply for_each_no_change. intros [str0 tab] Hin.
  apply elem_of_enumerate in Hin. eapply Forall_lookup_1 in Hl; [|done]. by subst.
Qed.

Lemma fcinew_pass_a_no_entries dt dt1 t1 link fcinew :
  Forall (λ tab, tab = []) link → fcinew_pass_a dt dt1 t1 link fcinew = Ok fcinew.
Proof.
  intros Hl. unfold fcinew_pass_a. apply for_each_no_change. intros [str0 tab] Hin.
  apply elem_of_enumerate in Hin. eapply Forall_lookup_1 in Hl; [|done]. by subst.
Qed.

Lemma fcinew_pass_b_no_entries dt dt1 nb t1 link fcinew :
  Forall (λ tab, tab = []) link → fcinew_pass_b dt dt1 nb t1 link fcinew = Ok fcinew.
Proof.
  intros Hl. unfold fcinew_pass_b. apply for_each_no_change. intros [str0 tab] Hin.
  apply elem_of_enumerate in Hin. eapply Forall_lookup_1 in Hl; [|done]. by subst.
Qed.

(** With an output that cannot take the intermediate's dtype, the first
    excitation met raises. *)
Lemma fcinew_pass_a_raises dt dt1 n na nb t1 link fcinew :
  can_cast dt1 dt = false → wf_link n na link →
  t1_shaped n na nb t1 → well_shaped na nb fcinew →
  ¬ Forall (λ tab, tab = []) link →
  fcinew_pass_a dt dt1 t1 link fcinew = Raise TypeError.
Proof.
  intros Hcast [Hlen Hlink] Ht1 Hf Hne. unfold fcinew_pass_a.
  assert (∀ str0 tab, link !! str0 = Some tab → tab ≠ [] →
            for_each tab (λ fcinew '(a, i, str1, sign),
              blk ← get_block t1 a i;
              row ← get_row blk str0;
              iadd_row dt dt1 fcinew str1 (vscale (ZtoC sign) row)) fcinew
            = Raise TypeError) as Hinner.
  { intros str0 tab Htab Hnil. destruct tab as [|[[[a i] str1] sign] tab]; [done|].
    eapply Forall_lookup_1 in Hlink; [|done].
    apply Forall_cons in Hlink as [(Ha & Hi & Hstr1) _].
    apply lookup_lt_Some in Htab. simpl.
    rewrite (get_block_at n na nb) by done. simpl.
    pose proof (t1_shaped_blk_at n na nb t1 a i Ht1 Ha Hi) as Hblk.
    assert (str0 < na)%nat as Hs0
      by (eapply Nat.lt_le_trans; [exact Htab|exact Hlen]).
    destruct (get_row_at na nb (blk_at t1 a i) str0 Hblk Hs0) as [-> _]. simpl.
    unfold iadd_row. destruct (get_row_at na nb fcinew str1 Hf Hstr1) as [-> _].
    simpl. by rewrite Hcast. }
  apply for_each_raises.
  - intros [str0 tab] Hin. apply elem_of_enumerate in Hin.
    destruct tab as [|e tab]; [by left|]. right. by apply Hinner.
  - apply not_Forall_Exists in Hne; [|intros tab; apply _].
    apply Exists_exists in Hne as (tab & Hin & Hnil).
    apply list_elem_of_lookup in Hin as [str0 Hin].
    exists (str0, tab). split; [by apply elem_of_enumerate|]. by apply Hinner.
Qed.

Lemma fcinew_pass_b_raises dt dt1 n na nb t1 link fcinew :
  can_cast dt1 dt = false → wf_link n nb link →
  t1_shaped n na nb t1 → well_shaped na nb fcinew →
  ¬ Forall (λ tab, tab = []) link →
  fcinew_pass_b dt dt1 nb t1 link fcinew = Raise TypeError.
Proof.
  intros Hcast [Hlen Hlink] Ht1 Hf Hne. unfold fcinew_pass_b.
  assert (∀ str0 tab, link !! str0 = Some tab → tab ≠ [] →
            for_each tab (λ fcinew '(a, i, str1, sign),
              blk ← get_block t1 a i;
              col ← get_col nb blk str0;
              iadd_col dt dt1 nb fcinew str1 (vscale (ZtoC sign) col)) fcinew
            = Raise TypeError) as Hinner.
  { intros str0 tab Htab Hnil. destruct tab as [|[[[a i] str1] sign] tab]; [done|].
    eapply Forall_lookup_1 in Hlink; [|done].
    apply Forall_cons in Hlink as [(Ha & Hi & Hstr1) _].
    apply lookup_lt_Some in Htab. simpl.
    rewrite (get_block_at n na nb) by done. simpl.
    pose proof (t1_shaped_blk_at n na nb t1 a i Ht1 Ha Hi) as Hblk.
    assert (str0 < nb)%nat as Hs0
      by (eapply Nat.lt_le_trans; [exact Htab|exact Hlen]).
    destruct (get_col_at na nb (blk_at t1 a i) str0 Hblk Hs0) as (-> & _). simpl.
    unfold iadd_col. rewrite decide_True by done. by rewrite Hcast. }
  apply for_each_raises.
  - intros [str0 tab] Hin. apply elem_of_enumerate in Hin.
    destruct tab as [|e tab]; [by left|]. right. by apply Hinner.
  - apply not_Forall_Exists in Hne; [|intros tab; apply _].
    apply Exists_exists in Hne as (tab & Hin & Hnil).
    apply list_elem_of_lookup in Hin as [str0 Hin].
    exists (str0, tab). split; [by apply elem_of_enumerate|]. by apply Hinner.
Qed.

Section contract_2e_errors.
Variable gen_linkstr_index : Z → Z → result link_table.

(** X8. A complex128 tensor cannot be contracted with a float64 vector: on
    otherwise well-formed input with at least one excitation in the link
    tables, [contract_2e] raises [TypeError] (the complex intermediate is
    accumulated in place into the float64 output). *)
Theorem contract_2e_complex_tensor_real_vector (eri fcivec : ndarray) (norb : Z)
    (nelec : nelec_arg) (link_index : option (link_table * link_table))
    (la lb : link_table) :
  let neleca := (split_nelec nelec).1 in
  let nelecb := (split_nelec nelec).2 in
  let n := Z.to_nat norb in
  let na := Z.to_nat (num_strings norb neleca) in
  let nb := Z.to_nat (num_strings norb nelecb) in
  0 ≤ norb →
  unpack_link_index gen_linkstr_index norb neleca nelecb link_index = Ok (la, lb) →
  wf_link n na la → wf_link n nb lb →
  length (data fcivec) = (na * nb)%nat →
  length (data eri) = (n * n * n * n)%nat →
  dtype_of eri = complex128 → dtype_of fcivec = float64 →
  ¬ Forall (λ tab, tab = []) (la ++ lb) →
  contract_2e gen_linkstr_index eri fcivec norb nelec link_index = Raise TypeError.
Proof.
  intros neleca nelecb n na nb Hnorb Hlinks Hla Hlb Hvec Heri Hde Hdv Hne.
  unfold contract_2e. destruct (split_nelec nelec) as [ea eb] eqn:Esplit.
  simpl in neleca, nelecb. subst neleca nelecb. rewrite Hlinks. simpl.
  fold na nb n. unfold reshape2. rewrite decide_True by done. simpl.
  unfold extent. rewrite decide_True by done. simpl. fold n.
  pose proof (to_rows_well_shaped na nb (data fcivec) Hvec) as Hci0.
  destruct (t1_pass_a_ok (dtype_of fcivec) n na nb _ la _ Hla Hci0
              (t1_zeros_shaped n na nb)) as (t1a & -> & Ht1a). simpl.
  destruct (t1_pass_b_ok (dtype_of fcivec) n na nb _ lb _ Hlb Hci0 Ht1a)
    as (t1b & -> & Ht1b). simpl.
  rewrite decide_True by done. simpl.
  pose proof (einsum_bjai_shaped n na nb (data eri) t1b Ht1b) as HE.
  assert (can_cast (result_type (dtype_of eri) (dtype_of fcivec)) (dtype_of fcivec)
          = false) as Hcast by (by rewrite Hde, Hdv).
  destruct (decide (Forall (λ tab : list link_entry, tab = []) la)) as [Hea|Hea].
  - rewrite fcinew_pass_a_no_entries by done. simpl.
    rewrite (fcinew_pass_b_raises _ _ n na nb); try done.
    + apply mzeros_well_shaped.
    + intros Heb. apply Hne. by apply Forall_app.
  - rewrite (fcinew_pass_a_raises _ _ n na nb); try done. apply mzeros_well_shaped.
Qed.

(** X9. Without a single excitation in the link tables (as with no electron
    at all) [contract_2e] returns the zero vector, whatever the tensor holds
    and whatever its dtype. *)
Theorem contract_2e_no_excitation (eri fcivec : ndarray) (norb : Z)
    (nelec : nelec_arg) (link_index : option (link_table * link_table))
    (la lb : link_table) :
  let neleca := (split_nelec nelec).1 in
  let nelecb := (split_nelec nelec).2 in
  let n := Z.to_nat norb in
  let na := Z.to_nat (num_strings norb neleca) in
  let nb := Z.to_nat (num_strings norb nelecb) in
  0 ≤ norb →
  unpack_link_index gen_linkstr_index norb neleca nelecb link_index = Ok (la, lb) →
  Forall (λ tab, tab = []) la → Forall (λ tab, tab = []) lb →
  length (data fcivec) = (na * nb)%nat →
  length (data eri) = (n * n * n * n)%nat →
  contract_2e gen_linkstr_index eri fcivec norb nelec link_index
  = Ok (mk_ndarray (dtype_of fcivec) (shape fcivec)
          (replicate (length (data fcivec)) C0)).
Proof.
  intros neleca nelecb n na nb Hnorb Hlinks Hla Hlb Hvec Heri.
  unfold contract_2e. destruct (split_nelec nelec) as [ea eb] eqn:Esplit.
  simpl in neleca, nelecb. subst neleca nelecb. rewrite Hlinks. simpl.
  fold na nb n. unfold reshape2. rewrite decide_True by done. simpl.
  unfold extent. rewrite decide_True by done. simpl. fold n.
  rewrite t1_pass_a_no_entries by done. simpl.
  rewrite t1_pass_b_no_entries by done. simpl.
  rewrite decide_True by done. simpl.
  rewrite fcinew_pass_a_no_entries by done. simpl.
  rewrite fcinew_pass_b_no_entries by done. simpl.
  by rewrite flatten_mzeros, Hvec.
Qed.

(** X10. [contract_2e] raises [ValueError] when the vector does not have
    [get_dimension(norb, nelec)] elements, when [norb] is negative, and, on
    otherwise well-formed input, when the tensor does not have [norb^4]
    elements. *)
Theorem contract_2e_value_errors (eri fcivec : ndarray) (norb : Z)
    (nelec : nelec_arg) (link_index : option (link_table * link_table))
    (la lb : link_table) (dim : Z) :
  let neleca := (split_nelec nelec).1 in
  let nelecb := (split_nelec nelec).2 in
  let n := Z.to_nat norb in
  unpack_link_index gen_linkstr_index norb neleca nelecb link_index = Ok (la, lb) →
  get_dimension norb (split_nelec nelec) = Ok dim →
  (length (data fcivec) ≠ Z.to_nat dim →
   contract_2e gen_linkstr_index eri fcivec norb nelec link_index = Raise ValueError)
  ∧ (norb < 0 →
     contract_2e gen_linkstr_index eri fcivec norb nelec link_index = Raise ValueError)
  ∧ (0 ≤ norb →
     wf_link n (Z.to_nat (num_strings norb neleca)) la →
     wf_link n (Z.to_nat (num_strings norb nelecb)) lb →
     length (data fcivec) = Z.to_nat dim →
     length (data eri) ≠ (n * n * n * n)%nat →
     contract_2e gen_linkstr_index eri fcivec norb nelec link_index = Raise ValueError).
Proof.
  intros neleca nelecb n Hlinks Hdim.
  unfold contract_2e. destruct (split_nelec nelec) as [ea eb] eqn:Esplit.
  simpl in neleca, nelecb. subst neleca nelecb. rewrite Hlinks. simpl.
  apply get_dimension_num_strings in Hdim. rewrite Hdim.
  set (na := Z.to_nat (num_strings norb ea)).
  set (nb := Z.to_nat (num_strings norb eb)).
  unfold reshape2, extent. split; [|split].
  - intros Hlen.
    destruct (decide (length (data fcivec) = (na * nb)%nat)); [done|reflexivity].
  - intros Hneg. destruct (decide (length (data fcivec) = (na * nb)%nat)); [|done].
    simpl. rewrite decide_False by lia. reflexivity.
  - intros Hnorb Hla Hlb Hvec Heri.
    rewrite !decide_True by done. simpl. fold n.
    pose proof (to_rows_well_shaped na nb (data fcivec) Hvec) as Hci0.
    destruct (t1_pass_a_ok (dtype_of fcivec) n na nb _ la _ Hla Hci0
                (t1_zeros_shaped n na nb)) as (t1a & -> & Ht1a). simpl.
    destruct (t1_pass_b_ok (dtype_of fcivec) n na nb _ lb _ Hlb Hci0 Ht1a)
      as (t1b & -> & Ht1b). simpl.
    destruct (decide (length (data eri) = (n * n * n * n)%nat)); [done|reflexivity].
Qed.

End contract_2e_errors.

Lemma contract_2e_complex_tensor_real_vector_witness :
  let link : link_table := [[(0%nat, 0%nat, 0%nat, 1)]] in
  contract_2e (λ _ _, Ok link) (mk_ndarray complex128 [1; 1; 1; 1]%nat [Ci])
    (mk_ndarray float64 [1%nat] [C1]) 1 (NelecPair 1 1) (Some (link, link))
  = Raise TypeError.
Proof.
  intros link.
  apply (contract_2e_complex_tensor_real_vector (λ _ _, Ok link)
           (mk_ndarray complex128 [1; 1; 1; 1]%nat [Ci])
           (mk_ndarray float64 [1%nat] [C1]) 1 (NelecPair 1 1)
           (Some (link, link)) link link).
  - lia.
  - reflexivity.
  - split; [vm_compute; lia|]. repeat constructor; vm_compute; lia.
  - split; [vm_compute; lia|]. repeat constructor; vm_compute; lia.
  - reflexivity.
  - reflexivity.
  - reflexivity.
  - reflexivity.
  - intros H. apply Forall_inv in H. discriminate H.
Defined.

Lemma contract_2e_no_excitation_witness :
  contract_2e (λ _ _, Ok [[]]) (mk_ndarray complex128 [1; 1; 1; 1]%nat [Ci])
    (mk_ndarray float64 [1%nat] [C1]) 1 (NelecPair 0 0) None
  = Ok (mk_ndarray float64 [1%nat] [C0]).
Proof.
  apply (contract_2e_no_excitation (λ _ _, Ok [[]])
           (mk_ndarray complex128 [1; 1; 1; 1]%nat [Ci])
           (mk_ndarray float64 [1%nat] [C1]) 1 (NelecPair 0 0) None [[]] [[]]).
  - lia.
  - reflexivity.
  - by repeat constructor.
  - by repeat constructor.
  - reflexivity.
  - reflexivity.
Defined.

Lemma contract_2e_value_errors_witness :
  let link : link_table := [[(0%nat, 0%nat, 0%nat, 1)]] in
  contract_2e (λ _ _, Ok link) (mk_ndarray float64 [1; 1; 1; 1]%nat [C1])
    (mk_ndarray float64 [2%nat] [C1; C1]) 1 (NelecPair 1 1) (Some (link, link))
  = Raise ValueError.
Proof.
  intros link.
  refine (proj1 (contract_2e_value_errors (λ _ _, Ok link)
                   (mk_ndarray float64 [1; 1; 1; 1]%nat [C1])
                   (mk_ndarray float64 [2%nat] [C1; C1]) 1 (NelecPair 1 1)
                   (Some (link, link)) link link 1 eq_refl eq_refl) _).
  simpl. lia.
Defined.

(** ** The Hamiltonian operator and the cached link tables *)

Section hamiltonian_linop.
Variable gen_linkstr_index : Z → Z → result link_table.
Variable absorb_h1e : ndarray → ndarray → Z → Z * Z → result ndarray.

(** Handing [contract_2e] the tables [gen_linkstr_index] returns is the same
    as letting it generate them. *)
Lemma contract_2e_cached eri fcivec norb neleca nelecb la lb :
  gen_linkstr_index norb neleca = Ok la → gen_linkstr_index norb nelecb = Ok lb →
  contract_2e gen_linkstr_index eri fcivec norb (NelecPair neleca nelecb)
    (Some (la, lb))
  = contract_2e gen_linkstr_index eri fcivec norb (NelecPair neleca nelecb) None.
Proof. intros Ha Hb. unfold contract_2e. simpl. by rewrite Ha, Hb. Qed.

(** X11. The operator [get_hamiltonian_linop] builds has the dimension
    [get_dimension] reports; applied to a one-dimensional vector of that
    length, or to a single column of that length, it gives exactly what
    [contract_2e] gives for the absorbed tensor without cached tables (result
    or exception), and for a one-dimensional vector of any other length it
    raises [ValueError]. *)
Theorem hamiltonian_linop_apply (one_body_tensor two_body_tensor : ndarray)
    (norb : Z) (nelec : Z * Z) (op : LinearOperator (ndarray → result ndarray)) :
  get_hamiltonian_linop gen_linkstr_index absorb_h1e one_body_tensor two_body_tensor
    norb nelec = Ok op →
  ∃ two_body dim,
    absorb_h1e one_body_tensor two_body_tensor norb nelec = Ok two_body
    ∧ get_dimension norb nelec = Ok dim
    ∧ lo_shape op = (dim, dim)
    ∧ ∀ vec,
        (shape vec = [Z.to_nat dim] ∨ shape vec = [Z.to_nat dim; 1%nat] →
         linop_apply op vec
         = contract_2e gen_linkstr_index two_body vec norb
             (NelecPair nelec.1 nelec.2) None)
        ∧ (∀ k, shape vec = [k] → k ≠ Z.to_nat dim →
           linop_apply op vec = Raise ValueError).
Proof.
  unfold get_hamiltonian_linop. destruct nelec as [n_alpha n_beta]. intros H.
  apply result_bind_Ok_inv in H as (la & Hla & H).
  apply result_bind_Ok_inv in H as (lb & Hlb & H).
  apply result_bind_Ok_inv in H as (two_body & Htwo & H).
  apply result_bind_Ok_inv in H as (dim & Hdim & H).
  injection H as <-. exists two_body, dim.
  split; [done|]. split; [done|]. split; [done|].
  intros vec. split.
  - intros Hshape.
    transitivity (linop_matvec
                    (mk_LinearOperator (dim, dim)
                       (λ vec, contract_2e gen_linkstr_index two_body vec norb
                                 (NelecPair n_alpha n_beta) (Some (la, lb)))
                       (λ vec, contract_2e gen_linkstr_index two_body vec norb
                                 (NelecPair n_alpha n_beta) (Some (la, lb)))
                       (dtype_of one_body_tensor)) vec).
    { unfold linop_apply. by destruct Hshape as [-> | ->]. }
    unfold linop_matvec. cbn [lo_shape lo_matvec fst snd].
    rewrite decide_True by done.
    rewrite (contract_2e_cached _ _ _ _ _ _ _ Hla Hlb).
    destruct (contract_2e _ _ _ _ _ None) as [y|e] eqn:Hy; [|done].
    cbn [mbind result_bind].
    apply contract_2e_Ok_inv in Hy as (Hdt & Hsh & _ & Hlen). simpl in Hlen.
    rewrite <- (get_dimension_num_strings _ _ _ _ Hdim) in Hlen.
    rewrite decide_True by done. destruct y as [dt sh d]. cbn [dtype_of shape data] in *.
    subst sh. by destruct Hshape as [-> | ->].
  - intros k Hshape Hk. unfold linop_apply. rewrite Hshape.
    unfold linop_matvec. cbn [lo_shape]. rewrite Hshape.
    rewrite decide_False; [done|]. intros [[= ->]|[=]]. done.
Qed.

End hamiltonian_linop.

Lemma hamiltonian_linop_apply_witness :
  let link : link_table := [[(0%nat, 0%nat, 0%nat, 1)]] in
  let tensor := mk_ndarray float64 [1; 1; 1; 1]%nat [C1] in
  ∃ op two_body dim,
    get_hamiltonian_linop (λ _ _, Ok link) (λ _ t _ _, Ok t) tensor tensor 1 (1, 1)
    = Ok op
    ∧ get_dimension 1 (1, 1) = Ok dim
    ∧ lo_shape op = (dim, dim)
    ∧ ∀ vec,
        (shape vec = [Z.to_nat dim] ∨ shape vec = [Z.to_nat dim; 1%nat] →
         linop_apply op vec
         = contract_2e (λ _ _, Ok link) two_body vec 1 (NelecPair 1 1) None)
        ∧ (∀ k, shape vec = [k] → k ≠ Z.to_nat dim →
           linop_apply op vec = Raise ValueError).
Proof.
  intros link tensor. eexists.
  destruct (hamiltonian_linop_apply (λ _ _, Ok link) (λ _ t _ _, Ok t) tensor tensor
              1 (1, 1) _ eq_refl) as (two_body & dim & _ & Hdim & Hshape & Happly).
  exists two_body, dim. split; [reflexivity|]. split; [exact Hdim|].
  split; [exact Hshape|exact Happly].
Defined.

(** ** The contractions over the store: what they allocate *)

Lemma triple_conj_frame {A : Type} (P P' : store → Prop) (m : M A)
    (Q Q' : A → store → Prop) (E : store → Prop) :
  triple P m Q any → triple P' m Q' E →
  triple (λ σ, P σ ∧ P' σ) m (λ a σ, Q a σ ∧ Q' a σ) E.
Proof.
  intros H H' σ [HP HP']. specialize (H σ HP). specialize (H' σ HP').
  destruct (m σ) as [[a|e] σ']; auto.
Qed.

Lemma triple_conj_pre {A : Type} (P : store → Prop) (m : M A)
    (Q Q' : A → store → Prop) (E : store → Prop) :
  triple P m Q any → triple P m Q' E →
  triple P m (λ a σ, Q a σ ∧ Q' a σ) E.
Proof.
  intros H H' σ HP. specialize (H σ HP). specialize (H' σ HP).
  destruct (m σ) as [[a|e] σ']; auto.
Qed.

Lemma triple_weaken_pre {A : Type} (P P' : store → Prop) (m : M A)
    (Q : A → store → Prop) (E : store → Prop) :
  triple P' m Q E → (∀ σ, P σ → P' σ) → triple P m Q E.
Proof. intros H HP σ Hσ. apply H. auto. Qed.

Lemma alive_insert l l' b σ : alive l σ → alive l (<[l' := b]> σ).
Proof. intros H. apply lookup_insert_is_Some'. by right. Qed.

Lemma alive_insert_eq l b (σ : store) : alive l (<[l := b]> σ).
Proof. apply lookup_insert_is_Some'. by left. Qed.

Lemma write_matrix_alive l v m :
  triple (alive l) (write_matrix v m) (λ _, alive l) any.
Proof. intros σ Hσ. by apply alive_insert. Qed.

Lemma contract_num_op_sum_spin_into_buffer_alive l vec coeffs occ out :
  triple (alive l) (contract_num_op_sum_spin_into_buffer vec coeffs occ out)
    (λ _, alive l) any.
Proof.
  unfold contract_num_op_sum_spin_into_buffer.
  eapply triple_bind; [apply triple_ro_any, read_matrix_ro|]. intros v.
  eapply triple_bind; [apply triple_ro_any, read_flat_ro|]. intros c.
  eapply triple_bind; [apply triple_ro_any, read_matrix_ro|]. intros o.
  apply write_matrix_alive.
Qed.

Lemma contract_diag_coulomb_into_buffer_alive l vec mat norb mab occ_a occ_b out :
  triple (alive l) (contract_diag_coulomb_into_buffer vec mat norb mab occ_a occ_b out)
    (λ _, alive l) any.
Proof.
  unfold contract_diag_coulomb_into_buffer.
  eapply triple_bind; [apply triple_ro_any, read_matrix_ro|]. intros v.
  eapply triple_bind; [apply triple_ro_any, read_matrix_ro|]. intros m.
  eapply triple_bind; [apply triple_ro_any, read_matrix_ro|]. intros m'.
  eapply triple_bind; [apply triple_ro_any, read_matrix_ro|]. intros o.
  apply write_matrix_alive.
Qed.

Lemma zeros_like_alive (P : store → Prop) v :
  triple P (zeros_like v) (λ v' σ, alive (base v') σ) any.
Proof. intros σ _. apply alive_insert_eq. Qed.

Lemma reshape_alive v new :
  triple (alive (base v)) (reshape v new) (λ v' σ, alive (base v') σ) any.
Proof.
  unfold reshape. case_decide; [|by apply triple_raise].
  destruct (lay v) as [n|r c [|]].
  - by apply triple_ret.
  - intros σ _. apply alive_insert_eq.
  - by apply triple_ret.
Qed.

Lemma base_view_T v : base (view_T v) = base v.
Proof. unfold view_T. by destruct (lay v). Qed.

Section allocation.
Variable gen_occslst : Z → Z → result (list (list nat)).

Lemma contract_num_op_sum_triple σ vec coeffs norb nelec occ_a occ_b :
  triple (unchanged σ)
    (contract_num_op_sum gen_occslst vec coeffs norb nelec occ_a occ_b)
    (λ y σ', alive (base y) σ' ∧ fresh_in σ y ∧ unchanged σ σ') (unchanged σ).
Proof.
  unfold contract_num_op_sum. destruct nelec as [n_alpha n_beta].
  eapply triple_bind; [apply occupations_or_frame|]. intros oa.
  eapply triple_bind; [apply occupations_or_frame|]. intros ob.
  eapply triple_bind; [apply triple_lift with (Q := λ _, unchanged σ); auto|].
  intros dim_a.
  eapply triple_bind; [apply triple_lift with (Q := λ _, unchanged σ); auto|].
  intros dim_b.
  eapply triple_bind; [apply reshape_frame|]. intros vec'.
  apply triple_pure_pre. intros _.
  eapply triple_bind.
  { apply (triple_conj_pre _ _ _ _ _ (zeros_like_alive _ vec')
             (zeros_like_frame σ vec')). }
  intros out. simpl.
  eapply triple_pre_pure; [intros σ1 (_ & Hf & _); exact Hf|]. intros Hout.
  eapply triple_weaken_pre;
    [|intros σ1 (Hal & _ & Hun); exact (conj Hal Hun)].
  assert (fresh_in σ (view_T out)) as HoutT
    by (unfold fresh_in; by rewrite base_view_T).
  eapply triple_bind.
  { apply (triple_conj_frame _ _ _ _ _ _
             (contract_num_op_sum_spin_into_buffer_alive (base out) vec' coeffs oa out)
             (contract_num_op_sum_spin_into_buffer_frame σ vec' coeffs oa out Hout)). }
  intros []. simpl.
  eapply triple_bind.
  { apply (triple_conj_frame _ _ _ _ _ _
             (contract_num_op_sum_spin_into_buffer_alive (base out) (view_T vec')
                coeffs ob (view_T out))
             (contract_num_op_sum_spin_into_buffer_frame σ (view_T vec') coeffs ob
                (view_T out) HoutT)). }
  intros []. simpl. rewrite view_T_T.
  eapply triple_weaken;
    [apply (triple_conj_frame _ _ _ _ _ _ (reshape_alive out _) (reshape_frame σ out _))
    |auto| |auto].
  intros y σ1 (Hal & Hfr & Hun). auto.
Qed.

Lemma contract_diag_coulomb_triple σ vec mat norb nelec mab occ_a occ_b :
  triple (unchanged σ)
    (contract_diag_coulomb gen_occslst vec mat norb nelec mab occ_a occ_b)
    (λ y σ', alive (base y) σ' ∧ fresh_in σ y ∧ unchanged σ σ') (unchanged σ).
Proof.
  unfold contract_diag_coulomb. destruct nelec as [n_alpha n_beta].
  eapply triple_bind; [apply triple_lift with (Q := λ _, unchanged σ); auto|].
  intros dim_a.
  eapply triple_bind; [apply triple_lift with (Q := λ _, unchanged σ); auto|].
  intros dim_b.
  eapply triple_bind; [apply occupations_or_frame|]. intros oa.
  eapply triple_bind; [apply occupations_or_frame|]. intros ob.
  eapply triple_bind; [apply copy_frame|]. intros mat'.
  apply triple_pure_pre. intros Hmat'.
  eapply triple_bind; [by apply imul_diag_half_frame|]. intros [].
  eapply triple_bind; [apply reshape_frame|]. intros vec'.
  apply triple_pure_pre. intros _.
  eapply triple_bind.
  { apply (triple_conj_pre _ _ _ _ _ (zeros_like_alive _ vec')
             (zeros_like_frame σ vec')). }
  intros out. simpl.
  eapply triple_pre_pure; [intros σ1 (_ & Hf & _); exact Hf|]. intros Hout.
  eapply triple_weaken_pre;
    [|intros σ1 (Hal & _ & Hun); exact (conj Hal Hun)].
  eapply triple_bind.
  { apply (triple_conj_frame _ _ _ _ _ _
             (contract_diag_coulomb_into_buffer_alive (base out) vec' mat' norb
                (default mat mab) oa ob out)
             (contract_diag_coulomb_into_buffer_frame σ vec' mat' norb
                (default mat mab) oa ob out Hout)). }
  intros []. simpl.
  eapply triple_weaken;
    [apply (triple_conj_frame _ _ _ _ _ _ (reshape_alive out _) (reshape_frame σ out _))
    |auto| |auto].
  intros y σ1 (Hal & Hfr & Hun). auto.
Qed.

(** X12. [contract_num_op_sum] never mutates a caller-visible array and never
    returns a view of one: whether it returns or raises, every buffer that
    existed before the call holds afterwards what it held before, and the
    array it returns lives in a buffer that did not exist before. *)
Theorem contract_num_op_sum_frame (σ : store) (vec coeffs : view) (norb : Z)
    (nelec : Z * Z) (occupations_a occupations_b : option (list (list nat))) :
  unchanged σ
    (contract_num_op_sum gen_occslst vec coeffs norb nelec
       occupations_a occupations_b σ).2
  ∧ ∀ y σ',
      contract_num_op_sum gen_occslst vec coeffs norb nelec
        occupations_a occupations_b σ = (Ok y, σ') →
      σ !! base y = None ∧ is_Some (σ' !! base y).
Proof.
  pose proof (contract_num_op_sum_triple σ vec coeffs norb nelec
                occupations_a occupations_b σ (unchanged_refl σ)) as H.
  destruct (contract_num_op_sum _ _ _ _ _ _ _ σ) as [[y|e] σ1]; simpl.
  - destruct H as (Hal & Hfr & Hun). split; [done|].
    intros y' σ' [= <- <-]. done.
  - split; [done|]. intros y' σ' [=].
Qed.

(** X13. The array [contract_diag_coulomb] returns is never a view of a
    caller-visible array: it lives in a buffer that did not exist before the
    call and exists after it, so writing to the result cannot change [vec],
    [mat] or [mat_alpha_beta]. *)
Theorem contract_diag_coulomb_result_fresh (σ : store) (vec mat : view) (norb : Z)
    (nelec : Z * Z) (mat_alpha_beta : option view)
    (occupations_a occupations_b : option (list (list nat))) :
  match contract_diag_coulomb gen_occslst vec mat norb nelec mat_alpha_beta
          occupations_a occupations_b σ with
  | (Ok y, σ') => σ !! base y = None ∧ is_Some (σ' !! base y)
  | (Raise _, _) => True
  end.
Proof.
  pose proof (contract_diag_coulomb_triple σ vec mat norb nelec mat_alpha_beta
                occupations_a occupations_b σ (unchanged_refl σ)) as H.
  destruct (contract_diag_coulomb _ _ _ _ _ _ _ _ σ) as [[y|e] σ1]; [|done].
  destruct H as (Hal & Hfr & Hun). done.
Qed.

(** ** The contractions over the store: the exceptions *)

Lemma occupations_or_run given norb nocc σ :
  (given = None → ¬ raises (gen_occslst norb nocc)) →
  ∃ occ, occupations_or gen_occslst given norb nocc σ = (Ok occ, σ).
Proof.
  intros H. destruct given as [occ|]; simpl; [by eexists|].
  unfold lift. destruct (gen_occslst norb nocc) as [occ|e]; [by eexists|].
  exfalso. apply H; [done|]. by exists e.
Qed.

Lemma get_dimension_to_nat norb n_alpha n_beta dim :
  get_dimension norb (n_alpha, n_beta) = Ok dim →
  ∃ dim_a dim_b, comb norb n_alpha = Ok dim_a ∧ comb norb n_beta = Ok dim_b
    ∧ Z.to_nat dim = (Z.to_nat dim_a * Z.to_nat dim_b)%nat.
Proof.
  intros H. apply get_dimension_combs in H as (da & db & Ha & Hb & H0a & H0b & ->).
  exists da, db. split; [done|]. split; [done|]. by apply Z2Nat.inj_mul.
Qed.

(** X14. Given a vector whose size is not [get_dimension(norb, nelec)],
    [contract_num_op_sum] raises [ValueError] and leaves the store exactly as
    it was (unless generating the occupation lists itself raises). *)
Theorem contract_num_op_sum_wrong_size (σ : store) (vec coeffs : view) (norb : Z)
    (nelec : Z * Z) (occupations_a occupations_b : option (list (list nat)))
    (dim : Z) :
  (occupations_a = None → ¬ raises (gen_occslst norb nelec.1)) →
  (occupations_b = None → ¬ raises (gen_occslst norb nelec.2)) →
  get_dimension norb nelec = Ok dim →
  layout_size (lay vec) ≠ Z.to_nat dim →
  contract_num_op_sum gen_occslst vec coeffs norb nelec occupations_a occupations_b σ
  = (Raise ValueError, σ).
Proof.
  destruct nelec as [n_alpha n_beta]. simpl. intros Hoa Hob Hdim Hsize.
  destruct (occupations_or_run occupations_a norb n_alpha σ Hoa) as (oa & Hra).
  destruct (occupations_or_run occupations_b norb n_beta σ Hob) as (ob & Hrb).
  apply get_dimension_to_nat in Hdim as (da & db & Ha & Hb & Hdim).
  rewrite Hdim in Hsize.
  unfold contract_num_op_sum. rewrite Ha, Hb.
  rewrite (bind_Ok_run _ _ σ oa σ) by done.
  rewrite (bind_Ok_run _ _ σ ob σ) by done.
  rewrite (bind_Ok_run _ _ σ da σ) by done.
  rewrite (bind_Ok_run _ _ σ db σ) by done.
  unfold reshape. cbn [layout_size]. rewrite decide_False by done. reflexivity.
Qed.

(** X15. [contract_diag_coulomb] raises [IndexError] when [mat] is
    one-dimensional or has fewer than [norb] rows or columns, and, with a
    large enough [mat], [ValueError] when the size of [vec] is not
    [get_dimension(norb, nelec)] (unless generating the occupation lists
    itself raises). *)
Theorem contract_diag_coulomb_errors (σ : store) (vec mat : view) (norb : Z)
    (nelec : Z * Z) (mat_alpha_beta : option view)
    (occupations_a occupations_b : option (list (list nat))) (dim : Z) :
  (occupations_a = None → ¬ raises (gen_occslst norb nelec.1)) →
  (occupations_b = None → ¬ raises (gen_occslst norb nelec.2)) →
  get_dimension norb nelec = Ok dim →
  ((∀ r c t, lay mat = Mat r c t → ¬ (norb ≤ Z.of_nat r ∧ norb ≤ Z.of_nat c)) →
   (contract_diag_coulomb gen_occslst vec mat norb nelec mat_alpha_beta
      occupations_a occupations_b σ).1 = Raise IndexError)
  ∧ (∀ r c t, lay mat = Mat r c t → norb ≤ Z.of_nat r → norb ≤ Z.of_nat c →
       layout_size (lay vec) ≠ Z.to_nat dim →
       (contract_diag_coulomb gen_occslst vec mat norb nelec mat_alpha_beta
          occupations_a occupations_b σ).1 = Raise ValueError).
Proof.
  destruct nelec as [n_alpha n_beta]. simpl. intros Hoa Hob Hdim.
  destruct (occupations_or_run occupations_a norb n_alpha σ Hoa) as (oa & Hra).
  destruct (occupations_or_run occupations_b norb n_beta σ Hob) as (ob & Hrb).
  apply get_dimension_to_nat in Hdim as (da & db & Ha & Hb & Hdim).
  unfold contract_diag_coulomb. rewrite Ha, Hb.
  rewrite (bind_Ok_run _ _ σ da σ) by done.
  rewrite (bind_Ok_run _ _ σ db σ) by done.
  rewrite (bind_Ok_run _ _ σ oa σ) by done.
  rewrite (bind_Ok_run _ _ σ ob σ) by done.
  set (l := fresh (dom σ)).
  set (b := mk_buffer (buf_dtype (σ !!! base mat))
              (view_data (lay mat) (buf_data (σ !!! base mat)))).
  set (mat' := mk_view l (match lay mat with
                          | Mat r c _ => Mat r c false
                          | Flat n => Flat n
                          end)).
  assert (copy mat σ = (Ok mat', <[l := b]> σ)) as Hcopy by reflexivity.
  rewrite (bind_Ok_run _ _ _ _ _ Hcopy). split.
  - intros Hsmall. unfold imul_diag_half. subst mat'. cbn [lay].
    destruct (lay mat) as [k|r c t]; [reflexivity|].
    rewrite decide_False by eauto. reflexivity.
  - intros r c t Hlay Hr Hc Hsize. rewrite Hdim in Hsize.
    subst mat'. rewrite Hlay.
    assert (imul_diag_half (mk_view l (Mat r c false)) norb (<[l := b]> σ)
            = (Ok (), <[l := mk_buffer (buf_dtype b)
                             (flatten (halve_diag (Z.to_nat norb)
                                         (to_rows r c (buf_data b))))]>
                        (<[l := b]> σ))) as Himul.
    { unfold imul_diag_half. cbn [lay]. rewrite decide_True by done.
      unfold read_matrix, write_matrix, write_data, load, lift.
      cbv beta iota zeta delta [mbind M_bind mret M_ret base lay view_rows rows_data].
      by rewrite lookup_total_insert_eq. }
    rewrite (bind_Ok_run _ _ _ _ _ Himul).
    unfold reshape. cbn [layout_size]. rewrite decide_False by done. reflexivity.
Qed.

End allocation.

Lemma contract_num_op_sum_wrong_size_witness :
  let gen := λ _ _ : Z, Ok [[0%nat]] in
  let σ : store :=
    <[0%nat := mk_buffer complex128 [C1; C1]]> (<[1%nat := mk_buffer float64 [C1]]> ∅) in
  contract_num_op_sum gen (mk_view 0%nat (Flat 2)) (mk_view 1%nat (Flat 1))
    1 (1, 1) None None σ
  = (Raise ValueError, σ).
Proof.
  intros gen σ.
  apply (contract_num_op_sum_wrong_size gen σ (mk_view 0%nat (Flat 2))
           (mk_view 1%nat (Flat 1)) 1 (1, 1) None None 1).
  - intros _ [e He]. discriminate He.
  - intros _ [e He]. discriminate He.
  - reflexivity.
  - simpl. lia.
Defined.

Lemma contract_diag_coulomb_errors_witness :
  let gen := λ _ _ : Z, Ok [[0%nat]] in
  let σ : store :=
    <[0%nat := mk_buffer complex128 [C1]]> (<[1%nat := mk_buffer float64 [C1]]> ∅) in
  (contract_diag_coulomb gen (mk_view 0%nat (Flat 1)) (mk_view 1%nat (Flat 1))
     1 (1, 1) None None None σ).1
  = Raise IndexError.
Proof.
  intros gen σ.
  refine (proj1 (contract_diag_coulomb_errors gen σ (mk_view 0%nat (Flat 1))
                   (mk_view 1%nat (Flat 1)) 1 (1, 1) None None None 1 _ _ eq_refl) _).
  - intros _ [e He]. discriminate He.
  - intros _ [e He]. discriminate He.
  - intros r c t Hlay. discriminate Hlay.
Defined.

(** ** The contractions over the store: every amplitude on its own *)

Lemma flatten_lookup_total r c (m : matrix) i j :
  well_shaped r c m → (i < r)%nat → (j < c)%nat →
  flatten m !!! (i * c + j)%nat = mat_at m i j.
Proof.
  intros Hm Hi Hj. rewrite <- (mat_at_to_rows r c (flatten m) i j) by done.
  by rewrite to_rows_flatten.
Qed.

Lemma scale_entries_flat f r c d i j :
  length d = (r * c)%nat → (i < r)%nat → (j < c)%nat →
  flatten (scale_entries f (to_rows r c d)) !!! (i * c + j)%nat
  = (f i j * d !!! (i * c + j)%nat)%C.
Proof.
  intros Hd Hi Hj. pose proof (to_rows_well_shaped r c d Hd) as HV.
  rewrite (flatten_lookup_total r c) by (done || by apply scale_entries_well_shaped).
  rewrite (mat_at_scale_entries _ r c) by done. by rewrite mat_at_to_rows.
Qed.

Lemma wf_occupation_lookup_total n (occ : list (list nat)) i :
  Forall (wf_occupation n) occ → wf_occupation n (occ !!! i).
Proof.
  intros Hocc. rewrite list_lookup_total_alt.
  destruct (occ !! i) as [O|] eqn:E; simpl.
  - eapply Forall_lookup_1 in Hocc; eauto.
  - split; [apply NoDup_nil_2|constructor].
Qed.

Section diagonal_action.
Variable gen_occslst : Z → Z → result (list (list nat)).

(** X16. [contract_num_op_sum] is diagonal in the determinant basis, for
    every vector: the amplitude at address [(ia, ib)] is multiplied by the sum
    of the coefficients of the orbitals occupied in the alpha string [ia] plus
    the sum over those occupied in the beta string [ib]; no two amplitudes
    are mixed, and the result has the dtype of the vector. *)
Theorem contract_num_op_sum_diagonal (σ : store) (vec coeffs : view)
    (norb n_alpha n_beta dim_a dim_b : Z) (occ_a occ_b : list (list nat))
    (dt dtc : dtype) (d c : list C) :
  let da := Z.to_nat dim_a in
  let db := Z.to_nat dim_b in
  comb norb n_alpha = Ok dim_a → comb norb n_beta = Ok dim_b →
  gen_occslst norb n_alpha = Ok occ_a → gen_occslst norb n_beta = Ok occ_b →
  lay vec = Flat (da * db) → σ !! base vec = Some (mk_buffer dt d) →
  length d = (da * db)%nat →
  lay coeffs = Flat (length c) → σ !! base coeffs = Some (mk_buffer dtc c) →
  ∃ y σ' d',
    contract_num_op_sum gen_occslst vec coeffs norb (n_alpha, n_beta) None None σ
    = (Ok y, σ')
    ∧ lay y = Flat (da * db)
    ∧ σ' !! base y = Some (mk_buffer dt d')
    ∧ length d' = (da * db)%nat
    ∧ ∀ ia ib, (ia < da)%nat → (ib < db)%nat →
        d' !!! (ia * db + ib)%nat
        = ((orbital_sum c (occ_a !!! ia) + orbital_sum c (occ_b !!! ib))
           * d !!! (ia * db + ib)%nat)%C.
Proof.
  intros da db Ha Hb Hoa Hob Hlay Hvec Hlen Hlayc Hcoeffs.
  assert (Hrun : contract_num_op_sum gen_occslst vec coeffs norb (n_alpha, n_beta)
                   None None σ
                 = contract_num_op_sum gen_occslst vec coeffs norb (n_alpha, n_beta)
                     (Some occ_a) (Some occ_b) σ).
  { unfold contract_num_op_sum, occupations_or. by rewrite Hoa, Hob. }
  rewrite Hrun.
  erewrite contract_num_op_sum_run; [|done..].
  eexists _, _, _. split; [done|]. split; [done|].
  cbn [base buf_dtype buf_data]. rewrite lookup_insert_eq. split; [done|].
  fold da db. rewrite Hlayc. cbn [view_data].
  pose proof (to_rows_well_shaped da db d Hlen) as HV. split.
  - apply length_flatten_well_shaped. by apply scale_entries_well_shaped.
  - intros ia ib Hia Hib.
    by rewrite (scale_entries_flat _ da db) by done.
Qed.

(** X17. [contract_diag_coulomb] is diagonal in the determinant basis, for
    every vector: with a symmetric [mat], the amplitude at address [(ia, ib)]
    is multiplied by the diagonal Coulomb eigenvalue of the determinant with
    the occupations [occ_a[ia]] and [occ_b[ib]]; the result has the dtype of
    the vector. *)
Theorem contract_diag_coulomb_diagonal (σ : store) (vec mat : view)
    (norb n_alpha n_beta : Z) (mat_alpha_beta : option view) (dim_a dim_b : Z)
    (occ_a occ_b : list (list nat)) (dt : dtype) (d : list C) (bm bm' : buffer)
    (tm tm' : bool) (M M' : matrix) :
  let da := Z.to_nat dim_a in
  let db := Z.to_nat dim_b in
  let n := Z.to_nat norb in
  let mab := default mat mat_alpha_beta in
  0 ≤ norb →
  comb norb n_alpha = Ok dim_a → comb norb n_beta = Ok dim_b →
  gen_occslst norb n_alpha = Ok occ_a → gen_occslst norb n_beta = Ok occ_b →
  Forall (wf_occupation n) occ_a → Forall (wf_occupation n) occ_b →
  lay vec = Flat (da * db) → σ !! base vec = Some (mk_buffer dt d) →
  length d = (da * db)%nat →
  lay mat = Mat n n tm → σ !! base mat = Some bm →
  length (buf_data bm) = (n * n)%nat →
  view_rows (lay mat) (buf_data bm) = Ok M → symmetric n M →
  lay mab = Mat n n tm' → σ !! base mab = Some bm' →
  length (buf_data bm') = (n * n)%nat →
  view_rows (lay mab) (buf_data bm') = Ok M' →
  ∃ y σ' d',
    contract_diag_coulomb gen_occslst vec mat norb (n_alpha, n_beta)
      mat_alpha_beta None None σ = (Ok y, σ')
    ∧ lay y = Flat (da * db)
    ∧ σ' !! base y = Some (mk_buffer dt d')
    ∧ length d' = (da * db)%nat
    ∧ ∀ ia ib, (ia < da)%nat → (ib < db)%nat →
        d' !!! (ia * db + ib)%nat
        = (diag_coulomb_eigenvalue M M' (occ_a !!! ia) (occ_b !!! ib)
           * d !!! (ia * db + ib)%nat)%C.
Proof.
  intros da db n mab Hnorb Ha Hb Hoa Hob Hwa Hwb Hlay Hvec Hlen
    Hlaym Hmat Hlenm HM Hsym Hlaym' Hmat' Hlenm' HM'.
  assert (Hrun : contract_diag_coulomb gen_occslst vec mat norb (n_alpha, n_beta)
                   mat_alpha_beta None None σ
                 = contract_diag_coulomb gen_occslst vec mat norb (n_alpha, n_beta)
                     mat_alpha_beta (Some occ_a) (Some occ_b) σ).
  { unfold contract_diag_coulomb, occupations_or. by rewrite Hoa, Hob. }
  rewrite Hrun.
  destruct (contract_diag_coulomb_run gen_occslst σ vec mat norb n_alpha n_beta
              mat_alpha_beta occ_a occ_b dim_a dim_b (mk_buffer dt d) bm bm' tm tm')
    as (l1 & l3 & Hl1 & Hl3 & Hne & ->); try done.
  eexists _, _, _. split; [done|]. split; [done|].
  cbn [base buf_dtype buf_data]. rewrite lookup_insert_eq. split; [done|].
  fold da db n mab.
  pose proof (to_rows_well_shaped da db d Hlen) as HV. split.
  - apply length_flatten_well_shaped. by apply scale_entries_well_shaped.
  - intros ia ib Hia Hib. rewrite (scale_entries_flat _ da db) by done.
    destruct (view_rows_data n n tm (buf_data bm) Hlenm) as [HrM HlenM].
    destruct (view_rows_data n n tm' (buf_data bm') Hlenm') as [HrM' _].
    rewrite <- Hlaym in HrM, HlenM. rewrite <- Hlaym' in HrM'.
    rewrite HM in HrM. rewrite HM' in HrM'.
    injection HrM as HrM. injection HrM' as HrM'. rewrite <- HrM, <- HrM'.
    rewrite (diag_coulomb_coeff_eigenvalue n); [done| |done|..].
    + rewrite HrM. by apply to_rows_well_shaped.
    + by apply wf_occupation_lookup_total.
    + by apply wf_occupation_lookup_total.
Qed.

End diagonal_action.

Lemma contract_num_op_sum_diagonal_witness :
  let gen := λ _ _ : Z, Ok [[0%nat]; [1%nat]] in
  let d := [RtoC 1; RtoC 2; RtoC 3; RtoC 4] in
  let c := [RtoC 5; RtoC 7] in
  let σ : store :=
    <[0%nat := mk_buffer complex128 d]> (<[1%nat := mk_buffer float64 c]> ∅) in
  ∃ y σ' d',
    contract_num_op_sum gen (mk_view 0%nat (Flat 4)) (mk_view 1%nat (Flat 2))
      2 (1, 1) None None σ = (Ok y, σ')
    ∧ lay y = Flat 4
    ∧ σ' !! base y = Some (mk_buffer complex128 d')
    ∧ length d' = 4%nat
    ∧ ∀ ia ib, (ia < 2)%nat → (ib < 2)%nat →
        d' !!! (ia * 2 + ib)%nat
        = ((orbital_sum c ([[0%nat]; [1%nat]] !!! ia)
            + orbital_sum c ([[0%nat]; [1%nat]] !!! ib))
           * d !!! (ia * 2 + ib)%nat)%C.
Proof.
  intros gen d c σ.
  apply (contract_num_op_sum_diagonal gen σ (mk_view 0%nat (Flat 4))
           (mk_view 1%nat (Flat 2)) 2 1 1 2 2 [[0%nat]; [1%nat]] [[0%nat]; [1%nat]]
           complex128 float64 d c);
    reflexivity.
Defined.

Lemma contract_diag_coulomb_diagonal_witness :
  let gen := λ _ _ : Z, Ok [[0%nat]; [1%nat]] in
  let Mdata := [RtoC 1; RtoC 2; RtoC 2; RtoC 3] in
  let M := [[RtoC 1; RtoC 2]; [RtoC 2; RtoC 3]] in
  let d := [RtoC 1; RtoC 2; RtoC 3; RtoC 4] in
  let σ : store :=
    <[0%nat := mk_buffer complex128 d]> (<[1%nat := mk_buffer float64 Mdata]> ∅) in
  ∃ y σ' d',
    contract_diag_coulomb gen (mk_view 0%nat (Flat 4)) (mk_view 1%nat (Mat 2 2 false))
      2 (1, 1) None None None σ = (Ok y, σ')
    ∧ lay y = Flat 4
    ∧ σ' !! base y = Some (mk_buffer complex128 d')
    ∧ length d' = 4%nat
    ∧ ∀ ia ib, (ia < 2)%nat → (ib < 2)%nat →
        d' !!! (ia * 2 + ib)%nat
        = (diag_coulomb_eigenvalue M M ([[0%nat]; [1%nat]] !!! ia)
             ([[0%nat]; [1%nat]] !!! ib)
           * d !!! (ia * 2 + ib)%nat)%C.
Proof.
  intros gen Mdata M d σ.
  apply (contract_diag_coulomb_diagonal gen σ (mk_view 0%nat (Flat 4))
           (mk_view 1%nat (Mat 2 2 false)) 2 1 1 None 2 2
           [[0%nat]; [1%nat]] [[0%nat]; [1%nat]] complex128 d
           (mk_buffer float64 Mdata) (mk_buffer float64 Mdata) false false M M);
    try reflexivity; try (simpl; lia).
  - repeat (apply Forall_cons; split; [split; [apply NoDup_singleton|]|]);
      repeat constructor; simpl; lia.
  - repeat (apply Forall_cons; split; [split; [apply NoDup_singleton|]|]);
      repeat constructor; simpl; lia.
  - intros i j Hi Hj. simpl in Hi, Hj.
    destruct i as [|[|i]], j as [|[|j]]; try lia; reflexivity.
Defined.

(** ** The one-body operator *)

Lemma one_body_matvec_apply one_body_tensor norb link_index vec :
  one_body_matvec one_body_tensor norb link_index vec
  = apply_one_body one_body_tensor vec norb link_index.
Proof. by rewrite one_body_matvec_four, four_contract_1e_apply. Qed.

Lemma one_body_tensor_to_linop_inv gen_linkstr_index one_body_tensor norb nelec op :
  one_body_tensor_to_linop gen_linkstr_index one_body_tensor norb nelec = Ok op →
  ∃ dim la lb,
    get_dimension norb nelec = Ok dim
    ∧ gen_linkstr_index norb nelec.1 = Ok la
    ∧ gen_linkstr_index norb nelec.2 = Ok lb
    ∧ op = mk_LinearOperator (dim, dim)
             (λ vec, one_body_matvec one_body_tensor norb (la, lb) vec)
             (λ vec, one_body_matvec (array_H one_body_tensor) norb (la, lb) vec)
             complex128.
Proof.
  unfold one_body_tensor_to_linop. destruct nelec as [n_alpha n_beta]. intros H.
  apply result_bind_Ok_inv in H as (dim & Hdim & H).
  apply result_bind_Ok_inv in H as (la & Hla & H).
  apply result_bind_Ok_inv in H as (lb & Hlb & H).
  injection H as <-. by exists dim, la, lb.
Qed.

Section one_body_real.
Variable gen_linkstr_index : Z → Z → result link_table.

(** X18. For a float64 tensor and a float64 vector the operator of
    [one_body_tensor_to_linop] returns what the real primitive [contract_1e]
    returns for them, cast to complex: the three contractions with an
    imaginary part add nothing (and an exception of the primitive is passed
    on). *)
Theorem one_body_linop_real (one_body_tensor vec : ndarray) (norb : Z)
    (nelec : Z * Z) (op : LinearOperator (ndarray → result ndarray)) :
  one_body_tensor_to_linop gen_linkstr_index one_body_tensor norb nelec = Ok op →
  dtype_of one_body_tensor = float64 → dtype_of vec = float64 →
  ∃ link_index,
    gen_linkstr_index norb nelec.1 = Ok link_index.1
    ∧ gen_linkstr_index norb nelec.2 = Ok link_index.2
    ∧ lo_matvec op vec
      = (r ← contract_1e one_body_tensor vec norb link_index;
         Ok (astype complex128 r)).
Proof.
  intros Hop HdT Hdv.
  apply one_body_tensor_to_linop_inv in Hop as (dim & la & lb & _ & Hla & Hlb & ->).
  exists (la, lb). split; [done|]. split; [done|].
  cbn [lo_matvec]. rewrite one_body_matvec_apply.
  unfold apply_one_body, contract_1e.
  destruct (decide (length (data vec) = (length la * length lb)%nat)); [|done].
  by rewrite decide_True by done.
Qed.

End one_body_real.

Lemma one_body_linop_real_witness :
  let link : link_table := [[(0%nat, 0%nat, 0%nat, 1)]] in
  let tensor := mk_ndarray float64 [1; 1]%nat [C1] in
  let vec := mk_ndarray float64 [1%nat] [C1] in
  ∃ op link_index,
    one_body_tensor_to_linop (λ _ _, Ok link) tensor 1 (1, 1) = Ok op
    ∧ lo_matvec op vec
      = (r ← contract_1e tensor vec 1 link_index; Ok (astype complex128 r)).
Proof.
  intros link tensor vec. eexists.
  destruct (one_body_linop_real (λ _ _, Ok link) tensor vec 1 (1, 1) _
              eq_refl eq_refl eq_refl) as (li & _ & _ & H).
  exists li. split; [reflexivity|exact H].
Defined.

(** *** A Hermitian tensor *)

Lemma Cconj_0 : Cconj C0 = C0.
Proof. apply C_eq; simpl; lra. Qed.

Lemma flat_ext r c (l l' : list C) :
  length l = (r * c)%nat → length l' = (r * c)%nat →
  (∀ i j, (i < r)%nat → (j < c)%nat →
     l !!! (i * c + j)%nat = l' !!! (i * c + j)%nat) →
  l = l'.
Proof.
  intros Hl Hl' Hat.
  rewrite <- (flatten_to_rows r c l Hl), <- (flatten_to_rows r c l' Hl'). f_equal.
  apply (mat_ext r c); [by apply to_rows_well_shaped..|].
  intros i j Hi Hj. rewrite !mat_at_to_rows by done. by apply Hat.
Qed.

(** A square array that equals its conjugate transpose entry by entry is
    its own [.T.conj()]. *)
Lemma array_H_hermitian (M : ndarray) (n : nat) :
  shape M = [n; n] → length (data M) = (n * n)%nat →
  (∀ i j, (i < n)%nat → (j < n)%nat →
     data M !!! (j * n + i)%nat = Cconj (data M !!! (i * n + j)%nat)) →
  array_H M = M.
Proof.
  destruct M as [dt sh d]. simpl. intros -> Hlen Hherm.
  unfold array_H, array_conj, array_T. simpl. f_equal.
  pose proof (to_rows_well_shaped n n d Hlen) as Hd.
  pose proof (transpose_well_shaped n n (to_rows n n d)) as Ht.
  apply (flat_ext n n); [|done|].
  { rewrite length_fmap. by apply length_flatten_well_shaped. }
  intros i j Hi Hj. rewrite (lookup_total_fmap_C0 Cconj) by apply Cconj_0.
  rewrite (flatten_lookup_total n n) by done.
  rewrite mat_at_transpose by done. rewrite mat_at_to_rows by done.
  symmetry. by apply Hherm.
Qed.

Section one_body_hermitian.
Variable gen_linkstr_index : Z → Z → result link_table.

(** X19. For a Hermitian one-body tensor (a square array equal, entry by
    entry, to its conjugate transpose) the adjoint application of the
    operator of [one_body_tensor_to_linop] is its forward application. *)
Theorem one_body_linop_hermitian (one_body_tensor : ndarray) (norb : Z)
    (nelec : Z * Z) (op : LinearOperator (ndarray → result ndarray)) (n : nat) :
  one_body_tensor_to_linop gen_linkstr_index one_body_tensor norb nelec = Ok op →
  shape one_body_tensor = [n; n] → length (data one_body_tensor) = (n * n)%nat →
  (∀ i j, (i < n)%nat → (j < n)%nat →
     data one_body_tensor !!! (j * n + i)%nat
     = Cconj (data one_body_tensor !!! (i * n + j)%nat)) →
  ∀ vec, lo_rmatvec op vec = lo_matvec op vec.
Proof.
  intros Hop Hsh Hlen Hherm vec.
  apply one_body_tensor_to_linop_inv in Hop as (dim & la & lb & _ & _ & _ & ->).
  cbn [lo_matvec lo_rmatvec]. by rewrite (array_H_hermitian _ n).
Qed.

End one_body_hermitian.

Lemma one_body_linop_hermitian_witness :
  let link : link_table := [[(0%nat, 0%nat, 0%nat, 1)]; [(1%nat, 1%nat, 1%nat, 1)]] in
  let tensor := mk_ndarray complex128 [2; 2]%nat [C1; Ci; (- Ci)%C; RtoC 2] in
  ∃ op,
    one_body_tensor_to_linop (λ _ _, Ok link) tensor 2 (1, 1) = Ok op
    ∧ ∀ vec, lo_rmatvec op vec = lo_matvec op vec.
Proof.
  intros link tensor. eexists. split; [reflexivity|].
  apply (one_body_linop_hermitian (λ _ _, Ok link) tensor 2 (1, 1) _ 2%nat eq_refl
           eq_refl eq_refl).
  intros i j Hi Hj.
  destruct i as [|[|i]], j as [|[|j]]; try lia; apply C_eq; simpl; lra.
Defined.

(** *** Linearity in the vector *)

Lemma foldl_rel3 {S X : Type} (R : S → S → S → Prop)
    (f0 f1 f2 : S → X → S) (l : list X) s0 s1 s2 :
  R s0 s1 s2 →
  (∀ s0 s1 s2 x, R s0 s1 s2 → R (f0 s0 x) (f1 s1 x) (f2 s2 x)) →
  R (foldl f0 s0 l) (foldl f1 s1 l) (foldl f2 s2 l).
Proof.
  intros HR Hstep. revert s0 s1 s2 HR.
  induction l as [|x l IH]; intros s0 s1 s2 HR; simpl; [done|]. by apply IH, Hstep.
Qed.

Section one_body_combination.
Variables (c1 c2 : C) (n r c : nat) (h : list C) (V V1 V2 : matrix).
Hypothesis HV : combination c1 c2 r c V V1 V2.

Lemma one_body_pass_a_combination link S S1 S2 :
  combination c1 c2 r c S S1 S2 →
  combination c1 c2 r c (one_body_pass_a n h V link S)
    (one_body_pass_a n h V1 link S1) (one_body_pass_a n h V2 link S2).
Proof.
  intros HR. unfold one_body_pass_a.
  apply (foldl_rel3 (combination c1 c2 r c)); [done|]. clear HR S S1 S2.
  intros S S1 S2 [str0 tab] HR.
  apply (foldl_rel3 (combination c1 c2 r c)); [done|]. clear HR S S1 S2.
  intros S S1 S2 [[[a i] str1] sign] HS.
  destruct HV as (HsV & HsV1 & HsV2 & HVat).
  destruct (decide (str0 < r)%nat) as [Hstr0|Hstr0].
  2:{ rewrite !lookup_ge_None_2; [done|destruct HsV2|destruct HsV1|destruct HsV]; lia. }
  destruct (well_shaped_lookup r c V str0 HsV Hstr0) as (row & Hr & Hrow).
  destruct (well_shaped_lookup r c V1 str0 HsV1 Hstr0) as (row1 & Hr1 & Hrow1).
  destruct (well_shaped_lookup r c V2 str0 HsV2 Hstr0) as (row2 & Hr2 & Hrow2).
  rewrite Hr, Hr1, Hr2.
  apply combination_alter_row; [done..|].
  intros q Hq. specialize (HVat str0 q Hstr0 Hq). unfold mat_at in HVat.
  by rewrite (list_lookup_total_correct _ _ _ Hr),
    (list_lookup_total_correct _ _ _ Hr1), (list_lookup_total_correct _ _ _ Hr2)
    in HVat.
Qed.

Lemma one_body_pass_b_combination link S S1 S2 :
  combination c1 c2 r c S S1 S2 →
  combination c1 c2 r c (one_body_pass_b n h V link S)
    (one_body_pass_b n h V1 link S1) (one_body_pass_b n h V2 link S2).
Proof.
  intros HR. unfold one_body_pass_b.
  apply (foldl_rel3 (combination c1 c2 r c)); [done|]. clear HR S S1 S2.
  intros S S1 S2 [str0 tab] HR.
  apply (foldl_rel3 (combination c1 c2 r c)); [done|]. clear HR S S1 S2.
  intros S S1 S2 [[[a i] str1] sign] (HS & HS1 & HS2 & Hat).
  destruct HV as (HsV & HsV1 & HsV2 & HVat).
  split; [|split; [|split]]; try by apply col_step_well_shaped.
  intros p q Hp Hq. rewrite !(mat_at_col_step r c) by done.
  destruct (decide (str0 < c ∧ q = str1)%nat) as [[Hstr0 ->]|Hne]; [|by apply Hat].
  rewrite Hat, (HVat p str0) by done. ring.
Qed.

End one_body_combination.

Lemma apply_one_body_combination (c1 c2 : C) (h : ndarray) (dt dt1 dt2 : dtype)
    (sh : list nat) (d1 d2 : list C) (norb : Z) (link_index : link_table * link_table)
    (y1 y2 : ndarray) :
  apply_one_body h (mk_ndarray dt1 sh d1) norb link_index = Ok y1 →
  apply_one_body h (mk_ndarray dt2 sh d2) norb link_index = Ok y2 →
  apply_one_body h (mk_ndarray dt sh (vadd (vscale c1 d1) (vscale c2 d2))) norb
    link_index
  = Ok (mk_ndarray complex128 sh (vadd (vscale c1 (data y1)) (vscale c2 (data y2)))).
Proof.
  unfold apply_one_body. destruct link_index as [la lb]. cbn [data shape].
  destruct (decide (length d1 = (length la * length lb)%nat)) as [Hd1|]; [|done].
  destruct (decide (length d2 = (length la * length lb)%nat)) as [Hd2|]; [|done].
  intros [= <-] [= <-].
  rewrite decide_True by (rewrite length_vadd, !length_vscale; lia).
  cbn [data]. do 2 f_equal.
  apply (combination_flatten c1 c2 (length la) (length lb)).
  pose proof (combination_to_rows c1 c2 _ _ d1 d2 Hd1 Hd2) as HV.
  apply one_body_pass_b_combination; [done|].
  apply one_body_pass_a_combination; [done|]. apply combination_zeros.
Qed.

Section one_body_linear.
Variable gen_linkstr_index : Z → Z → result link_table.

(** X20. The operator of [one_body_tensor_to_linop] is linear in the vector,
    forward and adjoint: when it returns [y1] for [v1] and [y2] for [v2] (two
    vectors of one shape), it returns [c1 y1 + c2 y2] for the vector
    [c1 v1 + c2 v2], for any two scalars. *)
Theorem one_body_linop_linear (c1 c2 : C) (one_body_tensor v1 v2 : ndarray)
    (dt : dtype) (norb : Z) (nelec : Z * Z)
    (op : LinearOperator (ndarray → result ndarray)) :
  one_body_tensor_to_linop gen_linkstr_index one_body_tensor norb nelec = Ok op →
  shape v2 = shape v1 →
  let v := mk_ndarray dt (shape v1) (vadd (vscale c1 (data v1)) (vscale c2 (data v2))) in
  (∀ y1 y2, lo_matvec op v1 = Ok y1 → lo_matvec op v2 = Ok y2 →
     lo_matvec op v
     = Ok (mk_ndarray complex128 (shape v1)
             (vadd (vscale c1 (data y1)) (vscale c2 (data y2)))))
  ∧ (∀ y1 y2, lo_rmatvec op v1 = Ok y1 → lo_rmatvec op v2 = Ok y2 →
       lo_rmatvec op v
       = Ok (mk_ndarray complex128 (shape v1)
               (vadd (vscale c1 (data y1)) (vscale c2 (data y2))))).
Proof.
  intros Hop Hsh v.
  apply one_body_tensor_to_linop_inv in Hop as (dim & la & lb & _ & _ & _ & ->).
  cbn [lo_matvec lo_rmatvec]. rewrite !one_body_matvec_apply.
  destruct v1 as [dt1 sh d1], v2 as [dt2 sh2 d2]. cbn [shape data] in *.
  subst sh2 v.
  split; intros y1 y2; apply apply_one_body_combination.
Qed.

End one_body_linear.

Lemma one_body_linop_linear_witness :
  let link : link_table := [[(0%nat, 0%nat, 0%nat, 1)]] in
  let tensor := mk_ndarray complex128 [1; 1]%nat [Ci] in
  let v1 := mk_ndarray complex128 [1%nat] [C1] in
  let v2 := mk_ndarray complex128 [1%nat] [Ci] in
  ∃ op y1 y2,
    one_body_tensor_to_linop (λ _ _, Ok link) tensor 1 (1, 1) = Ok op
    ∧ lo_matvec op v1 = Ok y1 ∧ lo_matvec op v2 = Ok y2
    ∧ lo_matvec op
        (mk_ndarray complex128 [1%nat]
           (vadd (vscale Ci (data v1)) (vscale C1 (data v2))))
      = Ok (mk_ndarray complex128 [1%nat]
              (vadd (vscale Ci (data y1)) (vscale C1 (data y2)))).
Proof.
  intros link tensor v1 v2. eexists _, _, _.
  split; [reflexivity|]. split; [reflexivity|]. split; [reflexivity|].
  refine (proj1 (one_body_linop_linear (λ _ _, Ok link) Ci C1 tensor v1 v2 complex128
                   1 (1, 1) _ eq_refl eq_refl) _ _ eq_refl eq_refl).
Defined.

(** ** The two diagonal operators commute *)

Section commute.
Variable gen_occslst : Z → Z → result (list (list nat)).

(** X21. [contract_diag_coulomb] and [contract_num_op_sum] commute: applied
    one after the other to a vector, in either order, they return arrays
    holding the same amplitudes (in new buffers, of the dtype of the
    vector). *)
Theorem diag_coulomb_num_op_sum_commute (σ : store) (vec mat coeffs : view)
    (norb n_alpha n_beta : Z) (mat_alpha_beta : option view) (dim_a dim_b : Z)
    (occ_a occ_b : list (list nat)) (bv bm bm' bc : buffer) (tm tm' : bool) :
  let da := Z.to_nat dim_a in
  let db := Z.to_nat dim_b in
  let n := Z.to_nat norb in
  let mab := default mat mat_alpha_beta in
  let nelec := (n_alpha, n_beta) in
  0 ≤ norb →
  comb norb n_alpha = Ok dim_a → comb norb n_beta = Ok dim_b →
  gen_occslst norb n_alpha = Ok occ_a → gen_occslst norb n_beta = Ok occ_b →
  lay vec = Flat (da * db) → σ !! base vec = Some bv →
  length (buf_data bv) = (da * db)%nat →
  lay mat = Mat n n tm → σ !! base mat = Some bm →
  length (buf_data bm) = (n * n)%nat →
  lay mab = Mat n n tm' → σ !! base mab = Some bm' →
  length (buf_data bm') = (n * n)%nat →
  σ !! base coeffs = Some bc →
  ∃ y1 σ1 y2 σ2 z1 τ1 z2 τ2 d,
    contract_diag_coulomb gen_occslst vec mat norb nelec mat_alpha_beta None None σ
    = (Ok y1, σ1)
    ∧ contract_num_op_sum gen_occslst y1 coeffs norb nelec None None σ1 = (Ok y2, σ2)
    ∧ contract_num_op_sum gen_occslst vec coeffs norb nelec None None σ = (Ok z1, τ1)
    ∧ contract_diag_coulomb gen_occslst z1 mat norb nelec mat_alpha_beta None None τ1
      = (Ok z2, τ2)
    ∧ lay y2 = Flat (da * db) ∧ lay z2 = Flat (da * db)
    ∧ σ2 !! base y2 = Some (mk_buffer (buf_dtype bv) d)
    ∧ τ2 !! base z2 = Some (mk_buffer (buf_dtype bv) d).
Proof.
  intros da db n mab nelec Hnorb Ha Hb Hoa Hob Hlay Hvec Hlen
    Hlaym Hmat Hlenm Hlaym' Hmat' Hlenm' Hcoeffs.
  assert (Hd : ∀ v τ, contract_diag_coulomb gen_occslst v mat norb nelec
                        mat_alpha_beta None None τ
                      = contract_diag_coulomb gen_occslst v mat norb nelec
                          mat_alpha_beta (Some occ_a) (Some occ_b) τ).
  { intros v τ. unfold contract_diag_coulomb, occupations_or, nelec.
    by rewrite Hoa, Hob. }
  assert (Hn : ∀ v τ, contract_num_op_sum gen_occslst v coeffs norb nelec None None τ
                      = contract_num_op_sum gen_occslst v coeffs norb nelec
                          (Some occ_a) (Some occ_b) τ).
  { intros v τ. unfold contract_num_op_sum, occupations_or, nelec.
    by rewrite Hoa, Hob. }
  pose proof (to_rows_well_shaped da db (buf_data bv) Hlen) as HV.
  set (V := to_rows da db (buf_data bv)) in *.
  (* the Coulomb operator first *)
  destruct (contract_diag_coulomb_run gen_occslst σ vec mat norb n_alpha n_beta
              mat_alpha_beta occ_a occ_b dim_a dim_b bv bm bm' tm tm')
    as (l1 & l3 & Hl1 & Hl3 & Hne & Hrun1); try done.
  fold da db n mab nelec V in Hrun1.
  set (f := λ i j : nat,
         diag_coulomb_coeff
           (halve_diag n (to_rows n n (view_data (lay mat) (buf_data bm))))
           (to_rows n n (view_data (lay mab) (buf_data bm')))
           (occ_a !!! i) (occ_b !!! j)) in *.
  set (σ1 := <[l3 := mk_buffer (buf_dtype bv) (flatten (scale_entries f V))]>
               (<[l1 := mk_buffer (buf_dtype bm)
                          (flatten (halve_diag n
                             (to_rows n n (view_data (lay mat) (buf_data bm)))))]> σ))
    in *.
  assert (Hc1 : σ1 !! base coeffs = Some bc).
  { unfold σ1. rewrite !lookup_insert_ne; [done|congruence|congruence]. }
  pose proof (scale_entries_well_shaped f da db V HV) as HfV.
  pose proof (contract_num_op_sum_run gen_occslst σ1 (mk_view l3 (Flat (da * db)))
                coeffs norb n_alpha n_beta occ_a occ_b dim_a dim_b
                (mk_buffer (buf_dtype bv) (flatten (scale_entries f V))) bc
                Ha Hb eq_refl) as Hrun2.
  cbn [base buf_data buf_dtype] in Hrun2. fold da db nelec in Hrun2.
  specialize (Hrun2 (lookup_insert_eq _ _ _)
                (length_flatten_well_shaped _ _ _ HfV) Hc1).
  rewrite (to_rows_flatten da db _ HfV) in Hrun2.
  set (g := λ i j : nat,
         (num_op_coeff (view_data (lay coeffs) (buf_data bc)) (occ_a !!! i)
          + num_op_coeff (view_data (lay coeffs) (buf_data bc)) (occ_b !!! j))%C) in *.
  (* the number operators first *)
  pose proof (contract_num_op_sum_run gen_occslst σ vec coeffs norb n_alpha n_beta
                occ_a occ_b dim_a dim_b bv bc Ha Hb Hlay Hvec Hlen Hcoeffs) as Hrun3.
  fold da db nelec V g in Hrun3.
  set (l := fresh (dom σ)) in *.
  set (τ1 := <[l := mk_buffer (buf_dtype bv) (flatten (scale_entries g V))]> σ) in *.
  pose proof (scale_entries_well_shaped g da db V HV) as HgV.
  assert (Hτ : ∀ k b, σ !! k = Some b → τ1 !! k = Some b).
  { intros k b Hk. unfold τ1. rewrite lookup_insert_ne; [done|].
    intros <-. by apply (fresh_ne σ _ _ Hk). }
  destruct (contract_diag_coulomb_run gen_occslst τ1 (mk_view l (Flat (da * db))) mat
              norb n_alpha n_beta mat_alpha_beta occ_a occ_b dim_a dim_b
              (mk_buffer (buf_dtype bv) (flatten (scale_entries g V))) bm bm' tm tm')
    as (k1 & k3 & Hk1 & Hk3 & Hkne & Hrun4); try done; auto.
  { apply lookup_insert_eq. }
  { by apply length_flatten_well_shaped. }
  cbn [base buf_data buf_dtype] in Hrun4. fold da db n mab nelec f in Hrun4.
  rewrite (to_rows_flatten da db _ HgV) in Hrun4.
  eexists _, _, _, _, _, _, _, _, _.
  split; [rewrite Hd; exact Hrun1|].
  split; [rewrite Hn; exact Hrun2|].
  split; [rewrite Hn; exact Hrun3|].
  split; [rewrite Hd; exact Hrun4|].
  split; [done|]. split; [done|]. cbn [base].
  rewrite !lookup_insert_eq. split; [reflexivity|]. do 3 f_equal.
  apply (mat_ext da db); [by apply scale_entries_well_shaped..|].
  intros i j Hi Hj. rewrite !(mat_at_scale_entries _ da db) by done. ring.
Qed.

End commute.

Lemma diag_coulomb_num_op_sum_commute_witness :
  let gen := λ _ _ : Z, Ok [[0%nat]; [1%nat]] in
  let σ : store :=
    <[0%nat := mk_buffer complex128 [RtoC 1; RtoC 2; RtoC 3; RtoC 4]]>
      (<[1%nat := mk_buffer float64 [RtoC 1; RtoC 2; RtoC 2; RtoC 3]]>
         (<[2%nat := mk_buffer float64 [RtoC 5; RtoC 7]]> ∅)) in
  let vec := mk_view 0%nat (Flat 4) in
  let mat := mk_view 1%nat (Mat 2 2 false) in
  let coeffs := mk_view 2%nat (Flat 2) in
  ∃ y1 σ1 y2 σ2 z1 τ1 z2 τ2 d,
    contract_diag_coulomb gen vec mat 2 (1, 1) None None None σ = (Ok y1, σ1)
    ∧ contract_num_op_sum gen y1 coeffs 2 (1, 1) None None σ1 = (Ok y2, σ2)
    ∧ contract_num_op_sum gen vec coeffs 2 (1, 1) None None σ = (Ok z1, τ1)
    ∧ contract_diag_coulomb gen z1 mat 2 (1, 1) None None None τ1 = (Ok z2, τ2)
    ∧ lay y2 = Flat 4 ∧ lay z2 = Flat 4
    ∧ σ2 !! base y2 = Some (mk_buffer complex128 d)
    ∧ τ2 !! base z2 = Some (mk_buffer complex128 d).
Proof.
  intros gen σ vec mat coeffs.
  apply (diag_coulomb_num_op_sum_commute gen σ vec mat coeffs 2 1 1 None 2 2
           [[0%nat]; [1%nat]] [[0%nat]; [1%nat]]
           (mk_buffer complex128 [RtoC 1; RtoC 2; RtoC 3; RtoC 4])
           (mk_buffer float64 [RtoC 1; RtoC 2; RtoC 2; RtoC 3])
           (mk_buffer float64 [RtoC 1; RtoC 2; RtoC 2; RtoC 3])
           (mk_buffer float64 [RtoC 5; RtoC 7]) false false);
    try reflexivity; simpl; lia.
Defined.
